(** * Durable task execution core: the Ralph Wiggum autonomy engine

    A shallow embedding of [ralph_wiggum_engine.py]: the task and checkpoint
    records, the engine's registry and storage directories, and the
    operations [create_task], [execute_task], [resume_task], [suspend_task]
    and [cleanup_completed_tasks], followed by the properties the
    specification states about them.

    Conventions of the embedding.
    - Python objects that steps share and mutate in place (nested dicts and
      lists inside [state_data]) live in an object store ([heap]); a [value]
      is either an immutable scalar or a reference into that store.  A dict
      is a finite map from string keys to values.
    - [datetime.now()] and [uuid.uuid4()] are read from two sources owned by
      the environment ([wall_clock], [uuid_source]); the engine counts how
      often it has read each of them.
    - A [datetime] is the number of microseconds since 1970-01-01 00:00 of
      the naive local calendar; [datetime.min] and [datetime.max] bound the
      results of date arithmetic.
    - A file written with [json.dump] is represented by the dumped record
      together with the object store at the time of the dump, which fix the
      JSON text.  State payloads are taken to be JSON-serialisable (no
      cycles, string keys), so a dump does not raise.  Reading a file back
      with [json.load] builds a new object for every dict and list of the
      text: nothing read back is shared with a live object or with another
      part of the same file.
    - A directory holds one file per name: writing under a name that exists
      replaces the content.
    - Console output is not part of the model. *)

From stdpp Require Import numbers sorting base option list gmap strings pretty.

Open Scope Z_scope.

(** ** Enumerations *)

Inductive TaskStatus :=
  | PENDING | IN_PROGRESS | CHECKPOINTED | SUSPENDED
  | COMPLETED | FAILED | INTERRUPTED.

Inductive TaskPriority := LOW | NORMAL | HIGH | URGENT.

#[global] Instance TaskStatus_eq_dec : EqDecision TaskStatus.
Proof. solve_decision. Defined.

#[global] Instance TaskPriority_eq_dec : EqDecision TaskPriority.
Proof. solve_decision. Defined.

(** ** Python values and the object store *)

Definition loc := nat.

Inductive value :=
  | VNone
  | VBool (b : bool)
  | VInt (z : Z)
  | VStr (s : string)
  | VRef (l : loc).

#[global] Instance value_eq_dec : EqDecision value.
Proof. solve_decision. Defined.

Inductive obj :=
  | ODict (d : gmap string value)
  | OList (xs : list value).

Definition heap := list obj.

(** Allocation of a fresh object: the new reference is the next free slot. *)
Definition alloc (o : obj) (h : heap) : heap * loc := (h ++ [o], length h).

(** The tree a value denotes in a given store, cut off at depth [fuel]. *)
#[local] Set Warnings "-register-all".
Inductive tree :=
  | TScalar (v : value)
  | TDict (kvs : list (string * tree))
  | TList (ts : list tree)
  | TDangling
  | TCut.

Fixpoint deep (fuel : nat) (h : heap) (v : value) : tree :=
  match fuel with
  | O => TCut
  | S fuel' =>
    match v with
    | VRef l =>
      match h !! l with
      | Some (ODict d) =>
        TDict (map (fun kv => (kv.1, deep fuel' h kv.2)) (map_to_list d))
      | Some (OList xs) => TList (map (deep fuel' h) xs)
      | None => TDangling
      end
    | _ => TScalar v
    end
  end.

Definition deep_dict (fuel : nat) (h : heap) (d : gmap string value)
  : gmap string tree := deep fuel h <$> d.

(** [json.dump] of a value: its tree, down to the leaves.  A store without
    cycles has no chain of references longer than its size. *)
Definition json_dumps (h : heap) (v : value) : tree := deep (S (length h)) h v.

(** Reading the parts of a text one after the other: each part adds its
    objects to the store. *)
Definition load_all {A B : Type} (load : A -> heap -> B * heap)
  : list A -> heap -> list B * heap :=
  fix go (l : list A) (h : heap) : list B * heap :=
    match l with
    | [] => ([], h)
    | x :: l' =>
      let '(y, h) := load x h in
      let '(ys, h) := go l' h in
      (y :: ys, h)
    end.

(** [json.load]: every dict and list of the text becomes a new object. *)
Fixpoint json_loads (t : tree) (h : heap) : value * heap :=
  match t with
  | TScalar v => (v, h)
  | TDict kvs =>
    let '(kvs, h) :=
      load_all (fun (kv : string * tree) h =>
                  let '(v, h) := json_loads kv.2 h in ((kv.1, v), h)) kvs h in
    let '(h, l) := alloc (ODict (list_to_map kvs)) h in
    (VRef l, h)
  | TList ts =>
    let '(vs, h) := load_all json_loads ts h in
    let '(h, l) := alloc (OList vs) h in
    (VRef l, h)
  | TDangling | TCut => (VNone, h)
  end.

(** A value written to a file in the store [src] and read back into [h]. *)
Definition reload (src : heap) (v : value) (h : heap) : value * heap :=
  json_loads (json_dumps src v) h.

(** The same for a dict of the dump (a record field holding a dict). *)
Definition reload_dict (src : heap) (d : gmap string value) (h : heap)
  : gmap string value * heap :=
  let '(kvs, h) :=
    load_all (fun (kv : string * value) h =>
                let '(v, h) := reload src kv.2 h in ((kv.1, v), h))
      (map_to_list d) h in
  (list_to_map kvs, h).

(** ** Step functions

    A step is a caller-supplied callable.  [_execute_step] inspects it: a
    callable with at least one parameter receives the step context, one
    without parameters receives nothing; a coroutine function is awaited.
    A call either returns a value, raises an [Exception] whose [str] is
    recorded, or is cut short by [KeyboardInterrupt]. *)

Inductive outcome :=
  | Returned (v : value)
  | Raised (msg : string)
  | Interrupted.

Record step_context := {
  ctx_task_id : string;
  ctx_step_index : nat;
  ctx_total_steps : nat;
  ctx_state : gmap string value
}.

(** What a call leaves behind: the [state] dict of the context as the step
    left it, the object store, and how the call ended. *)
Record invocation := {
  inv_state : gmap string value;
  inv_heap : heap;
  inv_outcome : outcome
}.

Inductive step_func :=
  | StepWithContext (coroutine : bool)
      (f : step_context -> heap -> invocation)
  | StepNoParams (coroutine : bool) (f : heap -> heap * outcome).

Definition iscoroutinefunction (s : step_func) : bool :=
  match s with
  | StepWithContext c _ => c
  | StepNoParams c _ => c
  end.

(** ** TaskCheckpoint and AutonomyTask *)

Record TaskCheckpoint := {
  checkpoint_id : string;
  ckpt_task_id : string;
  step : nat;
  data : gmap string value;
  timestamp : Z
}.

Record AutonomyTask := {
  task_id : string;
  name : string;
  description : string;
  steps : list step_func;
  status : TaskStatus;
  priority : TaskPriority;
  created_at : Z;
  started_at : option Z;
  completed_at : option Z;
  current_step : nat;
  checkpoints : list TaskCheckpoint;
  state_data : gmap string value;
  result : value;
  error : option string;
  max_retries : nat;
  retry_count : nat
}.

(** [AutonomyTask.__init__] *)
Definition new_task (task_id name : string) (steps : list step_func)
    (description : string) (now : Z) : AutonomyTask :=
  {| task_id := task_id;
     name := name;
     description := description;
     steps := steps;
     status := PENDING;
     priority := NORMAL;
     created_at := now;
     started_at := None;
     completed_at := None;
     current_step := 0;
     checkpoints := [];
     state_data := ∅;
     result := VNone;
     error := None;
     max_retries := 3;
     retry_count := 0 |}.

(** ** Files *)

(** [Task_Queues/<task_id>.json]: what [to_dict] dumps.  The step list is
    not part of the dump, so [json_task] carries an empty one. *)
Record task_json := {
  json_task : AutonomyTask;
  json_task_objects : heap
}.

(** [Checkpoints/<task_id>_checkpoint_<checkpoint_id>.json] *)
Record checkpoint_json := {
  json_file_name : string;
  json_checkpoint : TaskCheckpoint;
  json_checkpoint_objects : heap
}.

(** ** Observation of a run

    Instrumentation only: every call of a step function is recorded with the
    status the task had when the call was made, and every [suspend_task]
    issued by another coroutine while a step is awaited is recorded with its
    return value. *)
Inductive event :=
  | Invoke (task_id : string) (step_index : nat) (st : TaskStatus)
      (o : outcome)
  | Suspend (task_id : string) (ok : bool).

(** ** The engine *)

Record RalphWiggumEngine := {
  tasks : gmap string AutonomyTask;
  active_tasks : list string;
  checkpoint_interval : nat;
  objects : heap;
  Task_Queues : gmap string task_json;
  Checkpoints : list checkpoint_json;
  wall_clock : nat -> Z;
  clock_reads : nat;
  uuid_source : nat -> string;
  uuid_draws : nat;
  trace : list event
}.

Definition set_steps (x : list step_func) (task : AutonomyTask) : AutonomyTask :=
  {| task_id := task_id task;
     name := name task;
     description := description task;
     steps := x;
     status := status task;
     priority := priority task;
     created_at := created_at task;
     started_at := started_at task;
     completed_at := completed_at task;
     current_step := current_step task;
     checkpoints := checkpoints task;
     state_data := state_data task;
     result := result task;
     error := error task;
     max_retries := max_retries task;
     retry_count := retry_count task |}.

Definition set_status (x : TaskStatus) (task : AutonomyTask) : AutonomyTask :=
  {| task_id := task_id task;
     name := name task;
     description := description task;
     steps := steps task;
     status := x;
     priority := priority task;
     created_at := created_at task;
     started_at := started_at task;
     completed_at := completed_at task;
     current_step := current_step task;
     checkpoints := checkpoints task;
     state_data := state_data task;
     result := result task;
     error := error task;
     max_retries := max_retries task;
     retry_count := retry_count task |}.

Definition set_priority (x : TaskPriority) (task : AutonomyTask) : AutonomyTask :=
  {| task_id := task_id task;
     name := name task;
     description := description task;
     steps := steps task;
     status := status task;
     priority := x;
     created_at := created_at task;
     started_at := started_at task;
     completed_at := completed_at task;
     current_step := current_step task;
     checkpoints := checkpoints task;
     state_data := state_data task;
     result := result task;
     error := error task;
     max_retries := max_retries task;
     retry_count := retry_count task |}.

Definition set_started_at (x : option Z) (task : AutonomyTask) : AutonomyTask :=
  {| task_id := task_id task;
     name := name task;
     description := description task;
     steps := steps task;
     status := status task;
     priority := priority task;
     created_at := created_at task;
     started_at := x;
     completed_at := completed_at task;
     current_step := current_step task;
     checkpoints := checkpoints task;
     state_data := state_data task;
     result := result task;
     error := error task;
     max_retries := max_retries task;
     retry_count := retry_count task |}.

Definition set_completed_at (x : option Z) (task : AutonomyTask) : AutonomyTask :=
  {| task_id := task_id task;
     name := name task;
     description := description task;
     steps := steps task;
     status := status task;
     priority := priority task;
     created_at := created_at task;
     started_at := started_at task;
     completed_at := x;
     current_step := current_step task;
     checkpoints := checkpoints task;
     state_data := state_data task;
     result := result task;
     error := error task;
     max_retries := max_retries task;
     retry_count := retry_count task |}.

Definition set_current_step (x : nat) (task : AutonomyTask) : AutonomyTask :=
  {| task_id := task_id task;
     name := name task;
     description := description task;
     steps := steps task;
     status := status task;
     priority := priority task;
     created_at := created_at task;
     started_at := started_at task;
     completed_at := completed_at task;
     current_step := x;
     checkpoints := checkpoints task;
     state_data := state_data task;
     result := result task;
     error := error task;
     max_retries := max_retries task;
     retry_count := retry_count task |}.

Definition set_checkpoints (x : list TaskCheckpoint) (task : AutonomyTask) : AutonomyTask :=
  {| task_id := task_id task;
     name := name task;
     description := description task;
     steps := steps task;
     status := status task;
     priority := priority task;
     created_at := created_at task;
     started_at := started_at task;
     completed_at := completed_at task;
     current_step := current_step task;
     checkpoints := x;
     state_data := state_data task;
     result := result task;
     error := error task;
     max_retries := max_retries task;
     retry_count := retry_count task |}.

Definition set_state_data (x : gmap string value) (task : AutonomyTask) : AutonomyTask :=
  {| task_id := task_id task;
     name := name task;
     description := description task;
     steps := steps task;
     status := status task;
     priority := priority task;
     created_at := created_at task;
     started_at := started_at task;
     completed_at := completed_at task;
     current_step := current_step task;
     checkpoints := checkpoints task;
     state_data := x;
     result := result task;
     error := error task;
     max_retries := max_retries task;
     retry_count := retry_count task |}.

Definition set_result (x : value) (task : AutonomyTask) : AutonomyTask :=
  {| task_id := task_id task;
     name := name task;
     description := description task;
     steps := steps task;
     status := status task;
     priority := priority task;
     created_at := created_at task;
     started_at := started_at task;
     completed_at := completed_at task;
     current_step := current_step task;
     checkpoints := checkpoints task;
     state_data := state_data task;
     result := x;
     error := error task;
     max_retries := max_retries task;
     retry_count := retry_count task |}.

Definition set_error (x : option string) (task : AutonomyTask) : AutonomyTask :=
  {| task_id := task_id task;
     name := name task;
     description := description task;
     steps := steps task;
     status := status task;
     priority := priority task;
     created_at := created_at task;
     started_at := started_at task;
     completed_at := completed_at task;
     current_step := current_step task;
     checkpoints := checkpoints task;
     state_data := state_data task;
     result := result task;
     error := x;
     max_retries := max_retries task;
     retry_count := retry_count task |}.

Definition set_retry_count (x : nat) (task : AutonomyTask) : AutonomyTask :=
  {| task_id := task_id task;
     name := name task;
     description := description task;
     steps := steps task;
     status := status task;
     priority := priority task;
     created_at := created_at task;
     started_at := started_at task;
     completed_at := completed_at task;
     current_step := current_step task;
     checkpoints := checkpoints task;
     state_data := state_data task;
     result := result task;
     error := error task;
     max_retries := max_retries task;
     retry_count := x |}.

Definition with_tasks (x : gmap string AutonomyTask) (self : RalphWiggumEngine) : RalphWiggumEngine :=
  {| tasks := x;
     active_tasks := active_tasks self;
     checkpoint_interval := checkpoint_interval self;
     objects := objects self;
     Task_Queues := Task_Queues self;
     Checkpoints := Checkpoints self;
     wall_clock := wall_clock self;
     clock_reads := clock_reads self;
     uuid_source := uuid_source self;
     uuid_draws := uuid_draws self;
     trace := trace self |}.

Definition with_active_tasks (x : list string) (self : RalphWiggumEngine) : RalphWiggumEngine :=
  {| tasks := tasks self;
     active_tasks := x;
     checkpoint_interval := checkpoint_interval self;
     objects := objects self;
     Task_Queues := Task_Queues self;
     Checkpoints := Checkpoints self;
     wall_clock := wall_clock self;
     clock_reads := clock_reads self;
     uuid_source := uuid_source self;
     uuid_draws := uuid_draws self;
     trace := trace self |}.

Definition with_checkpoint_interval (x : nat) (self : RalphWiggumEngine) : RalphWiggumEngine :=
  {| tasks := tasks self;
     active_tasks := active_tasks self;
     checkpoint_interval := x;
     objects := objects self;
     Task_Queues := Task_Queues self;
     Checkpoints := Checkpoints self;
     wall_clock := wall_clock self;
     clock_reads := clock_reads self;
     uuid_source := uuid_source self;
     uuid_draws := uuid_draws self;
     trace := trace self |}.

Definition with_objects (x : heap) (self : RalphWiggumEngine) : RalphWiggumEngine :=
  {| tasks := tasks self;
     active_tasks := active_tasks self;
     checkpoint_interval := checkpoint_interval self;
     objects := x;
     Task_Queues := Task_Queues self;
     Checkpoints := Checkpoints self;
     wall_clock := wall_clock self;
     clock_reads := clock_reads self;
     uuid_source := uuid_source self;
     uuid_draws := uuid_draws self;
     trace := trace self |}.

Definition with_Task_Queues (x : gmap string task_json) (self : RalphWiggumEngine) : RalphWiggumEngine :=
  {| tasks := tasks self;
     active_tasks := active_tasks self;
     checkpoint_interval := checkpoint_interval self;
     objects := objects self;
     Task_Queues := x;
     Checkpoints := Checkpoints self;
     wall_clock := wall_clock self;
     clock_reads := clock_reads self;
     uuid_source := uuid_source self;
     uuid_draws := uuid_draws self;
     trace := trace self |}.

Definition with_Checkpoints (x : list checkpoint_json) (self : RalphWiggumEngine) : RalphWiggumEngine :=
  {| tasks := tasks self;
     active_tasks := active_tasks self;
     checkpoint_interval := checkpoint_interval self;
     objects := objects self;
     Task_Queues := Task_Queues self;
     Checkpoints := x;
     wall_clock := wall_clock self;
     clock_reads := clock_reads self;
     uuid_source := uuid_source self;
     uuid_draws := uuid_draws self;
     trace := trace self |}.

Definition with_clock_reads (x : nat) (self : RalphWiggumEngine) : RalphWiggumEngine :=
  {| tasks := tasks self;
     active_tasks := active_tasks self;
     checkpoint_interval := checkpoint_interval self;
     objects := objects self;
     Task_Queues := Task_Queues self;
     Checkpoints := Checkpoints self;
     wall_clock := wall_clock self;
     clock_reads := x;
     uuid_source := uuid_source self;
     uuid_draws := uuid_draws self;
     trace := trace self |}.

Definition with_uuid_draws (x : nat) (self : RalphWiggumEngine) : RalphWiggumEngine :=
  {| tasks := tasks self;
     active_tasks := active_tasks self;
     checkpoint_interval := checkpoint_interval self;
     objects := objects self;
     Task_Queues := Task_Queues self;
     Checkpoints := Checkpoints self;
     wall_clock := wall_clock self;
     clock_reads := clock_reads self;
     uuid_source := uuid_source self;
     uuid_draws := x;
     trace := trace self |}.

Definition with_trace (x : list event) (self : RalphWiggumEngine) : RalphWiggumEngine :=
  {| tasks := tasks self;
     active_tasks := active_tasks self;
     checkpoint_interval := checkpoint_interval self;
     objects := objects self;
     Task_Queues := Task_Queues self;
     Checkpoints := Checkpoints self;
     wall_clock := wall_clock self;
     clock_reads := clock_reads self;
     uuid_source := uuid_source self;
     uuid_draws := uuid_draws self;
     trace := x |}.

(** [RalphWiggumEngine.__init__]: empty registry, interval 5, empty
    directories. *)
Definition new_engine (clock : nat -> Z) (uuids : nat -> string)
  : RalphWiggumEngine :=
  {| tasks := ∅;
     active_tasks := [];
     checkpoint_interval := 5;
     objects := [];
     Task_Queues := ∅;
     Checkpoints := [];
     wall_clock := clock;
     clock_reads := 0;
     uuid_source := uuids;
     uuid_draws := 0;
     trace := [] |}.

(** [datetime.now()] *)
Definition datetime_now (self : RalphWiggumEngine) : Z :=
  wall_clock self (clock_reads self).

Definition tick (self : RalphWiggumEngine) : RalphWiggumEngine :=
  with_clock_reads (S (clock_reads self)) self.

(** [str(uuid.uuid4())] *)
Definition uuid4 (self : RalphWiggumEngine) : string :=
  uuid_source self (uuid_draws self).

Definition draw (self : RalphWiggumEngine) : RalphWiggumEngine :=
  with_uuid_draws (S (uuid_draws self)) self.

(** In-place update of the task object registered under [task_id]. *)
Definition modify_task (task_id : string) (f : AutonomyTask -> AutonomyTask)
    (self : RalphWiggumEngine) : RalphWiggumEngine :=
  with_tasks (alter f task_id (tasks self)) self.

Definition log (ev : event) (self : RalphWiggumEngine) : RalphWiggumEngine :=
  with_trace (trace self ++ [ev]) self.

(** [list.remove(x)] guarded by [x in list]: drops the first occurrence. *)
Fixpoint remove_first (x : string) (l : list string) : list string :=
  match l with
  | [] => []
  | y :: l' => if decide (x = y) then l' else y :: remove_first x l'
  end.

(** [to_dict]: every attribute except the step functions. *)
Definition to_dict (task : AutonomyTask) : AutonomyTask := set_steps [] task.

(** [_save_task] *)
Definition _save_task (task_id : string) (self : RalphWiggumEngine)
  : RalphWiggumEngine :=
  match tasks self !! task_id with
  | None => self
  | Some task =>
    with_Task_Queues
      (<[task_id := {| json_task := to_dict task;
                       json_task_objects := objects self |}]>
         (Task_Queues self)) self
  end.

(** [TaskCheckpoint.from_dict] on what [to_dict] dumped in the store
    [src]. *)
Definition checkpoint_from_dict (src : heap) (c : TaskCheckpoint) (h : heap)
  : TaskCheckpoint * heap :=
  let '(d, h) := reload_dict src (data c) h in
  ({| checkpoint_id := checkpoint_id c;
      ckpt_task_id := ckpt_task_id c;
      step := step c;
      data := d;
      timestamp := timestamp c |}, h).

Definition checkpoints_from_dict (src : heap)
  : list TaskCheckpoint -> heap -> list TaskCheckpoint * heap :=
  load_all (checkpoint_from_dict src).

(** [AutonomyTask.from_dict] on the dump [d] made in the store [src]: the
    fields as they were written, no steps, and the checkpoints, the state
    and the result rebuilt from the text. *)
Definition from_dict (src : heap) (d : AutonomyTask) (h : heap)
  : AutonomyTask * heap :=
  let '(cs, h) := checkpoints_from_dict src (checkpoints d) h in
  let '(st, h) := reload_dict src (state_data d) h in
  let '(r, h) := reload src (result d) h in
  (set_steps [] (set_result r (set_state_data st (set_checkpoints cs d))), h).

(** [_load_task] *)
Definition _load_task (task_id : string) (self : RalphWiggumEngine)
  : option (AutonomyTask * RalphWiggumEngine) :=
  match Task_Queues self !! task_id with
  | Some file =>
    let '(task, h) :=
      from_dict (json_task_objects file) (json_task file) (objects self) in
    Some (task, with_objects h self)
  | None => None
  end.

(** [create_task] *)
Definition create_task (name : string) (steps : list step_func)
    (description : string) (priority : TaskPriority)
    (self : RalphWiggumEngine) : string * RalphWiggumEngine :=
  let task_id := uuid4 self in
  let self := draw self in
  let task := new_task task_id name steps description (datetime_now self) in
  let self := tick self in
  let task := set_priority priority task in
  let self := with_tasks (<[task_id := task]> (tasks self)) self in
  (task_id, _save_task task_id self).

(** [open(name, 'w')] in the checkpoint directory: a file of that name is
    replaced, a new name is added. *)
Fixpoint write_file (file : checkpoint_json) (dir : list checkpoint_json)
  : list checkpoint_json :=
  match dir with
  | [] => [file]
  | f :: dir' =>
    if decide (json_file_name f = json_file_name file) then file :: dir'
    else f :: write_file file dir'
  end.

(** [_save_checkpoint] *)
Definition _save_checkpoint (task_id : string) (self : RalphWiggumEngine)
  : RalphWiggumEngine :=
  match tasks self !! task_id with
  | None => self
  | Some task =>
    let checkpoint :=
      {| checkpoint_id := uuid4 self;
         ckpt_task_id := task_id;
         step := current_step task;
         data := state_data task;          (* task.state_data.copy() *)
         timestamp := datetime_now self |} in
    let self := tick (draw self) in
    let self :=
      modify_task task_id
        (fun t => set_checkpoints (checkpoints t ++ [checkpoint]) t) self in
    with_Checkpoints
      (write_file
         {| json_file_name :=
              task_id +:+ "_checkpoint_" +:+ checkpoint_id checkpoint
                +:+ ".json";
            json_checkpoint := checkpoint;
            json_checkpoint_objects := objects self |}
         (Checkpoints self)) self
  end.

(** [max(task.checkpoints, key=lambda c: c.timestamp)]: the first of the
    entries with the greatest key. *)
Fixpoint max_by_timestamp (best : TaskCheckpoint) (l : list TaskCheckpoint)
  : TaskCheckpoint :=
  match l with
  | [] => best
  | c :: l' =>
    max_by_timestamp (if timestamp best <? timestamp c then c else best) l'
  end.

Definition latest_checkpoint (l : list TaskCheckpoint) : option TaskCheckpoint :=
  match l with
  | [] => None
  | c :: l' => Some (max_by_timestamp c l')
  end.

(** [_restore_from_checkpoint] *)
Definition _restore_from_checkpoint (task_id : string)
    (self : RalphWiggumEngine) : bool * RalphWiggumEngine :=
  match tasks self !! task_id with
  | None => (false, self)
  | Some task =>
    match latest_checkpoint (checkpoints task) with
    | None => (false, self)
    | Some latest =>
      (true,
       modify_task task_id
         (fun t =>
            set_status CHECKPOINTED
              (set_state_data (data latest)   (* latest_checkpoint.data.copy() *)
                 (set_current_step (step latest) t))) self)
    end
  end.

(** [_execute_step] *)
Definition _execute_step (task : AutonomyTask) (step_func : step_func)
    (step_index : nat) (h : heap) : invocation :=
  match step_func with
  | StepWithContext _ f =>
    f {| ctx_task_id := task_id task;
         ctx_step_index := step_index;
         ctx_total_steps := length (steps task);
         ctx_state := state_data task |} h
  | StepNoParams _ f =>
    let '(h', o) := f h in
    {| inv_state := state_data task; inv_heap := h'; inv_outcome := o |}
  end.

(** [suspend_task] *)
Definition suspend_task (task_id : string) (self : RalphWiggumEngine)
  : bool * RalphWiggumEngine :=
  match tasks self !! task_id with
  | None => (false, self)
  | Some task =>
    if decide (status task = IN_PROGRESS) then
      let self := modify_task task_id (set_status SUSPENDED) self in
      let self := _save_checkpoint task_id self in
      let self := _save_task task_id self in
      let self := with_active_tasks (remove_first task_id (active_tasks self)) self in
      (true, self)
    else (false, self)
  end.

(** While a coroutine step is suspended at an [await], the event loop runs
    other coroutines; those may call the synchronous [suspend_task].
    [waiting] lists the task ids they pass, in the order of the calls. *)
Fixpoint other_coroutines (waiting : list string) (self : RalphWiggumEngine)
  : RalphWiggumEngine :=
  match waiting with
  | [] => self
  | id :: waiting' =>
    let '(ok, self) := suspend_task id self in
    other_coroutines waiting' (log (Suspend id ok) self)
  end.

(** The key [f"step_{task.current_step}_result"]. *)
Definition step_key (i : nat) : string := "step_" +:+ pretty i +:+ "_result".

(** [str] of the [ZeroDivisionError] raised by [% 0]. *)
Definition zero_division_message : string := "integer modulo by zero".

Inductive iteration_exit :=
  | Continue
  | ReturnFalse
  | KeyboardInterrupt.

(** The [except Exception as e] clause inside the loop. *)
Definition on_step_exception (msg : string) (task_id : string)
    (self : RalphWiggumEngine) : RalphWiggumEngine * iteration_exit :=
  let self := modify_task task_id (set_error (Some msg)) self in
  match tasks self !! task_id with
  | None => (self, ReturnFalse)
  | Some task =>
    if decide (retry_count task < max_retries task)%nat then
      (modify_task task_id (set_retry_count (retry_count task + 1)) self,
       Continue)
    else
      (_save_task task_id (modify_task task_id (set_status FAILED) self),
       ReturnFalse)
  end.

(** One pass through the body of the [while] loop, for the task object
    [task] registered under [task_id] and its current step function. *)
Definition iteration (waiting : list string) (task_id : string)
    (task : AutonomyTask) (step_func : step_func)
    (self : RalphWiggumEngine) : RalphWiggumEngine * iteration_exit :=
  let i := current_step task in
  let inv := _execute_step task step_func i (objects self) in
  let self := with_objects (inv_heap inv) self in
  let self := modify_task task_id (set_state_data (inv_state inv)) self in
  let self := log (Invoke task_id i (status task) (inv_outcome inv)) self in
  let self :=
    if iscoroutinefunction step_func then other_coroutines waiting self
    else self in
  match inv_outcome inv with
  | Returned r =>
    let self :=
      modify_task task_id
        (fun t => set_state_data (<[step_key i := r]> (state_data t)) t)
        self in
    if decide (checkpoint_interval self = 0%nat) then
      on_step_exception zero_division_message task_id self
    else
      let self :=
        if decide (((i + 1) mod checkpoint_interval self)%nat = 0%nat)
        then _save_checkpoint task_id self else self in
      (modify_task task_id (fun t => set_current_step (current_step t + 1) t)
         self,
       Continue)
  | Raised msg => on_step_exception msg task_id self
  | Interrupted => (self, KeyboardInterrupt)
  end.

Inductive loop_exit :=
  | LoopEnd
  | LoopReturnFalse
  | LoopKeyboardInterrupt
  | LoopFuel.

(** [while task.current_step < len(task.steps)].  [sched] gives, for the
    successive step calls, the [suspend_task] calls other coroutines make
    while that call is awaited. *)
Fixpoint while_loop (fuel : nat) (sched : list (list string))
    (task_id : string) (self : RalphWiggumEngine)
  : RalphWiggumEngine * loop_exit :=
  match tasks self !! task_id with
  | None => (self, LoopEnd)
  | Some task =>
    match steps task !! current_step task with
    | None => (self, LoopEnd)
    | Some step_func =>
      match fuel with
      | O => (self, LoopFuel)
      | S fuel' =>
        match iteration (hd [] sched) task_id task step_func self with
        | (self, Continue) => while_loop fuel' (tl sched) task_id self
        | (self, ReturnFalse) => (self, LoopReturnFalse)
        | (self, KeyboardInterrupt) => (self, LoopKeyboardInterrupt)
        end
      end
    end
  end.

(** Every pass either advances [current_step] or uses up a retry, so the
    loop runs at most this many times. *)
Definition loop_bound (task : AutonomyTask) : nat :=
  S ((length (steps task) - current_step task)
     + (max_retries task - retry_count task)).

(** The statements after the loop: the task completed. *)
Definition complete_task (task_id : string) (self : RalphWiggumEngine)
  : RalphWiggumEngine :=
  let now := datetime_now self in
  let self := tick self in
  let self :=
    modify_task task_id
      (fun t =>
         set_result
           (default (VStr "Task completed successfully")
              (state_data t !! "final_result"))
           (set_completed_at (Some now) (set_status COMPLETED t))) self in
  let self := with_active_tasks (remove_first task_id (active_tasks self)) self in
  _save_task task_id self.

(** The [except KeyboardInterrupt] clause. *)
Definition on_keyboard_interrupt (task_id : string) (self : RalphWiggumEngine)
  : RalphWiggumEngine :=
  let self := modify_task task_id (set_status INTERRUPTED) self in
  let self := _save_checkpoint task_id self in
  _save_task task_id self.

(** [execute_task] once the task object is in the registry. *)
Definition execute_registered (sched : list (list string)) (task_id : string)
    (task : AutonomyTask) (self : RalphWiggumEngine)
  : bool * RalphWiggumEngine :=
  if decide (status task = COMPLETED ∨ status task = FAILED) then
    (bool_decide (status task = COMPLETED), self)
  else
    let self :=
      if decide (status task = PENDING) then
        let now := datetime_now self in
        let self := tick self in
        let self :=
          modify_task task_id
            (fun t => set_started_at (Some now) (set_status IN_PROGRESS t))
            self in
        with_active_tasks (active_tasks self ++ [task_id]) self
      else self in
    match while_loop (loop_bound task) sched task_id self with
    | (self, LoopEnd) => (true, complete_task task_id self)
    | (self, LoopReturnFalse) => (false, self)
    | (self, LoopKeyboardInterrupt) => (false, on_keyboard_interrupt task_id self)
    | (self, LoopFuel) => (false, self)
    end.

(** [execute_task] *)
Definition execute_task (sched : list (list string)) (task_id : string)
    (self : RalphWiggumEngine) : bool * RalphWiggumEngine :=
  match tasks self !! task_id with
  | Some task => execute_registered sched task_id task self
  | None =>
    match _load_task task_id self with
    | None => (false, self)
    | Some (task, self) =>
      let self := with_tasks (<[task_id := task]> (tasks self)) self in
      execute_registered sched task_id task self
    end
  end.

(** [resume_task] once the task object is in the registry. *)
Definition resume_registered (sched : list (list string)) (task_id : string)
    (task : AutonomyTask) (self : RalphWiggumEngine)
  : bool * RalphWiggumEngine :=
  if decide (status task = INTERRUPTED ∨ status task = SUSPENDED) then
    match _restore_from_checkpoint task_id self with
    | (true, self) =>
      execute_task sched task_id
        (modify_task task_id (set_status IN_PROGRESS) self)
    | (false, self) =>
      execute_task sched task_id
        (modify_task task_id
           (fun t => set_status IN_PROGRESS (set_current_step 0 t)) self)
    end
  else (false, self).

(** [resume_task] *)
Definition resume_task (sched : list (list string)) (task_id : string)
    (self : RalphWiggumEngine) : bool * RalphWiggumEngine :=
  match tasks self !! task_id with
  | Some task => resume_registered sched task_id task self
  | None =>
    match _load_task task_id self with
    | None => (false, self)
    | Some (task, self) =>
      let self := with_tasks (<[task_id := task]> (tasks self)) self in
      resume_registered sched task_id task self
    end
  end.

(** One day, in microseconds. *)
Definition day : Z := 86400000000.

(** [datetime.min] and [datetime.max]: the first microsecond of year 1 and
    the last one of year 9999. *)
Definition datetime_min : Z := -62135596800000000.
Definition datetime_max : Z := 253402300799999999.

(** [timedelta(days=days_old)], in microseconds; [None] stands for the
    [OverflowError] raised when the magnitude exceeds 999999999 days. *)
Definition timedelta_days (days_old : Z) : option Z :=
  if decide (-999999999 <= days_old <= 999999999) then Some (days_old * day)
  else None.

(** [t - delta] for a datetime [t]; [None] stands for the [OverflowError]
    raised when the result is not a date of the years 1 to 9999. *)
Definition datetime_sub (t delta : Z) : option Z :=
  if decide (datetime_min <= t - delta <= datetime_max) then Some (t - delta)
  else None.

(** The condition under which [cleanup_completed_tasks] selects a task. *)
Definition expired (cutoff_date : Z) (task : AutonomyTask) : bool :=
  bool_decide (status task = COMPLETED) &&
  match completed_at task with
  | Some t => bool_decide (t < cutoff_date)
  | None => false
  end.

(** The list [to_remove] built by the first loop. *)
Definition to_remove (cutoff_date : Z) (self : RalphWiggumEngine) : list string :=
  (filter (fun kv => expired cutoff_date kv.2 = true)
     (map_to_list (tasks self))).*1.

(** The body of the second loop. *)
Definition remove_task (task_id : string) (self : RalphWiggumEngine)
  : RalphWiggumEngine :=
  with_Task_Queues (delete task_id (Task_Queues self))
    (with_tasks (delete task_id (tasks self)) self).

(** How a call of [cleanup_completed_tasks] ends: the function has no
    [return] statement, and the first line can raise. *)
Inductive cleanup_outcome :=
  | ReturnsNone
  | RaisesOverflowError.

(** [cutoff_date = datetime.now() - timedelta(days=days_old)]: the clock is
    read first. *)
Definition cutoff_date (days_old : Z) (self : RalphWiggumEngine) : option Z :=
  match timedelta_days days_old with
  | Some delta => datetime_sub (datetime_now self) delta
  | None => None
  end.

(** [cleanup_completed_tasks] *)
Definition cleanup_completed_tasks (days_old : Z) (self : RalphWiggumEngine)
  : cleanup_outcome * RalphWiggumEngine :=
  match cutoff_date days_old self with
  | None => (RaisesOverflowError, tick self)
  | Some cutoff_date =>
    let self := tick self in
    (ReturnsNone, foldr remove_task self (to_remove cutoff_date self))
  end.

(** ** Callers

    The operations a caller can issue against one storage directory.
    [Reopen] is a new process constructing a fresh engine over the existing
    directories; [SetCheckpointInterval] is the assignment
    [engine.checkpoint_interval = K]. *)

Definition reopen (self : RalphWiggumEngine) : RalphWiggumEngine :=
  {| tasks := ∅;
     active_tasks := [];
     checkpoint_interval := 5;
     objects := [];
     Task_Queues := Task_Queues self;
     Checkpoints := Checkpoints self;
     wall_clock := wall_clock self;
     clock_reads := clock_reads self;
     uuid_source := uuid_source self;
     uuid_draws := uuid_draws self;
     trace := trace self |}.

Inductive engine_call :=
  | CreateTask (name : string) (steps : list step_func) (description : string)
      (priority : TaskPriority)
  | ExecuteTask (sched : list (list string)) (task_id : string)
  | ResumeTask (sched : list (list string)) (task_id : string)
  | SuspendTask (task_id : string)
  | CleanupCompletedTasks (days_old : Z)
  | SetCheckpointInterval (K : nat)
  | Reopen.

Definition run_call (self : RalphWiggumEngine) (c : engine_call)
  : RalphWiggumEngine :=
  match c with
  | CreateTask name steps description priority =>
    (create_task name steps description priority self).2
  | ExecuteTask sched task_id => (execute_task sched task_id self).2
  | ResumeTask sched task_id => (resume_task sched task_id self).2
  | SuspendTask task_id => (suspend_task task_id self).2
  | CleanupCompletedTasks days_old => (cleanup_completed_tasks days_old self).2
  | SetCheckpointInterval K => with_checkpoint_interval K self
  | Reopen => reopen self
  end.

Definition run_calls (self : RalphWiggumEngine) (calls : list engine_call)
  : RalphWiggumEngine := foldl run_call self calls.

(** The call creates a task under the id [task_id]. *)
Definition creates (c : engine_call) (self : RalphWiggumEngine)
    (task_id : string) : Prop :=
  match c with
  | CreateTask _ _ _ _ => uuid4 self = task_id
  | _ => False
  end.

(** ** Vocabulary of the properties *)

(** The step indices at which the step functions of a task were called. *)
Definition invocations (task_id : string) (tr : list event) : list nat :=
  omap (fun ev =>
          match ev with
          | Invoke id i _ _ => if decide (id = task_id) then Some i else None
          | Suspend _ _ => None
          end) tr.

(** The messages of the calls that raised. *)
Definition failure_messages (task_id : string) (tr : list event) : list string :=
  omap (fun ev =>
          match ev with
          | Invoke id _ _ (Raised msg) =>
            if decide (id = task_id) then Some msg else None
          | _ => None
          end) tr.

Definition always_fails (f : step_func) : Prop :=
  ∀ task i h, ∃ msg, inv_outcome (_execute_step task f i h) = Raised msg.

Definition strictly_increasing (l : list nat) : Prop :=
  ∀ i j a b, (i < j)%nat → l !! i = Some a → l !! j = Some b → (a < b)%nat.

Definition non_decreasing (l : list nat) : Prop :=
  ∀ i j a b, (i < j)%nat → l !! i = Some a → l !! j = Some b → (a ≤ b)%nat.

(** Successive readings of the clock differ and grow. *)
Definition clock_advances (clock : nat → Z) : Prop :=
  ∀ n m, (n < m)%nat → clock n < clock m.

(** What a checkpoint's snapshot reads as, to depth 8: in the file as it
    was written, and in memory in the current object store. *)
Definition snapshot_written (file : checkpoint_json) : gmap string tree :=
  deep_dict 8 (json_checkpoint_objects file) (data (json_checkpoint file)).

Definition snapshot_in_memory (self : RalphWiggumEngine) (c : TaskCheckpoint)
  : gmap string tree := deep_dict 8 (objects self) (data c).

(** ** The example steps of the source

    [example_step_1], [example_step_2] and [example_step_3] are coroutine
    functions taking the context; each does its work on [context['state']],
    awaits [asyncio.sleep(1)] and returns a string. *)

(** [v[key]] for a string key: the value, or the [str] of the exception. *)
Definition subscript (h : heap) (v : value) (key : string) : value + string :=
  match v with
  | VRef l =>
    match h !! l with
    | Some (ODict d) =>
      match d !! key with
      | Some x => inl x
      | None => inr ("'" +:+ key +:+ "'")          (* KeyError *)
      end
    | Some (OList _) => inr "list indices must be integers or slices, not str"
    | None => inr "dangling reference"
    end
  | VStr _ => inr "string indices must be integers, not 'str'"
  | VNone => inr "'NoneType' object is not subscriptable"
  | VBool _ => inr "'bool' object is not subscriptable"
  | VInt _ => inr "'int' object is not subscriptable"
  end.

(** [context['state'][key]] *)
Definition state_item (st : gmap string value) (key : string) : value + string :=
  match st !! key with
  | Some x => inl x
  | None => inr ("'" +:+ key +:+ "'")
  end.

(** The integer a value stands for in [x + 1] and in an f-string. *)
Definition as_int (v : value) : option Z :=
  match v with
  | VInt z => Some z
  | VBool b => Some (if b then 1 else 0)
  | _ => None
  end.

Definition example_step_1 : step_func :=
  StepWithContext true (fun context h =>
    let st := <["initialized" := VBool true]> (ctx_state context) in
    let '(h, items) := alloc (OList []) h in
    let '(h, d) :=
      alloc (ODict (<["counter" := VInt 0]> (<["items" := VRef items]> ∅))) h in
    let st := <["data" := VRef d]> st in
    {| inv_state := st;
       inv_heap := h;
       inv_outcome := Returned (VStr "Initialized successfully") |}).

(** [type(v).__name__] *)
Definition type_name (h : heap) (v : value) : string :=
  match v with
  | VNone => "NoneType"
  | VBool _ => "bool"
  | VInt _ => "int"
  | VStr _ => "str"
  | VRef l =>
    match h !! l with
    | Some (OList _) => "list"
    | _ => "dict"
    end
  end.

Definition double_quote : string :=
  String (Ascii.ascii_of_nat 34) EmptyString.

(** The [str] of the [TypeError] raised by [v += 1] when [v] is not a
    number. *)
Definition iadd_int_error (h : heap) (v : value) : string :=
  match type_name h v with
  | "str" =>
    "can only concatenate str (not " +:+ double_quote +:+ "int"
      +:+ double_quote +:+ ") to str"
  | "list" => "'int' object is not iterable"
  | ty => "unsupported operand type(s) for +=: '" +:+ ty +:+ "' and 'int'"
  end.

(** [v[key] = x] for a dict [v]. *)
Definition setitem (h : heap) (v : value) (key : string) (x : value) : heap :=
  match v with
  | VRef l =>
    match h !! l with
    | Some (ODict d) => <[l := ODict (<[key := x]> d)]> h
    | _ => h
    end
  | _ => h
  end.

Definition example_step_2 : step_func :=
  StepWithContext true (fun context h =>
    let st := ctx_state context in
    let stop h msg :=
      {| inv_state := st; inv_heap := h; inv_outcome := Raised msg |} in
    match state_item st "data" with
    | inr msg => stop h msg
    | inl dv =>
      match subscript h dv "counter" with
      | inr msg => stop h msg
      | inl c =>
        match as_int c with
        | None => stop h (iadd_int_error h c)
        | Some n =>
          (* context['state']['data']['counter'] += 1 *)
          let h := setitem h dv "counter" (VInt (n + 1)) in
          (* context['state']['data']['items'].append(f"Item {...}") *)
          match subscript h dv "items" with
          | inr msg => stop h msg
          | inl items =>
            match items with
            | VRef li =>
              match h !! li with
              | Some (OList xs) =>
                let h :=
                  <[li := OList (xs ++ [VStr ("Item " +:+ pretty (n + 1))])]> h in
                {| inv_state := st;
                   inv_heap := h;
                   inv_outcome :=
                     Returned (VStr ("Processed item " +:+ pretty (n + 1))) |}
              | _ =>
                stop h ("'" +:+ type_name h items
                          +:+ "' object has no attribute 'append'")
              end
            | _ =>
              stop h ("'" +:+ type_name h items
                        +:+ "' object has no attribute 'append'")
            end
          end
        end
      end
    end).

(** [len(x)] *)
Definition len (h : heap) (v : value) : nat + string :=
  match v with
  | VRef l =>
    match h !! l with
    | Some (OList xs) => inl (length xs)
    | Some (ODict d) => inl (size d)
    | None => inr "dangling reference"
    end
  | VStr s => inl (String.length s)
  | VNone => inr "object of type 'NoneType' has no len()"
  | VBool _ => inr "object of type 'bool' has no len()"
  | VInt _ => inr "object of type 'int' has no len()"
  end.

Definition example_step_3 : step_func :=
  StepWithContext true (fun context h =>
    let st := ctx_state context in
    let stop msg :=
      {| inv_state := st; inv_heap := h; inv_outcome := Raised msg |} in
    match state_item st "data" with
    | inr msg => stop msg
    | inl dv =>
      match subscript h dv "items" with
      | inr msg => stop msg
      | inl items =>
        match len h items with
        | inr msg => stop msg
        | inl n =>
          let final :=
            VStr ("Completed with " +:+ pretty n +:+ " items processed") in
          {| inv_state := <["final_result" := final]> st;
             inv_heap := h;
             inv_outcome := Returned final |}
        end
      end
    end).

(** ** Concrete environments and scenarios *)

(** A wall clock that advances by one microsecond per reading. *)
Definition steady_clock (n : nat) : Z := 1700000000000000 + Z.of_nat n.

Definition numbered_uuid (n : nat) : string := "uuid-" +:+ pretty n.

(** The scenario of [test_ralph_wiggum_engine], with a chosen checkpoint
    interval: create the three-step example task and execute it. *)
Definition example_engine (K : nat) : RalphWiggumEngine :=
  with_checkpoint_interval K (new_engine steady_clock numbered_uuid).

Definition example_run (K : nat) : bool * RalphWiggumEngine :=
  let '(task_id, self) :=
    create_task "Example Multi-Step Task"
      [example_step_1; example_step_2; example_step_3]
      "This is an example of a multi-step task" NORMAL (example_engine K) in
  execute_task [] task_id self.

(** The example task with [suspend_task] called by another coroutine while
    the first step is awaited. *)
Definition suspended_mid_run : bool * RalphWiggumEngine :=
  let '(task_id, self) :=
    create_task "Example Multi-Step Task"
      [example_step_1; example_step_2; example_step_3]
      "This is an example of a multi-step task" NORMAL (example_engine 5) in
  execute_task [[task_id]] task_id self.

(** A step cut short by Ctrl-C on every call. *)
Definition interrupted_step : step_func :=
  StepNoParams false (fun h => (h, Interrupted)).

(** A one-step task interrupted, resumed, and interrupted again. *)
Definition interrupted_twice : bool * RalphWiggumEngine :=
  let '(task_id, self) :=
    create_task "interrupted" [interrupted_step] "" NORMAL (example_engine 5) in
  let '(_, self) := execute_task [] task_id self in
  resume_task [] task_id self.

(** A naive local wall clock at the end of daylight saving time: after the
    third reading the clock is set back by one hour. *)
Definition autumn_clock (n : nat) : Z :=
  if (n <? 3)%nat then 1700003600000000 + Z.of_nat n
  else 1700000000000000 + Z.of_nat n.

(** A two-step task, checkpointed after every step, interrupted in its
    second step after the clock was set back. *)
Definition interrupted_after_clock_change : bool * RalphWiggumEngine :=
  let '(task_id, self) :=
    create_task "two steps" [example_step_1; interrupted_step] "" NORMAL
      (with_checkpoint_interval 1 (new_engine autumn_clock numbered_uuid)) in
  execute_task [] task_id self.

(** A synchronous step that fails on its first call and succeeds afterwards:
<<
    def flaky(context):
        if 'attempted' not in context['state']:
            context['state']['attempted'] = True
            raise RuntimeError("transient failure")
        return "ok"
>> *)
Definition flaky_step : step_func :=
  StepWithContext false (fun context h =>
    match ctx_state context !! "attempted" with
    | None =>
      {| inv_state := <["attempted" := VBool true]> (ctx_state context);
         inv_heap := h;
         inv_outcome := Raised "transient failure" |}
    | Some _ =>
      {| inv_state := ctx_state context;
         inv_heap := h;
         inv_outcome := Returned (VStr "ok") |}
    end).

Definition flaky_run : bool * RalphWiggumEngine :=
  let '(task_id, self) :=
    create_task "flaky" [flaky_step] "" NORMAL (example_engine 5) in
  execute_task [] task_id self.

(** A step that raises on every call. *)
Definition failing_step : step_func :=
  StepNoParams false (fun h => (h, Raised "boom")).

Definition failing_engine : string * RalphWiggumEngine :=
  create_task "failing" [failing_step] "" NORMAL (example_engine 5).

(** A task whose first step succeeds and whose second step fails once. *)
Definition mixed_engine : RalphWiggumEngine :=
  (create_task "mixed" [example_step_1; flaky_step] "" NORMAL
     (example_engine 5)).2.

Definition mixed_done : RalphWiggumEngine :=
  (execute_task [] "uuid-0" mixed_engine).2.

(** [task_id in self.tasks], and the task object found there. *)
Definition registered (task_id : string) (self : RalphWiggumEngine) : bool :=
  match tasks self !! task_id with
  | Some _ => true
  | None => false
  end.

Definition the_task (task_id : string) (self : RalphWiggumEngine) : AutonomyTask :=
  default (new_task task_id "" [] "" 0) (tasks self !! task_id).

Definition interrupted_calls : list engine_call :=
  [CreateTask "interrupted" [interrupted_step] "" NORMAL;
   ExecuteTask [] "uuid-0"].

Definition interrupted_once : RalphWiggumEngine :=
  run_calls (new_engine steady_clock numbered_uuid) interrupted_calls.

(** A wall clock read four times in quick succession and then again more
    than eight days later. *)
Definition eight_days_clock (n : nat) : Z :=
  if (n <? 4)%nat then 1700000000000000 + Z.of_nat n
  else 1700000000000000 + 8 * day + Z.of_nat n.

(** The example task run to completion with a checkpoint after every
    second step, found again after eight days. *)
Definition completed_long_ago : RalphWiggumEngine :=
  let '(task_id, self) :=
    create_task "Example Multi-Step Task"
      [example_step_1; example_step_2; example_step_3]
      "This is an example of a multi-step task" NORMAL
      (with_checkpoint_interval 2
         (new_engine eight_days_clock numbered_uuid)) in
  (execute_task [] task_id self).2.

(** ** Auxiliary notions of the proofs *)

(** Fields of a task that [suspend_task] leaves alone. *)
Definition suspend_frame (t t' : AutonomyTask) : Prop :=
  steps t' = steps t ∧ current_step t' = current_step t ∧
  retry_count t' = retry_count t ∧ max_retries t' = max_retries t ∧
  state_data t' = state_data t ∧ error t' = error t.

Definition is_suspend (ev : event) : Prop :=
  match ev with Suspend _ _ => True | Invoke _ _ _ _ => False end.

(** What the [except Exception] clause does to the failing task. *)
Definition failure_case (msg : string) (id : string) (task task' : AutonomyTask)
    (self' : RalphWiggumEngine) (x : iteration_exit) : Prop :=
  error task' = Some msg ∧ current_step task' = current_step task ∧
  if decide (retry_count task < max_retries task)%nat then
    x = Continue ∧ retry_count task' = (retry_count task + 1)%nat
  else
    x = ReturnFalse ∧ retry_count task' = retry_count task ∧
    status task' = FAILED ∧
    Task_Queues self' !! id =
      Some {| json_task := to_dict task'; json_task_objects := objects self' |}.

(** An in-place update of a task that keeps its checkpoints, does not move
    [current_step] backwards and does not clear [error]. *)
Definition harmless (f : AutonomyTask → AutonomyTask) : Prop :=
  ∀ t, checkpoints (f t) = checkpoints t ∧
       (current_step t ≤ current_step (f t))%nat ∧
       (is_Some (error t) → is_Some (error (f t))).

Definition checkpoint_order (a b : TaskCheckpoint) : Prop :=
  timestamp a < timestamp b ∧ (step a ≤ step b)%nat.

(** The checkpoints of a task are in write order with growing timestamps
    and step indices, all before [now] and none beyond [current_step]. *)
Definition task_ok (now : Z) (t : AutonomyTask) : Prop :=
  StronglySorted checkpoint_order (checkpoints t) ∧
  Forall (fun c => timestamp c < now ∧ (step c ≤ current_step t)%nat)
    (checkpoints t).

Definition engine_ok (self : RalphWiggumEngine) : Prop :=
  clock_advances (wall_clock self) ∧
  (∀ id t, tasks self !! id = Some t → task_ok (datetime_now self) t) ∧
  (∀ id f, Task_Queues self !! id = Some f →
           task_ok (datetime_now self) (json_task f)).

Definition has_error (id : string) (self : RalphWiggumEngine) : Prop :=
  ∃ t, tasks self !! id = Some t ∧ is_Some (error t).

(** ** What a reload keeps

    A checkpoint read back from a file has the id, task id, step and
    timestamp that were written; a task read back has its fields as
    written, no steps, and as many checkpoints. *)
Definition same_header (c c' : TaskCheckpoint) : Prop :=
  checkpoint_id c' = checkpoint_id c ∧ ckpt_task_id c' = ckpt_task_id c ∧
  step c' = step c ∧ timestamp c' = timestamp c.

Definition loaded (d t : AutonomyTask) : Prop :=
  task_id t = task_id d ∧ name t = name d ∧ description t = description d ∧
  steps t = [] ∧ status t = status d ∧ priority t = priority d ∧
  created_at t = created_at d ∧ started_at t = started_at d ∧
  completed_at t = completed_at d ∧ current_step t = current_step d ∧
  error t = error d ∧ max_retries t = max_retries d ∧
  retry_count t = retry_count d ∧
  Forall2 same_header (checkpoints d) (checkpoints t).

(** ** Status views

    The rest of the public interface of the engine: [get_task_status],
    [list_active_tasks] and [run_pending_tasks]. *)

(** [TaskStatus.value] and [TaskPriority.value] *)
Definition status_value (s : TaskStatus) : string :=
  match s with
  | PENDING => "pending"
  | IN_PROGRESS => "in_progress"
  | CHECKPOINTED => "checkpointed"
  | SUSPENDED => "suspended"
  | COMPLETED => "completed"
  | FAILED => "failed"
  | INTERRUPTED => "interrupted"
  end.

Definition priority_value (p : TaskPriority) : string :=
  match p with
  | LOW => "low"
  | NORMAL => "normal"
  | HIGH => "high"
  | URGENT => "urgent"
  end.

(** The dict returned by [get_task_status].  Timestamps stand for their
    [isoformat()] text. *)
Record task_status_view := {
  view_task_id : string;
  view_name : string;
  view_status : string;
  view_progress : string;
  view_priority : string;
  view_created_at : Z;
  view_started_at : option Z;
  view_completed_at : option Z;
  view_current_step : nat;
  view_total_steps : nat;
  view_error : option string
}.

Definition status_view (task : AutonomyTask) : task_status_view :=
  {| view_task_id := task_id task;
     view_name := name task;
     view_status := status_value (status task);
     view_progress :=
       pretty (current_step task) +:+ "/" +:+ pretty (length (steps task));
     view_priority := priority_value (priority task);
     view_created_at := created_at task;
     view_started_at := started_at task;
     view_completed_at := completed_at task;
     view_current_step := current_step task;
     view_total_steps := length (steps task);
     view_error := error task |}.

(** [get_task_status] *)
Definition get_task_status (task_id : string) (self : RalphWiggumEngine)
  : option task_status_view * RalphWiggumEngine :=
  match tasks self !! task_id with
  | Some task => (Some (status_view task), self)
  | None =>
    match _load_task task_id self with
    | None => (None, self)
    | Some (task, self) =>
      let self := with_tasks (<[task_id := task]> (tasks self)) self in
      (Some (status_view task), self)
    end
  end.

(** [list_active_tasks]: the ids in [active_tasks] are looked up only when
    they are in the registry, so no task is loaded on the way. *)
Definition list_active_tasks (self : RalphWiggumEngine)
  : list task_status_view :=
  omap (fun task_id =>
          match tasks self !! task_id with
          | Some _ => (get_task_status task_id self).1
          | None => None
          end) (active_tasks self).

(** [run_pending_tasks].  [self.tasks.items()] yields the tasks in the order
    they were inserted, which the registry map does not record: [items] is
    that sequence of ids.  The list of pending ids is built first, then
    each is executed; [scheds] gives, for each of these runs, what other
    coroutines do while its steps are awaited. *)
Definition is_pending (task_id : string) (self : RalphWiggumEngine) : bool :=
  match tasks self !! task_id with
  | Some task => bool_decide (status task = PENDING)
  | None => false
  end.

Definition pending_tasks (items : list string) (self : RalphWiggumEngine)
  : list string :=
  filter (fun task_id => is_pending task_id self = true) items.

Definition run_pending_tasks (items : list string)
    (scheds : string -> list (list string)) (self : RalphWiggumEngine)
  : RalphWiggumEngine :=
  foldl (fun self task_id => (execute_task (scheds task_id) task_id self).2)
    self (pending_tasks items self).

(** ** Further vocabulary *)

Definition always_returns (f : step_func) : Prop :=
  ∀ task i h, ∃ r, inv_outcome (_execute_step task f i h) = Returned r.

(** A sequence of step calls that starts at index [cur], repeats an index or
    moves to the next one, and leaves the loop at index [final]. *)
Fixpoint walk (cur : nat) (l : list nat) (final : nat) : Prop :=
  match l with
  | [] => final = cur
  | i :: l' => i = cur ∧ (walk cur l' final ∨ walk (S cur) l' final)
  end.

(** The statuses a task can have when no call is running. *)
Definition at_rest (s : TaskStatus) : Prop :=
  s = PENDING ∨ s = COMPLETED ∨ s = FAILED ∨ s = INTERRUPTED.

(** A task at rest; if it was interrupted, its last checkpoint holds the
    step and the state it stopped with. *)
Definition settled (t : AutonomyTask) : Prop :=
  at_rest (status t) ∧
  (status t = INTERRUPTED →
   ∃ c, last (checkpoints t) = Some c ∧
        step c = current_step t ∧ data c = state_data t).

Definition engine_settled (self : RalphWiggumEngine) : Prop :=
  (∀ id t, tasks self !! id = Some t → settled t) ∧
  (∀ id file, Task_Queues self !! id = Some file → settled (json_task file)).

(** Nothing changed for the tasks other than [id]. *)
Definition same_elsewhere (id : string) (self self' : RalphWiggumEngine) : Prop :=
  ∀ id', id' ≠ id →
    tasks self' !! id' = tasks self !! id' ∧
    Task_Queues self' !! id' = Task_Queues self !! id'.

(** A failing step followed by one that is never reached. *)
Definition two_step_failing_engine : RalphWiggumEngine :=
  (create_task "failing" [failing_step; example_step_1] "" NORMAL
     (example_engine 5)).2.

(** The example task saved as pending and found by a new process. *)
Definition reopened_engine : RalphWiggumEngine :=
  reopen
    (create_task "Example Multi-Step Task"
       [example_step_1; example_step_2; example_step_3]
       "This is an example of a multi-step task" NORMAL (example_engine 5)).2.

Definition example_created : RalphWiggumEngine :=
  (create_task "Example Multi-Step Task"
     [example_step_1; example_step_2; example_step_3]
     "This is an example of a multi-step task" NORMAL (example_engine 5)).2.

(** The example task as [execute_task] has it when it enters the loop:
    marked [IN_PROGRESS], with a start time, and listed as active. *)
Definition example_in_progress : RalphWiggumEngine :=
  let now := datetime_now example_created in
  let self := tick example_created in
  let self :=
    modify_task "uuid-0"
      (fun t => set_started_at (Some now) (set_status IN_PROGRESS t)) self in
  with_active_tasks (active_tasks self ++ ["uuid-0"]) self.

(** A task with a single step that returns. *)
Definition one_step_engine : RalphWiggumEngine :=
  (create_task "one step" [example_step_1] "" NORMAL (example_engine 5)).2.

(** How the engine lets a task object change: the identifying fields, the
    step list and the retry limit stay, [retry_count] does not go down and
    does not pass a limit it respected, the task does not return to
    [PENDING], a start time once set by a run stays, and checkpoints are
    only added at the end of the list. *)
Definition evolves (t t' : AutonomyTask) : Prop :=
  task_id t' = task_id t ∧ name t' = name t ∧
  description t' = description t ∧ priority t' = priority t ∧
  created_at t' = created_at t ∧
  steps t' = steps t ∧ max_retries t' = max_retries t ∧
  (retry_count t ≤ retry_count t')%nat ∧
  ((retry_count t ≤ max_retries t)%nat →
   (retry_count t' ≤ max_retries t')%nat) ∧
  (status t ≠ PENDING → status t' ≠ PENDING) ∧
  (status t ≠ PENDING → started_at t' = started_at t) ∧
  checkpoints t `prefix_of` checkpoints t'.

(** The task registered under [id] in [self] is a later state of [t]. *)
Definition later_state (id : string) (t : AutonomyTask)
    (self : RalphWiggumEngine) : Prop :=
  ∃ t', tasks self !! id = Some t' ∧ evolves t t'.

(** No task object registered under [id] is [IN_PROGRESS]. *)
Definition quiet (id : string) (self : RalphWiggumEngine) : Prop :=
  ∀ t, tasks self !! id = Some t → status t ≠ IN_PROGRESS.

(** The task object and the task file of [id] are the same in both. *)
Definition untouched (id : string) (self self' : RalphWiggumEngine) : Prop :=
  tasks self' !! id = tasks self !! id ∧
  Task_Queues self' !! id = Task_Queues self !! id.

(** Two pending tasks: the failing one and the three example steps. *)
Definition two_pending : RalphWiggumEngine :=
  (create_task "Example Multi-Step Task"
     [example_step_1; example_step_2; example_step_3]
     "This is an example of a multi-step task" NORMAL
     two_step_failing_engine).2.

(** A one-step task in an engine whose checkpoint interval was set to 0. *)
Definition zero_interval_engine : RalphWiggumEngine :=
  (create_task "one step" [example_step_1] "" NORMAL (example_engine 0)).2.

Definition always_interrupted (f : step_func) : Prop :=
  ∀ task i h, inv_outcome (_execute_step task f i h) = Interrupted.

(** A task whose only step is cut short by Ctrl-C. *)
Definition interrupted_created : RalphWiggumEngine :=
  (create_task "interrupted" [interrupted_step] "" NORMAL
     (new_engine steady_clock numbered_uuid)).2.

(** The step indices after which the loop writes a periodic checkpoint. *)
Definition checkpoint_due (K : nat) (i : nat) : Prop :=
  ((i + 1) mod K)%nat = 0%nat.

#[global] Instance checkpoint_due_dec K i : Decision (checkpoint_due K i).
Proof. unfold checkpoint_due. apply _. Defined.

(** The engine with its checkpoint directory emptied. *)
Definition forget_checkpoint_files (self : RalphWiggumEngine)
  : RalphWiggumEngine := with_Checkpoints [] self.

(** Two engines that differ at most in the content of the checkpoint
    directory. *)
Definition same_but_checkpoint_files (self self' : RalphWiggumEngine) : Prop :=
  forget_checkpoint_files self = forget_checkpoint_files self'.

(** What has become, in [self], of the checkpoint files that were in the
    directory [dir0] when [draws0] uuids had been drawn: each is still at
    its place under its name, with its content, unless a checkpoint saved
    since then under the same name has replaced the content. *)
Definition files_kept (dir0 : list checkpoint_json) (draws0 : nat)
    (self : RalphWiggumEngine) : Prop :=
  ∀ i f, dir0 !! i = Some f →
    ∃ f', Checkpoints self !! i = Some f' ∧
          json_file_name f' = json_file_name f ∧
          (f' = f ∨
           ∃ k, (draws0 ≤ k < uuid_draws self)%nat ∧
                checkpoint_id (json_checkpoint f') = uuid_source self k).

(** How a value [v] of a dump reads back as [v'] when the objects built
    for it are those numbered from [n] up to [m]: a scalar comes back as it
    was, and whatever comes back as a reference points to one of the new
    objects. *)
Definition read_back (n m : nat) (v v' : value) : Prop :=
  ((∀ l, v ≠ VRef l) → v' = v) ∧
  (∀ l', v' = VRef l' → (n ≤ l' < m)%nat).

(** The same for the entries of a dict: the same keys, and under each key
    a value read back. *)
Definition dict_read_back (n m : nat) (d d' : gmap string value) : Prop :=
  ∀ k, option_Forall2 (read_back n m) (d !! k) (d' !! k).

(** ** The checkpoint directory

    A checkpoint file is covered by a list of checkpoints when the list has
    a checkpoint with at least the step index of the file. *)
Definition covered (f : checkpoint_json) (cs : list TaskCheckpoint) : Prop :=
  ∃ c, c ∈ cs ∧ (step (json_checkpoint f) ≤ step c)%nat.

(** What holds of the checkpoint directory at every point of a run when no
    uuid is drawn twice: every id in use was drawn; every checkpoint file
    was written before now, for a task whose id was drawn, and is covered
    by the checkpoints of that task (those of the task object if there is
    one, those of the task file otherwise); and of two files of one task,
    the one whose timestamp is not later has the step index that is not
    greater. *)
Definition dir_ok (self : RalphWiggumEngine) : Prop :=
  (∀ n m, uuid_source self n = uuid_source self m → n = m) ∧
  (∀ id, is_Some (tasks self !! id) ∨ is_Some (Task_Queues self !! id) →
         ∃ k, (k < uuid_draws self)%nat ∧ id = uuid_source self k) ∧
  (∀ f, f ∈ Checkpoints self →
        timestamp (json_checkpoint f) < datetime_now self ∧
        (∃ k, (k < uuid_draws self)%nat ∧
              ckpt_task_id (json_checkpoint f) = uuid_source self k) ∧
        (∀ t, tasks self !! ckpt_task_id (json_checkpoint f) = Some t →
              covered f (checkpoints t)) ∧
        (∀ file,
           tasks self !! ckpt_task_id (json_checkpoint f) = None →
           Task_Queues self !! ckpt_task_id (json_checkpoint f) = Some file →
           covered f (checkpoints (json_task file)))) ∧
  (∀ f1 f2,
     f1 ∈ Checkpoints self → f2 ∈ Checkpoints self →
     ckpt_task_id (json_checkpoint f1) = ckpt_task_id (json_checkpoint f2) →
     timestamp (json_checkpoint f1) ≤ timestamp (json_checkpoint f2) →
     (step (json_checkpoint f1) ≤ step (json_checkpoint f2))%nat).

(** Between calls the task file of a registered task lists the checkpoints
    the task object has. *)
Definition own_synced (id : string) (self : RalphWiggumEngine) : Prop :=
  ∀ t, tasks self !! id = Some t →
       ∃ file, Task_Queues self !! id = Some file ∧
               Forall2 same_header (checkpoints (json_task file))
                 (checkpoints t).

Definition engine_synced (self : RalphWiggumEngine) : Prop :=
  ∀ id, own_synced id self.

(** ** The states an engine passes through

    A fresh engine over empty directories under the clock [clock] and the
    uuid source [uuids], and whatever the statements of the engine's
    methods make of such a state.  Every state in which a call returns is
    of this kind, and so is every state inside a call, in particular the
    states in which another coroutine finds the engine while a step is
    awaited. *)
Inductive reachable (clock : nat → Z) (uuids : nat → string)
  : RalphWiggumEngine → Prop :=
  | reach_new : reachable clock uuids (new_engine clock uuids)
  | reach_create_task name steps description priority self :
      reachable clock uuids self →
      reachable clock uuids
        (create_task name steps description priority self).2
  | reach_cleanup days_old self :
      reachable clock uuids self →
      reachable clock uuids (cleanup_completed_tasks days_old self).2
  | reach_interval K self :
      reachable clock uuids self →
      reachable clock uuids (with_checkpoint_interval K self)
  | reach_reopen self :
      reachable clock uuids self → reachable clock uuids (reopen self)
  | reach_tick self :
      reachable clock uuids self → reachable clock uuids (tick self)
  | reach_log ev self :
      reachable clock uuids self → reachable clock uuids (log ev self)
  | reach_objects h self :
      reachable clock uuids self → reachable clock uuids (with_objects h self)
  | reach_active l self :
      reachable clock uuids self →
      reachable clock uuids (with_active_tasks l self)
  | reach_modify id f self :
      harmless f →
      reachable clock uuids self → reachable clock uuids (modify_task id f self)
  | reach_save_task id self :
      reachable clock uuids self → reachable clock uuids (_save_task id self)
  | reach_save_checkpoint id self :
      reachable clock uuids self →
      reachable clock uuids (_save_checkpoint id self)
  | reach_restore id self :
      reachable clock uuids self →
      reachable clock uuids (_restore_from_checkpoint id self).2
  | reach_restart id self :
      (_restore_from_checkpoint id self).1 = false →
      reachable clock uuids self →
      reachable clock uuids
        (modify_task id
           (fun t => set_status IN_PROGRESS (set_current_step 0 t)) self)
  | reach_load id self task self1 :
      tasks self !! id = None →
      _load_task id self = Some (task, self1) →
      reachable clock uuids self →
      reachable clock uuids (with_tasks (<[id := task]> (tasks self1)) self1).

(** A task of two steps, checkpointed after every step, whose second step
    is cut short by Ctrl-C: created and executed, and then resumed. *)
Definition two_step_calls : list engine_call :=
  [CreateTask "two steps" [example_step_1; interrupted_step] "" NORMAL;
   SetCheckpointInterval 1;
   ExecuteTask [] "uuid-0"].

Definition interrupted_in_second_step : RalphWiggumEngine :=
  run_calls (new_engine steady_clock numbered_uuid) two_step_calls.

Definition resumed_calls : list engine_call :=
  two_step_calls ++ [ResumeTask [] "uuid-0"].

Definition interrupted_again : RalphWiggumEngine :=
  run_calls (new_engine steady_clock numbered_uuid) resumed_calls.

(** The example task, checkpointed after every step, as the loop of
    [execute_task] has it after two passes when another coroutine called
    [suspend_task] while the second step was awaited. *)
Definition suspended_in_loop : RalphWiggumEngine :=
  (while_loop 2 [[]; ["uuid-0"]] "uuid-0"
     (with_checkpoint_interval 1 example_in_progress)).1.

(** The invariant behind [files_kept]: the uuid source is the same and has
    only moved on, and the files are kept. *)
Definition kept_since (dir0 : list checkpoint_json) (draws0 : nat)
    (uuids : nat → string) (self : RalphWiggumEngine) : Prop :=
  uuid_source self = uuids ∧ (draws0 ≤ uuid_draws self)%nat ∧
  files_kept dir0 draws0 self.

(** The invariants of the checkpoint lists and of the checkpoint directory
    together: every statement of a run keeps them. *)
Definition store_ok (s : RalphWiggumEngine) : Prop := engine_ok s ∧ dir_ok s.

(** What holds whenever a call has returned. *)
Definition boundary_ok (s : RalphWiggumEngine) : Prop :=
  engine_settled s ∧ engine_synced s ∧ store_ok s.

(** * Properties *)

(** ** Basic facts about the primitives *)

Lemma lookup_modify_task id f self :
  tasks (modify_task id f self) !! id = f <$> tasks self !! id.
Proof. apply lookup_alter_eq. Qed.

Lemma lookup_modify_task_ne id id' f self :
  id ≠ id' → tasks (modify_task id f self) !! id' = tasks self !! id'.
Proof. intros. by apply lookup_alter_ne. Qed.

Lemma tasks_save_task id self : tasks (_save_task id self) = tasks self.
Proof. unfold _save_task. by destruct (tasks self !! id). Qed.

Lemma save_task_fields id self :
  let self' := _save_task id self in
  objects self' = objects self ∧
  checkpoint_interval self' = checkpoint_interval self ∧
  trace self' = trace self ∧ active_tasks self' = active_tasks self ∧
  Checkpoints self' = Checkpoints self ∧
  wall_clock self' = wall_clock self ∧ clock_reads self' = clock_reads self ∧
  uuid_source self' = uuid_source self ∧ uuid_draws self' = uuid_draws self.
Proof. cbv zeta. unfold _save_task. by destruct (tasks self !! id). Qed.

Lemma save_task_file id self t :
  tasks self !! id = Some t →
  Task_Queues (_save_task id self) !! id =
    Some {| json_task := to_dict t;
            json_task_objects := objects (_save_task id self) |}.
Proof.
  intros Ht. unfold _save_task. rewrite Ht. cbn. by rewrite lookup_insert_eq.
Qed.

Lemma lookup_save_checkpoint id self t :
  tasks self !! id = Some t →
  tasks (_save_checkpoint id self) !! id =
    Some (set_checkpoints
            (checkpoints t ++
               [{| checkpoint_id := uuid4 self; ckpt_task_id := id;
                   step := current_step t; data := state_data t;
                   timestamp := datetime_now self |}]) t).
Proof.
  intros H. unfold _save_checkpoint. rewrite H. cbn.
  rewrite lookup_alter_eq. cbn. rewrite H. reflexivity.
Qed.

Lemma save_checkpoint_fields id self :
  let self' := _save_checkpoint id self in
  objects self' = objects self ∧
  checkpoint_interval self' = checkpoint_interval self ∧
  trace self' = trace self ∧ active_tasks self' = active_tasks self ∧
  Task_Queues self' = Task_Queues self ∧
  wall_clock self' = wall_clock self ∧ uuid_source self' = uuid_source self.
Proof. cbv zeta. unfold _save_checkpoint. by destruct (tasks self !! id). Qed.

Lemma lookup_save_checkpoint_ne id id' self :
  id ≠ id' → tasks (_save_checkpoint id self) !! id' = tasks self !! id'.
Proof.
  intros. unfold _save_checkpoint. destruct (tasks self !! id); [|done].
  cbn. by rewrite lookup_alter_ne.
Qed.

Lemma suspend_frame_refl t : suspend_frame t t.
Proof. by repeat split. Qed.

Lemma suspend_frame_trans t1 t2 t3 :
  suspend_frame t1 t2 → suspend_frame t2 t3 → suspend_frame t1 t3.
Proof. unfold suspend_frame. intros (?&?&?&?&?&?) (?&?&?&?&?&?). repeat split; congruence. Qed.

Lemma suspend_task_frame id' self id t :
  tasks self !! id = Some t →
  ∃ t', tasks (suspend_task id' self).2 !! id = Some t' ∧ suspend_frame t t'.
Proof.
  intros Ht. unfold suspend_task.
  destruct (tasks self !! id') as [t0|] eqn:Ht0;
    [|cbn; eauto using suspend_frame_refl].
  destruct (decide (status t0 = IN_PROGRESS));
    [|cbn; eauto using suspend_frame_refl].
  cbn. rewrite tasks_save_task.
  destruct (decide (id' = id)) as [->|Hne].
  - erewrite lookup_save_checkpoint; [|by rewrite lookup_modify_task, Ht].
    eexists; split; [done|]. by repeat split.
  - unfold _save_checkpoint. rewrite lookup_modify_task, Ht0. cbn.
    rewrite !lookup_alter_ne by done. eauto using suspend_frame_refl.
Qed.

Lemma suspend_task_fields id' self :
  let self' := (suspend_task id' self).2 in
  objects self' = objects self ∧
  checkpoint_interval self' = checkpoint_interval self ∧
  wall_clock self' = wall_clock self ∧ uuid_source self' = uuid_source self ∧
  trace self' = trace self.
Proof.
  cbv zeta. unfold suspend_task.
  destruct (tasks self !! id') as [t0|] eqn:Ht0; [|done].
  destruct (decide _); [|done]. cbn.
  unfold _save_task, _save_checkpoint. rewrite lookup_modify_task, Ht0. cbn.
  rewrite !lookup_alter_eq. cbn. by rewrite Ht0.
Qed.

Lemma other_coroutines_spec waiting self id t :
  tasks self !! id = Some t →
  ∃ t' susp,
    tasks (other_coroutines waiting self) !! id = Some t' ∧
    suspend_frame t t' ∧
    objects (other_coroutines waiting self) = objects self ∧
    checkpoint_interval (other_coroutines waiting self)
      = checkpoint_interval self ∧
    trace (other_coroutines waiting self) = trace self ++ susp ∧
    Forall is_suspend susp.
Proof.
  revert self t. induction waiting as [|id' waiting IH]; intros self t Ht.
  - exists t, []. cbn. rewrite app_nil_r. eauto 10 using suspend_frame_refl.
  - cbn. destruct (suspend_task id' self) as [ok self1] eqn:Hs.
    destruct (suspend_task_frame id' self id t Ht) as (t1 & Ht1 & Hf1).
    pose proof (suspend_task_fields id' self) as (Ho & Hk & _ & _ & Htr).
    rewrite Hs in Ht1, Ho, Hk, Htr. cbn in Ht1, Ho, Hk, Htr.
    destruct (IH (log (Suspend id' ok) self1) t1) as (t' & susp & ? & ? & ? & ? & ? & ?);
      [done|].
    exists t', (Suspend id' ok :: susp). cbn in *. split_and!; try done.
    + eauto using suspend_frame_trans.
    + congruence.
    + congruence.
    + rewrite Htr in *. by rewrite <- app_assoc in *.
    + by constructor.
Qed.

Lemma on_step_exception_spec msg id self task self' x :
  tasks self !! id = Some task →
  on_step_exception msg id self = (self', x) →
  ∃ task',
    tasks self' !! id = Some task' ∧
    steps task' = steps task ∧ max_retries task' = max_retries task ∧
    state_data task' = state_data task ∧
    checkpoints task' = checkpoints task ∧
    trace self' = trace self ∧
    objects self' = objects self ∧
    checkpoint_interval self' = checkpoint_interval self ∧
    failure_case msg id task task' self' x.
Proof.
  intros Ht. unfold on_step_exception, failure_case.
  rewrite lookup_modify_task, Ht. cbn.
  destruct (decide (retry_count task < max_retries task)%nat); intros [= <- <-].
  - eexists. rewrite lookup_modify_task, lookup_modify_task, Ht. cbn.
    split_and!; done.
  - eexists. rewrite tasks_save_task, !lookup_modify_task, Ht. cbn.
    pose proof (save_task_fields id
      (modify_task id (set_status FAILED)
         (modify_task id (set_error (Some msg)) self)))
      as (Ho & Hk & Htr & _).
    split_and!; try done.
    apply save_task_file. by rewrite !lookup_modify_task, Ht.
Qed.

(** The effect of one pass through the loop body on the task it runs. *)
Lemma iteration_spec waiting id task f self self' x :
  tasks self !! id = Some task →
  iteration waiting id task f self = (self', x) →
  let inv := _execute_step task f (current_step task) (objects self) in
  ∃ task' susp,
    tasks self' !! id = Some task' ∧
    steps task' = steps task ∧ max_retries task' = max_retries task ∧
    trace self' =
      trace self ++
        Invoke id (current_step task) (status task) (inv_outcome inv) :: susp ∧
    Forall is_suspend susp ∧
    checkpoint_interval self' = checkpoint_interval self ∧
    match inv_outcome inv with
    | Returned r =>
      if decide (checkpoint_interval self = 0%nat) then
        failure_case zero_division_message id task task' self' x
      else
        x = Continue ∧
        state_data task' = <[step_key (current_step task) := r]> (inv_state inv) ∧
        current_step task' = (current_step task + 1)%nat ∧
        retry_count task' = retry_count task ∧
        error task' = error task
    | Raised msg => failure_case msg id task task' self' x
    | Interrupted =>
      x = KeyboardInterrupt ∧ current_step task' = current_step task ∧
      retry_count task' = retry_count task ∧ error task' = error task
    end.
Proof.
  intros Ht Hit inv. unfold iteration in Hit. fold inv in Hit.
  set (self1 := log _ _) in Hit.
  assert (Ht1 : tasks self1 !! id = Some (set_state_data (inv_state inv) task)).
  { subst self1. cbn. by rewrite lookup_alter_eq, Ht. }
  set (self2 := if iscoroutinefunction f then _ else _) in Hit.
  assert (∃ t2 susp, tasks self2 !! id = Some t2 ∧
            suspend_frame (set_state_data (inv_state inv) task) t2 ∧
            objects self2 = inv_heap inv ∧
            checkpoint_interval self2 = checkpoint_interval self ∧
            trace self2 = trace self ++
              Invoke id (current_step task) (status task) (inv_outcome inv) :: susp ∧
            Forall is_suspend susp) as (t2 & susp & Ht2 & Hf2 & Ho2 & Hk2 & Htr2 & Hs2).
  { subst self2. destruct (iscoroutinefunction f).
    - destruct (other_coroutines_spec waiting self1 id _ Ht1)
        as (t2 & susp & ? & ? & ? & ? & Htr & ?).
      exists t2, susp. split_and!; try done.
      rewrite Htr. subst self1. cbn. by rewrite <- app_assoc.
    - exists (set_state_data (inv_state inv) task), [].
      split_and!; auto using suspend_frame_refl. }
  clearbody self2. clear self1 Ht1.
  destruct Hf2 as (Hst & Hcur & Hrc & Hmr & Hsd & Herr).
  cbn in Hst, Hcur, Hrc, Hmr, Hsd, Herr.
  destruct (inv_outcome inv) as [r|msg|] eqn:Hout.
  - set (self3 := modify_task id _ self2) in Hit.
    assert (Ht3 : tasks self3 !! id =
              Some (set_state_data (<[step_key (current_step task) := r]> (state_data t2)) t2)).
    { subst self3. by rewrite lookup_modify_task, Ht2. }
    assert (Hk3 : checkpoint_interval self3 = checkpoint_interval self) by done.
    assert (Htr3 : trace self3 = trace self2) by done.
    clearbody self3. rewrite Hk3 in Hit.
    destruct (decide (checkpoint_interval self = 0%nat)) as [HK|HK].
    + destruct (on_step_exception_spec _ _ _ _ _ _ Ht3 Hit)
        as (t' & ? & ? & ? & ? & ? & Htr' & ? & ? & Hfc).
      unfold failure_case in *. cbn in *. rewrite Hcur, Hrc, Hmr in Hfc.
      destruct Hfc as (? & ? & ?).
      exists t', susp. split_and!; try done; try congruence.
    + destruct (decide _) in Hit; injection Hit as <- <-.
      * eexists _, susp.
        rewrite lookup_modify_task.
        erewrite lookup_save_checkpoint by done.
        pose proof (save_checkpoint_fields id self3) as (_ & Hk4 & Htr4 & _).
        split; [done|]. cbn. split_and!; try done; congruence.
      * eexists _, susp. rewrite lookup_modify_task, Ht3.
        split; [done|]. cbn. split_and!; try done; congruence.
  - destruct (on_step_exception_spec _ _ _ _ _ _ Ht2 Hit)
      as (t' & ? & ? & ? & ? & ? & Htr' & ? & ? & Hfc).
    unfold failure_case in *. rewrite Hcur, Hrc, Hmr in Hfc.
    destruct Hfc as (? & ? & ?).
    exists t', susp. split_and!; try done; try congruence.
  - injection Hit as <- <-. exists t2, susp. split_and!; done.
Qed.

Lemma suspends_invisible id susp :
  Forall is_suspend susp →
  invocations id susp = [] ∧ failure_messages id susp = [].
Proof.
  induction 1 as [|ev susp Hev _ [IH1 IH2]]; [done|].
  destruct ev; [done|]. unfold invocations, failure_messages in *. cbn.
  by rewrite IH1, IH2.
Qed.

Lemma invocations_app id l1 l2 :
  invocations id (l1 ++ l2) = invocations id l1 ++ invocations id l2.
Proof. apply omap_app. Qed.

Lemma failure_messages_app id l1 l2 :
  failure_messages id (l1 ++ l2)
  = failure_messages id l1 ++ failure_messages id l2.
Proof. apply omap_app. Qed.

Lemma invocations_call id i st o susp :
  Forall is_suspend susp → invocations id (Invoke id i st o :: susp) = [i].
Proof.
  intros Hs. pose proof (proj1 (suspends_invisible id susp Hs)) as H.
  unfold invocations in *. cbn. rewrite decide_True by done. by rewrite H.
Qed.

Lemma failure_messages_call id i st o susp :
  Forall is_suspend susp →
  failure_messages id (Invoke id i st o :: susp)
  = match o with Raised msg => [msg] | _ => [] end.
Proof.
  intros Hs. pose proof (proj2 (suspends_invisible id susp Hs)) as H.
  unfold failure_messages in *. cbn. rewrite H.
  destruct o; try done. by rewrite decide_True.
Qed.

Lemma while_loop_unfold fuel sched id self task f :
  tasks self !! id = Some task →
  steps task !! current_step task = Some f →
  while_loop (S fuel) sched id self =
    match iteration (hd [] sched) id task f self with
    | (self, Continue) => while_loop fuel (tl sched) id self
    | (self, ReturnFalse) => (self, LoopReturnFalse)
    | (self, KeyboardInterrupt) => (self, LoopKeyboardInterrupt)
    end.
Proof. intros Ht Hf. cbn. by rewrite Ht, Hf. Qed.

Lemma while_loop_done fuel sched id self task :
  tasks self !! id = Some task →
  steps task !! current_step task = None →
  while_loop fuel sched id self = (self, LoopEnd).
Proof. intros Ht Hf. destruct fuel; cbn; by rewrite Ht, Hf. Qed.

(** The loop never runs out of the fuel [loop_bound] grants. *)
Lemma while_loop_fuel fuel sched id self task :
  tasks self !! id = Some task →
  (loop_bound task ≤ fuel)%nat →
  (while_loop fuel sched id self).2 ≠ LoopFuel.
Proof.
  revert sched self task.
  induction fuel as [|fuel IH]; intros sched self task Ht Hb.
  { unfold loop_bound in Hb. lia. }
  destruct (steps task !! current_step task) as [f|] eqn:Hf.
  2:{ by erewrite while_loop_done. }
  erewrite while_loop_unfold by done.
  destruct (iteration _ _ _ _ _) as [self1 x] eqn:Hit.
  destruct (iteration_spec _ _ _ _ _ _ _ Ht Hit)
    as (t1 & susp & Ht1 & Hst & Hmr & _ & _ & _ & Hcase).
  apply lookup_lt_Some in Hf.
  destruct x; [|done..].
  apply (IH _ _ t1 Ht1). unfold loop_bound in *. rewrite Hst, Hmr.
  unfold failure_case in Hcase.
  destruct (inv_outcome _);
    repeat case_decide; destruct_and?; try done; lia.
Qed.

(** With a checkpoint interval of zero no step ever completes. *)
Lemma while_loop_interval_zero fuel sched id self task f :
  checkpoint_interval self = 0%nat →
  tasks self !! id = Some task →
  steps task !! current_step task = Some f →
  (while_loop fuel sched id self).2 ≠ LoopEnd.
Proof.
  revert sched self task.
  induction fuel as [|fuel IH]; intros sched self task HK Ht Hf.
  { cbn. by rewrite Ht, Hf. }
  erewrite while_loop_unfold by done.
  destruct (iteration _ _ _ _ _) as [self1 x] eqn:Hit.
  destruct (iteration_spec _ _ _ _ _ _ _ Ht Hit)
    as (t1 & susp & Ht1 & Hst & Hmr & _ & _ & HK1 & Hcase).
  destruct x; [|done..].
  apply (IH _ _ t1); [congruence|done|].
  unfold failure_case in Hcase. rewrite Hst.
  destruct (inv_outcome _);
    repeat case_decide; destruct_and?; try done; congruence.
Qed.

(** The retry counter and the error field after a loop that ran to its
    end: every failed call was counted, and the last message is kept. *)
Lemma while_loop_accounting fuel sched id self self' task :
  tasks self !! id = Some task →
  while_loop fuel sched id self = (self', LoopEnd) →
  ∃ task' new,
    tasks self' !! id = Some task' ∧
    trace self' = trace self ++ new ∧
    steps task' = steps task ∧
    steps task' !! current_step task' = None ∧
    retry_count task' =
      (retry_count task + length (failure_messages id new))%nat ∧
    error task' = from_option Some (error task) (last (failure_messages id new)).
Proof.
  revert sched self task.
  induction fuel as [|fuel IH]; intros sched self task Ht Hloop.
  { cbn in Hloop. rewrite Ht in Hloop.
    destruct (steps task !! current_step task) eqn:Hf; [done|].
    injection Hloop as <-. exists task, []. rewrite app_nil_r. cbn.
    split_and!; try done; lia. }
  destruct (steps task !! current_step task) as [f|] eqn:Hf.
  2:{ erewrite while_loop_done in Hloop by done.
      injection Hloop as <-. exists task, []. rewrite app_nil_r. cbn.
      split_and!; try done; lia. }
  destruct (decide (checkpoint_interval self = 0%nat)) as [HK|HK].
  { exfalso. eapply (while_loop_interval_zero (S fuel)); [done..|].
    by rewrite Hloop. }
  erewrite while_loop_unfold in Hloop by done.
  destruct (iteration _ _ _ _ _) as [self1 x] eqn:Hit.
  destruct (iteration_spec _ _ _ _ _ _ _ Ht Hit)
    as (t1 & susp & Ht1 & Hst & Hmr & Htr & Hsusp & HK1 & Hcase).
  destruct x; [|done..].
  destruct (IH _ _ _ Ht1 Hloop) as (t' & new & Ht' & Htr' & Hst' & Hend & Hrc & Herr).
  eexists t', (_ :: susp ++ new). split; [done|].
  split. { rewrite Htr', Htr. by rewrite <- app_assoc. }
  split; [congruence|]. split; [done|].
  rewrite app_comm_cons, failure_messages_app, failure_messages_call by done.
  rewrite Hrc, Herr, length_app, last_app.
  unfold failure_case in Hcase.
  destruct (inv_outcome _); rewrite ?decide_False in Hcase by done;
    repeat case_decide; destruct_and?; try done; cbn.
  - split; [lia|]. destruct (last _); cbn; congruence.
  - split; [lia|]. destruct (last _); cbn; congruence.
Qed.

(** A current step that always raises is called until the retries are
    used up; the task then fails and is saved. *)
Lemma while_loop_always_fails fuel sched id self task f :
  tasks self !! id = Some task →
  steps task !! current_step task = Some f →
  always_fails f →
  (max_retries task - retry_count task < fuel)%nat →
  ∃ self' task' new,
    while_loop fuel sched id self = (self', LoopReturnFalse) ∧
    tasks self' !! id = Some task' ∧
    trace self' = trace self ++ new ∧
    invocations id new =
      replicate (S (max_retries task - retry_count task)) (current_step task) ∧
    status task' = FAILED ∧
    current_step task' = current_step task ∧
    Task_Queues self' !! id =
      Some {| json_task := to_dict task'; json_task_objects := objects self' |}.
Proof.
  revert sched self task.
  induction fuel as [|fuel IH]; intros sched self task Ht Hf Hfail Hfuel; [lia|].
  erewrite while_loop_unfold by done.
  destruct (iteration _ _ _ _ _) as [self1 x] eqn:Hit.
  destruct (iteration_spec _ _ _ _ _ _ _ Ht Hit)
    as (t1 & susp & Ht1 & Hst & Hmr & Htr & Hsusp & HK1 & Hcase).
  destruct (Hfail task (current_step task) (objects self)) as [msg Hmsg].
  rewrite Hmsg in Hcase, Htr. destruct Hcase as (Herr & Hcur & Hcase).
  case_decide as Hlt.
  - destruct Hcase as [-> Hrc].
    destruct (IH (tl sched) self1 t1) as (self' & t' & new & Hloop & ? & Htr' & Hinv & ? & ? & ?);
      [done|congruence|done|lia|].
    exists self', t', (Invoke id (current_step task) (status task) (Raised msg) :: susp ++ new).
    split_and!; try done; try congruence.
    + rewrite Htr', Htr. by rewrite <- app_assoc.
    + rewrite app_comm_cons, invocations_app, invocations_call, Hinv by done.
      rewrite Hmr, Hrc, Hcur. cbn. f_equal.
      replace (max_retries task - retry_count task)%nat
        with (S (max_retries task - (retry_count task + 1)))%nat by lia.
      done.
  - destruct Hcase as (-> & Hrc & Hfailed & Hfile).
    exists self1, t1, (Invoke id (current_step task) (status task) (Raised msg) :: susp).
    split_and!; try done.
    rewrite invocations_call by done.
    by replace (max_retries task - retry_count task)%nat with 0%nat by lia.
Qed.

Lemma restore_from_checkpoint_false id self :
  (_restore_from_checkpoint id self).1 = false →
  (_restore_from_checkpoint id self).2 = self.
Proof.
  unfold _restore_from_checkpoint. destruct (tasks self !! id); [|done].
  by destruct (latest_checkpoint _).
Qed.

Section preservation.
(** A property of the engine that the primitive updates preserve is
    preserved by [suspend_task], [execute_task] and [resume_task]. *)
Variable I : RalphWiggumEngine → Prop.

Hypothesis I_tick : ∀ self, I self → I (tick self).
Hypothesis I_log : ∀ ev self, I self → I (log ev self).
Hypothesis I_objects : ∀ h self, I self → I (with_objects h self).
Hypothesis I_active : ∀ l self, I self → I (with_active_tasks l self).
Hypothesis I_modify :
  ∀ id f self, harmless f → I self → I (modify_task id f self).
Hypothesis I_save_task : ∀ id self, I self → I (_save_task id self).
Hypothesis I_save_checkpoint :
  ∀ id self, I self → I (_save_checkpoint id self).
Hypothesis I_restore :
  ∀ id self, I self → I (_restore_from_checkpoint id self).2.
Hypothesis I_restart :
  ∀ id self,
    (_restore_from_checkpoint id self).1 = false → I self →
    I (modify_task id
         (fun t => set_status IN_PROGRESS (set_current_step 0 t)) self).
Hypothesis I_load :
  ∀ id self task self1,
    tasks self !! id = None → _load_task id self = Some (task, self1) →
    I self → I (with_tasks (<[id := task]> (tasks self1)) self1).

Ltac harmless_update := intros ?; cbn; split_and!; (done || lia).

Lemma preserved_suspend_task id self : I self → I (suspend_task id self).2.
Proof.
  intros HI. unfold suspend_task. destruct (tasks self !! id); [|done].
  case_decide; [|done]. cbn.
  apply I_active, I_save_task, I_save_checkpoint, I_modify; [|done].
  harmless_update.
Qed.

Lemma preserved_other_coroutines waiting self :
  I self → I (other_coroutines waiting self).
Proof.
  revert self. induction waiting as [|id waiting IH]; intros self HI; [done|].
  cbn. pose proof (preserved_suspend_task id self HI).
  destruct (suspend_task id self). auto.
Qed.

Lemma preserved_on_step_exception msg id self :
  I self → I (on_step_exception msg id self).1.
Proof.
  intros HI. unfold on_step_exception.
  assert (I (modify_task id (set_error (Some msg)) self)) as HI1.
  { apply I_modify; [|done]. harmless_update. }
  destruct (tasks _ !! id); [|done]. case_decide; cbn.
  - apply I_modify; [|done]. harmless_update.
  - apply I_save_task, I_modify; [|done]. harmless_update.
Qed.

Lemma preserved_iteration waiting id task f self :
  I self → I (iteration waiting id task f self).1.
Proof.
  intros HI. unfold iteration.
  set (inv := _execute_step _ _ _ _).
  set (self1 := log _ _).
  assert (I self1) as HI1.
  { apply I_log, I_modify, I_objects; [|done]. harmless_update. }
  clearbody self1.
  set (self2 := if iscoroutinefunction f then _ else _).
  assert (I self2) as HI2.
  { subst self2. destruct (iscoroutinefunction f);
      auto using preserved_other_coroutines. }
  clearbody self2.
  destruct (inv_outcome inv); [| by apply preserved_on_step_exception | done].
  set (self3 := modify_task _ _ _).
  assert (I self3) as HI3.
  { apply I_modify; [|done]. harmless_update. }
  clearbody self3.
  case_decide; [by apply preserved_on_step_exception|].
  cbn. apply I_modify; [harmless_update|]. case_decide; auto.
Qed.

Lemma preserved_while_loop fuel sched id self :
  I self → I (while_loop fuel sched id self).1.
Proof.
  revert sched self. induction fuel as [|fuel IH]; intros sched self HI; cbn.
  - destruct (tasks self !! id) as [task|]; [|done].
    by destruct (steps task !! current_step task).
  - destruct (tasks self !! id) as [task|]; [|done].
    destruct (steps task !! current_step task) as [f|]; [|done].
    pose proof (preserved_iteration (hd [] sched) id task f self HI).
    destruct (iteration _ _ _ _ _) as [self1 []]; auto.
Qed.

Lemma preserved_complete_task id self : I self → I (complete_task id self).
Proof.
  intros HI. unfold complete_task.
  apply I_save_task, I_active, I_modify, I_tick; [|done]. harmless_update.
Qed.

Lemma preserved_on_keyboard_interrupt id self :
  I self → I (on_keyboard_interrupt id self).
Proof.
  intros HI. unfold on_keyboard_interrupt.
  apply I_save_task, I_save_checkpoint, I_modify; [|done]. harmless_update.
Qed.

Lemma preserved_execute_registered sched id task self :
  I self → I (execute_registered sched id task self).2.
Proof.
  intros HI. unfold execute_registered. case_decide; [done|].
  set (self0 := if decide (status task = PENDING) then _ else _).
  assert (I self0) as HI0.
  { subst self0. case_decide; [|done].
    apply I_active, I_modify, I_tick; [|done]. harmless_update. }
  clearbody self0.
  pose proof (preserved_while_loop (loop_bound task) sched id self0 HI0).
  destruct (while_loop _ _ _ _) as [self1 []]; cbn;
    auto using preserved_complete_task, preserved_on_keyboard_interrupt.
Qed.

Lemma preserved_execute_task sched id self :
  I self → I (execute_task sched id self).2.
Proof.
  intros HI. unfold execute_task.
  destruct (tasks self !! id) as [task|] eqn:Ht.
  - by apply preserved_execute_registered.
  - destruct (_load_task id self) as [[task self1]|] eqn:Hl; [|done].
    apply preserved_execute_registered. eauto.
Qed.

Lemma preserved_resume_registered sched id task self :
  I self → I (resume_registered sched id task self).2.
Proof.
  intros HI. unfold resume_registered. case_decide; [|done].
  pose proof (I_restore id self HI) as Hr.
  pose proof (I_restart id self) as Hs.
  pose proof (restore_from_checkpoint_false id self) as Hsame.
  destruct (_restore_from_checkpoint id self) as [[] self1]; cbn in *.
  - apply preserved_execute_task, I_modify; [|done]. harmless_update.
  - apply preserved_execute_task. rewrite Hsame by done. auto.
Qed.

Lemma preserved_resume_task sched id self :
  I self → I (resume_task sched id self).2.
Proof.
  intros HI. unfold resume_task.
  destruct (tasks self !! id) as [task|] eqn:Ht.
  - by apply preserved_resume_registered.
  - destruct (_load_task id self) as [[task self1]|] eqn:Hl; [|done].
    apply preserved_resume_registered. eauto.
Qed.
End preservation.

(** ** Checkpoints written under an advancing clock *)

Lemma task_ok_mono now now' t : now ≤ now' → task_ok now t → task_ok now' t.
Proof.
  intros Hle [Hs Hf]. split; [done|].
  eapply Forall_impl; [eassumption|]. cbn. intros c [? ?]. split; [lia|done].
Qed.

Lemma task_ok_update now t t' :
  checkpoints t' = checkpoints t →
  (current_step t ≤ current_step t')%nat →
  task_ok now t → task_ok now t'.
Proof.
  intros Hc Hcur [Hs Hf]. unfold task_ok. rewrite Hc. split; [done|].
  eapply Forall_impl; [eassumption|]. cbn. intros c [? ?]. split; [done|lia].
Qed.

Lemma engine_ok_tick self : engine_ok self → engine_ok (tick self).
Proof.
  intros (Hclk & Ht & Hf).
  assert (datetime_now self ≤ datetime_now (tick self)).
  { unfold datetime_now. cbn. apply Z.lt_le_incl, Hclk. lia. }
  split_and!; [done|..]; intros id x Hx; (eapply task_ok_mono; [done|]); eauto.
Qed.

Lemma engine_ok_same self self' :
  wall_clock self' = wall_clock self → clock_reads self' = clock_reads self →
  tasks self' = tasks self → Task_Queues self' = Task_Queues self →
  engine_ok self → engine_ok self'.
Proof.
  intros Hw Hr Ht Hq. unfold engine_ok, datetime_now.
  by rewrite Hw, Hr, Ht, Hq.
Qed.

Lemma engine_ok_modify id f self :
  harmless f → engine_ok self → engine_ok (modify_task id f self).
Proof.
  intros Hf (Hclk & Ht & Hq). split_and!; [done| |done].
  intros id' t'. cbn. rewrite lookup_alter.
  case_decide as Hid; [|by apply Ht]. subst id'.
  destruct (tasks self !! id) as [t|] eqn:Hlook; [|done].
  intros [= <-]. destruct (Hf t) as (Hc & Hcur & _).
  eapply task_ok_update; [done..|]. by eapply Ht.
Qed.

Lemma engine_ok_save_task id self : engine_ok self → engine_ok (_save_task id self).
Proof.
  intros (Hclk & Ht & Hq). unfold _save_task.
  destruct (tasks self !! id) as [t|] eqn:Hlook; [|done].
  split_and!; [done|done|].
  intros id' f. cbn. rewrite lookup_insert.
  case_decide; [|by apply Hq]. intros [= <-]. cbn.
  eapply (task_ok_update _ t); [done..|]. by eapply Ht.
Qed.

Lemma engine_ok_save_checkpoint id self :
  engine_ok self → engine_ok (_save_checkpoint id self).
Proof.
  intros Hok. unfold _save_checkpoint.
  destruct (tasks self !! id) as [t|] eqn:Hlook; [|done].
  pose proof Hok as (Hclk & Ht & Hq).
  assert (datetime_now self < datetime_now (tick (draw self))) as Hlt.
  { unfold datetime_now. cbn. apply Hclk. lia. }
  split_and!; [done| |].
  - intros id' t'. cbn. rewrite lookup_alter.
    case_decide as Hid.
    + subst id'. rewrite Hlook. intros [= <-].
      destruct (Ht _ _ Hlook) as [Hs Hf]. split; cbn.
      * apply StronglySorted_app. split_and!; [|done|repeat constructor].
        intros a b Ha Hb. apply list_elem_of_singleton in Hb as ->.
        rewrite Forall_forall in Hf. destruct (Hf a Ha). split; cbn; done.
      * apply Forall_app. split.
        -- eapply Forall_impl; [eassumption|]. cbn. intros c [? ?].
           split; [|done]. unfold datetime_now in *. cbn in *. lia.
        -- apply Forall_singleton. cbn. split; [|done].
           unfold datetime_now in *. cbn in *. lia.
    + intros Hl. eapply task_ok_mono; [|by eapply Ht].
      unfold datetime_now in *. cbn in *. lia.
  - intros id' f Hl. eapply task_ok_mono; [|by eapply Hq].
    unfold datetime_now in *. cbn in *. lia.
Qed.

(** In a list sorted by timestamp [max] finds the last entry. *)
Lemma max_by_timestamp_sorted best l :
  StronglySorted checkpoint_order (best :: l) →
  max_by_timestamp best l = default best (last l).
Proof.
  revert best. induction l as [|c l IH]; intros best Hs; [done|].
  apply StronglySorted_cons in Hs as [Hall Hs].
  apply Forall_cons in Hall as [[Hlt _] _].
  cbn [max_by_timestamp]. rewrite (proj2 (Z.ltb_lt _ _) Hlt), IH by done.
  rewrite last_cons. by destruct (last l).
Qed.

Lemma latest_checkpoint_sorted l :
  StronglySorted checkpoint_order l → latest_checkpoint l = last l.
Proof.
  destruct l as [|c l]; [done|]. intros Hs. cbn [latest_checkpoint].
  rewrite max_by_timestamp_sorted, last_cons by done.
  by destruct (last l).
Qed.

Lemma sorted_last_greatest l c :
  StronglySorted checkpoint_order l → last l = Some c →
  Forall (fun a => (step a ≤ step c)%nat) l.
Proof.
  intros Hs Hl. apply last_Some in Hl as [l' ->].
  apply StronglySorted_app in Hs as (Hall & _ & _).
  apply Forall_app. split; [|by apply Forall_singleton].
  apply Forall_forall. intros a Ha.
  destruct (Hall a c Ha) as [_ ?]; [by apply list_elem_of_singleton|done].
Qed.

Lemma engine_ok_restore id self :
  engine_ok self → engine_ok (_restore_from_checkpoint id self).2.
Proof.
  intros Hok. unfold _restore_from_checkpoint.
  destruct (tasks self !! id) as [t|] eqn:Hlook; [|done].
  destruct (latest_checkpoint (checkpoints t)) as [latest|] eqn:Hlatest; [|done].
  cbn. pose proof Hok as (Hclk & Ht & Hq). split_and!; [done| |done].
  intros id' t'. cbn. rewrite lookup_alter.
  case_decide as Hid; [|by apply Ht]. subst id'. rewrite Hlook.
  intros [= <-]. destruct (Ht _ _ Hlook) as [Hs Hf]. split; cbn; [done|].
  rewrite latest_checkpoint_sorted in Hlatest by done.
  pose proof (sorted_last_greatest _ _ Hs Hlatest) as Hg.
  rewrite Forall_forall in *. intros c Hc. destruct (Hf c Hc). auto.
Qed.

Lemma engine_ok_restart id self :
  (_restore_from_checkpoint id self).1 = false → engine_ok self →
  engine_ok (modify_task id
               (fun t => set_status IN_PROGRESS (set_current_step 0 t)) self).
Proof.
  unfold _restore_from_checkpoint. intros Hr (Hclk & Ht & Hq).
  split_and!; [done| |done].
  intros id' t'. cbn. rewrite lookup_alter.
  case_decide as Hid; [|by apply Ht]. subst id'.
  destruct (tasks self !! id) as [t|] eqn:Hlook; [|done].
  intros [= <-]. destruct (checkpoints t) as [|c l] eqn:Hc; [|done].
  split; cbn; rewrite Hc; constructor.
Qed.

Lemma checkpoints_from_dict_headers src cs h :
  Forall2 same_header cs (checkpoints_from_dict src cs h).1.
Proof.
  unfold checkpoints_from_dict.
  revert h. induction cs as [|c cs IH]; intros h; cbn; [constructor|].
  unfold checkpoint_from_dict at 1.
  destruct (reload_dict src (data c) h) as [d h1].
  specialize (IH h1).
  destruct (load_all (checkpoint_from_dict src) cs h1) as [cs' h2].
  cbn in *. by constructor.
Qed.

Lemma from_dict_loaded src d h : loaded d (from_dict src d h).1.
Proof.
  unfold from_dict.
  pose proof (checkpoints_from_dict_headers src (checkpoints d) h) as Hcs.
  destruct (checkpoints_from_dict src (checkpoints d) h) as [cs h1].
  destruct (reload_dict src (state_data d) h1) as [st h2].
  destruct (reload src (result d) h2) as [r h3].
  unfold loaded. cbn. split_and!; done.
Qed.

Lemma load_task_inv id self task self1 :
  _load_task id self = Some (task, self1) →
  ∃ file h,
    Task_Queues self !! id = Some file ∧
    loaded (json_task file) task ∧
    self1 = with_objects h self.
Proof.
  unfold _load_task. destruct (Task_Queues self !! id) as [file|]; [|done].
  pose proof (from_dict_loaded (json_task_objects file) (json_task file)
                (objects self)) as Hl.
  destruct (from_dict _ _ _) as [t h]. intros [= <- <-]. eauto.
Qed.

Lemma load_task_None id self :
  _load_task id self = None → Task_Queues self !! id = None.
Proof.
  unfold _load_task. destruct (Task_Queues self !! id) as [file|]; [|done].
  by destruct (from_dict _ _ _).
Qed.

Lemma load_task_Some id self file :
  Task_Queues self !! id = Some file →
  ∃ task h, _load_task id self = Some (task, with_objects h self) ∧
            loaded (json_task file) task.
Proof.
  intros Hq. unfold _load_task. rewrite Hq.
  pose proof (from_dict_loaded (json_task_objects file) (json_task file)
                (objects self)) as Hl.
  destruct (from_dict _ _ _) as [t h]. eauto.
Qed.

Lemma same_header_order a a' b b' :
  same_header a a' → same_header b b' →
  checkpoint_order a b → checkpoint_order a' b'.
Proof.
  unfold same_header, checkpoint_order.
  intros (_&_&->&->) (_&_&->&->). done.
Qed.

Lemma sorted_same_header l l' :
  Forall2 same_header l l' →
  StronglySorted checkpoint_order l → StronglySorted checkpoint_order l'.
Proof.
  induction 1 as [|c c' l l' Hc Hl IH]; [done|].
  intros Hs. apply StronglySorted_cons in Hs as [Hall Hs].
  apply StronglySorted_cons. split; [|by apply IH].
  clear IH Hs. induction Hl as [|b b' l l' Hb Hl IH]; [done|].
  apply Forall_cons in Hall as [Hab Hall]. apply Forall_cons.
  split; [by eapply same_header_order|by apply IH].
Qed.

Lemma Forall_same_header (P : Z → nat → Prop) l l' :
  Forall2 same_header l l' →
  Forall (fun c => P (timestamp c) (step c)) l →
  Forall (fun c => P (timestamp c) (step c)) l'.
Proof.
  induction 1 as [|c c' l l' (_&_&Hs&Ht) Hl IH]; [done|].
  intros Hall. apply Forall_cons in Hall as [Hc Hall]. apply Forall_cons.
  split; [by rewrite Hs, Ht|by apply IH].
Qed.

Lemma task_ok_loaded now d t : loaded d t → task_ok now d → task_ok now t.
Proof.
  intros (_&_&_&_&_&_&_&_&_&Hcur&_&_&_&Hcs) [Hs Hf]. split.
  - by eapply sorted_same_header.
  - rewrite Hcur.
    by apply (Forall_same_header
                (fun ts st => ts < now ∧ (st ≤ current_step d)%nat) _ _ Hcs).
Qed.

Lemma engine_ok_load id self task self1 :
  tasks self !! id = None → _load_task id self = Some (task, self1) →
  engine_ok self → engine_ok (with_tasks (<[id := task]> (tasks self1)) self1).
Proof.
  intros Hnone Hl (Hclk & Ht & Hq).
  apply load_task_inv in Hl as (file & h & Hfile & Hld & ->).
  split_and!; [done| |done].
  intros id' t'. cbn. rewrite lookup_insert.
  case_decide; [|by apply Ht]. intros [= <-].
  eapply task_ok_loaded; [done|]. by eapply Hq.
Qed.

Lemma engine_ok_execute_task sched id self :
  engine_ok self → engine_ok (execute_task sched id self).2.
Proof.
  apply preserved_execute_task;
    eauto using engine_ok_tick, engine_ok_modify, engine_ok_save_task,
      engine_ok_save_checkpoint, engine_ok_load;
    intros; by eapply engine_ok_same.
Qed.

Lemma engine_ok_resume_task sched id self :
  engine_ok self → engine_ok (resume_task sched id self).2.
Proof.
  apply preserved_resume_task;
    eauto using engine_ok_tick, engine_ok_modify, engine_ok_save_task,
      engine_ok_save_checkpoint, engine_ok_load, engine_ok_restore,
      engine_ok_restart;
    intros; by eapply engine_ok_same.
Qed.

Lemma engine_ok_suspend_task id self :
  engine_ok self → engine_ok (suspend_task id self).2.
Proof.
  apply preserved_suspend_task;
    eauto using engine_ok_modify, engine_ok_save_task,
      engine_ok_save_checkpoint;
    intros; by eapply engine_ok_same.
Qed.

Lemma engine_ok_insert id t self :
  task_ok (datetime_now self) t → engine_ok self →
  engine_ok (with_tasks (<[id := t]> (tasks self)) self).
Proof.
  intros Hnew (Hclk & Ht & Hq). split_and!; [done| |done].
  intros id' t'. cbn. rewrite lookup_insert.
  case_decide; [by intros [= <-]|by apply Ht].
Qed.

Lemma engine_ok_create_task name steps description priority self :
  engine_ok self →
  engine_ok (create_task name steps description priority self).2.
Proof.
  intros Hok. unfold create_task. cbn.
  apply engine_ok_save_task.
  apply (engine_ok_insert _ _ (tick (draw self))).
  - split; cbn; constructor.
  - apply engine_ok_tick. by eapply engine_ok_same.
Qed.

Lemma engine_ok_remove_task id self : engine_ok self → engine_ok (remove_task id self).
Proof.
  intros (Hclk & Ht & Hq). split_and!; [done|..]; cbn.
  - intros id' t' Hl. apply lookup_delete_Some in Hl as [_ Hl]. by eapply Ht.
  - intros id' f Hl. apply lookup_delete_Some in Hl as [_ Hl]. by eapply Hq.
Qed.

Lemma engine_ok_cleanup days self :
  engine_ok self → engine_ok (cleanup_completed_tasks days self).2.
Proof.
  intros Hok. unfold cleanup_completed_tasks.
  destruct (cutoff_date days self) as [c|]; cbn; [|by apply engine_ok_tick].
  induction (to_remove _ _) as [|id ids IH]; cbn.
  - by apply engine_ok_tick.
  - by apply engine_ok_remove_task.
Qed.

Lemma engine_ok_new clock uuids :
  clock_advances clock → engine_ok (new_engine clock uuids).
Proof. intros Hclk. split_and!; [done|..]; cbn; intros ? ?; by rewrite lookup_empty. Qed.

Lemma engine_ok_run_call self c : engine_ok self → engine_ok (run_call self c).
Proof.
  intros Hok. destruct c; cbn.
  - by apply engine_ok_create_task.
  - by apply engine_ok_execute_task.
  - by apply engine_ok_resume_task.
  - by apply engine_ok_suspend_task.
  - by apply engine_ok_cleanup.
  - by eapply engine_ok_same.
  - destruct Hok as (Hclk & Ht & Hq). split_and!; [done| |done].
    cbn. intros ? ?. by rewrite lookup_empty.
Qed.

Lemma engine_ok_run_calls self calls :
  engine_ok self → engine_ok (run_calls self calls).
Proof.
  revert self. induction calls as [|c calls IH]; intros self Hok; [done|].
  cbn. by apply IH, engine_ok_run_call.
Qed.

Lemma sorted_steps_non_decreasing l :
  StronglySorted checkpoint_order l → non_decreasing (step <$> l).
Proof.
  induction 1 as [|c l Hs IH Hall]; intros i j a b Hij Ha Hb; [done|].
  destruct j as [|j]; [lia|]. cbn in Hb.
  destruct i as [|i]; cbn in Ha.
  - injection Ha as <-. apply list_lookup_fmap_Some in Hb as (cb & -> & Hcb).
    rewrite Forall_forall in Hall.
    apply (Hall cb). by eapply list_elem_of_lookup_2.
  - eapply (IH i j); [lia|done..].
Qed.

(** ** The error field *)

Lemma has_error_same id self self' :
  tasks self' = tasks self → has_error id self → has_error id self'.
Proof. unfold has_error. by intros ->. Qed.

Lemma has_error_modify id id' f self :
  (∀ t, is_Some (error t) → is_Some (error (f t))) →
  has_error id self → has_error id (modify_task id' f self).
Proof.
  intros Hf (t & Ht & He). unfold has_error. cbn. rewrite lookup_alter.
  case_decide; [|by eauto]. subst id'. rewrite Ht. cbn. eauto.
Qed.

Lemma has_error_save_checkpoint id id' self :
  has_error id self → has_error id (_save_checkpoint id' self).
Proof.
  intros (t & Ht & He). unfold _save_checkpoint, has_error.
  destruct (tasks self !! id'); [|by eauto].
  cbn. rewrite lookup_alter. case_decide; [|by eauto].
  subst id'. rewrite Ht. cbn. eauto.
Qed.

Lemma has_error_restore id id' self :
  has_error id self → has_error id (_restore_from_checkpoint id' self).2.
Proof.
  intros He. unfold _restore_from_checkpoint.
  destruct (tasks self !! id'); [|done].
  destruct (latest_checkpoint _); [|done]. cbn.
  by apply has_error_modify.
Qed.

Lemma has_error_load id id' self task self1 :
  tasks self !! id' = None → _load_task id' self = Some (task, self1) →
  has_error id self → has_error id (with_tasks (<[id' := task]> (tasks self1)) self1).
Proof.
  intros Hnone Hl (t & Ht & He).
  apply load_task_inv in Hl as (file & h & _ & _ & ->).
  exists t. cbn. rewrite lookup_insert_ne; [done|congruence].
Qed.

Lemma has_error_save_task id id' self :
  has_error id self → has_error id (_save_task id' self).
Proof. apply has_error_same, tasks_save_task. Qed.

Lemma has_error_harmless id id' f self :
  harmless f → has_error id self → has_error id (modify_task id' f self).
Proof. intros Hf. apply has_error_modify. intros t. apply (Hf t). Qed.

Lemma has_error_restart id id' self :
  (_restore_from_checkpoint id' self).1 = false → has_error id self →
  has_error id
    (modify_task id' (fun t => set_status IN_PROGRESS (set_current_step 0 t))
       self).
Proof. intros _. by apply has_error_modify. Qed.

Lemma has_error_execute_task id sched id' self :
  has_error id self → has_error id (execute_task sched id' self).2.
Proof.
  apply preserved_execute_task;
    eauto using has_error_harmless, has_error_save_task, has_error_save_checkpoint, has_error_load;
    intros; by eapply has_error_same.
Qed.

Lemma has_error_resume_task id sched id' self :
  has_error id self → has_error id (resume_task sched id' self).2.
Proof.
  apply preserved_resume_task;
    eauto using has_error_harmless, has_error_save_task, has_error_save_checkpoint, has_error_load,
      has_error_restore, has_error_restart;
    intros; by eapply has_error_same.
Qed.

Lemma has_error_suspend_task id id' self :
  has_error id self → has_error id (suspend_task id' self).2.
Proof.
  apply preserved_suspend_task;
    eauto using has_error_harmless, has_error_save_task, has_error_save_checkpoint;
    intros; by eapply has_error_same.
Qed.

(** ** Whole runs of [execute_task] *)

Lemma execute_registered_start sched id task self :
  tasks self !! id = Some task →
  status task ≠ COMPLETED → status task ≠ FAILED →
  ∃ self0 task0,
    tasks self0 !! id = Some task0 ∧ suspend_frame task task0 ∧
    trace self0 = trace self ∧
    execute_registered sched id task self =
      match while_loop (loop_bound task) sched id self0 with
      | (self, LoopEnd) => (true, complete_task id self)
      | (self, LoopReturnFalse) => (false, self)
      | (self, LoopKeyboardInterrupt) => (false, on_keyboard_interrupt id self)
      | (self, LoopFuel) => (false, self)
      end.
Proof.
  intros Ht Hc Hf. unfold execute_registered.
  rewrite decide_False by (intros [?|?]; done).
  case_decide.
  - eexists _, _. split; [|split; [|split; [|reflexivity]]].
    + cbn. by rewrite lookup_alter_eq, Ht.
    + by repeat split.
    + done.
  - exists self, task. split_and!; auto using suspend_frame_refl.
Qed.

Lemma trace_complete_task id self :
  trace (complete_task id self) = trace self.
Proof.
  unfold complete_task.
  match goal with |- trace (_save_task id ?s) = _ =>
    by destruct (save_task_fields id s) as (_ & _ & -> & _) end.
Qed.

Lemma lookup_complete_task id self t :
  tasks self !! id = Some t →
  ∃ t', tasks (complete_task id self) !! id = Some t' ∧
        status t' = COMPLETED ∧ retry_count t' = retry_count t ∧
        error t' = error t ∧ current_step t' = current_step t ∧
        trace (complete_task id self) = trace self.
Proof.
  intros Ht. rewrite trace_complete_task.
  unfold complete_task. rewrite tasks_save_task. cbn.
  rewrite lookup_alter_eq, Ht. cbn. eexists. split; [done|]. by cbn.
Qed.

(** A run that returns [True] completed the task; its retry counter grew by
    the number of failed calls and its error field holds the last message. *)
Lemma execute_task_true sched id self task self' :
  tasks self !! id = Some task →
  status task ≠ COMPLETED → status task ≠ FAILED →
  execute_task sched id self = (true, self') →
  ∃ task' new,
    tasks self' !! id = Some task' ∧
    status task' = COMPLETED ∧
    trace self' = trace self ++ new ∧
    retry_count task' =
      (retry_count task + length (failure_messages id new))%nat ∧
    error task' = from_option Some (error task) (last (failure_messages id new)).
Proof.
  intros Ht Hc Hf Hrun. unfold execute_task in Hrun. rewrite Ht in Hrun.
  destruct (execute_registered_start sched id task self Ht Hc Hf)
    as (self0 & task0 & Ht0 & Hfr & Htr0 & Heq).
  rewrite Heq in Hrun. clear Heq.
  destruct (while_loop _ _ _ _) as [self1 ex] eqn:Hloop.
  destruct ex; try done. injection Hrun as <-.
  destruct (while_loop_accounting _ _ _ _ _ _ Ht0 Hloop)
    as (t1 & new & Ht1 & Htr1 & _ & _ & Hrc & Herr).
  destruct (lookup_complete_task id self1 t1 Ht1)
    as (t' & Ht' & Hst & Hrc' & Herr' & _ & Htr').
  destruct Hfr as (_ & _ & Hrc0 & _ & _ & Herr0).
  exists t', new. split_and!; try done; congruence.
Qed.

Lemma max_by_timestamp_spec best l :
  max_by_timestamp best l ∈ best :: l ∧
  ∀ c, c ∈ best :: l → timestamp c ≤ timestamp (max_by_timestamp best l).
Proof.
  revert best. induction l as [|c l IH]; intros best; cbn.
  - split; [by left|]. intros c Hc. apply list_elem_of_singleton in Hc as ->. lia.
  - destruct (IH (if timestamp best <? timestamp c then c else best))
      as [Hin Hmax].
    split.
    + apply elem_of_cons in Hin as [Heq|Hin]; [|by do 2 right].
      rewrite Heq. destruct (timestamp best <? timestamp c); [right|]; by left.
    + intros c' Hc'.
      assert (timestamp (if timestamp best <? timestamp c then c else best)
              ≤ timestamp (max_by_timestamp
                   (if timestamp best <? timestamp c then c else best) l))
        as Hb by (apply Hmax; by left).
      apply elem_of_cons in Hc' as [->|Hc'].
      * destruct (Z.ltb_spec (timestamp best) (timestamp c)); lia.
      * apply elem_of_cons in Hc' as [->|Hc']; [|apply Hmax; by right].
        destruct (Z.ltb_spec (timestamp best) (timestamp c)); lia.
Qed.

Lemma the_task_lookup id self :
  registered id self = true → tasks self !! id = Some (the_task id self).
Proof. unfold registered, the_task. by destruct (tasks self !! id). Qed.

Lemma run_result {A B} (p : A * B) (a : A) : p.1 = a → p = (a, p.2).
Proof. intros <-. by destruct p. Qed.

(** [execute_task] never exhausts the fuel of its loop: the bound computed
    from the task as found covers every run. *)
Lemma execute_registered_terminates sched id task self :
  tasks self !! id = Some task →
  status task ≠ COMPLETED → status task ≠ FAILED →
  ∃ self0,
    execute_registered sched id task self =
      match while_loop (loop_bound task) sched id self0 with
      | (self, LoopEnd) => (true, complete_task id self)
      | (self, LoopReturnFalse) => (false, self)
      | (self, LoopKeyboardInterrupt) => (false, on_keyboard_interrupt id self)
      | (self, LoopFuel) => (false, self)
      end ∧
    (while_loop (loop_bound task) sched id self0).2 ≠ LoopFuel.
Proof.
  intros Ht Hc Hf.
  destruct (execute_registered_start sched id task self Ht Hc Hf)
    as (self0 & task0 & Ht0 & Hfr & _ & Heq).
  exists self0. split; [done|].
  apply (while_loop_fuel _ _ _ _ task0 Ht0).
  destruct Hfr as (Hst & Hcur & Hrc & Hmr & _).
  unfold loop_bound. by rewrite Hst, Hcur, Hrc, Hmr.
Qed.

(** ** Files read back, the clock, the cleanup *)

(** *** What is read back from a file *)

Lemma tree_induction (P : tree → Prop) :
  (∀ v, P (TScalar v)) →
  (∀ kvs, Forall (fun kv => P kv.2) kvs → P (TDict kvs)) →
  (∀ ts, Forall P ts → P (TList ts)) →
  P TDangling → P TCut → ∀ t, P t.
Proof.
  intros Hs Hd Hl Hdang Hcut.
  fix IH 1. intros [v|kvs|ts| |]; [apply Hs| | |done..].
  - apply Hd. induction kvs as [|[k t] kvs IHk]; constructor;
      [apply IH|apply IHk].
  - apply Hl. induction ts as [|t ts IHt]; constructor; [apply IH|apply IHt].
Qed.

Lemma load_all_prefix {A B} (load : A → heap → B * heap) l h :
  Forall (fun x => ∀ h, h `prefix_of` (load x h).2) l →
  h `prefix_of` (load_all load l h).2.
Proof.
  intros Hall. revert h.
  induction Hall as [|x l Hx _ IH]; intros h; cbn; [done|].
  specialize (Hx h). destruct (load x h) as [y h1]. specialize (IH h1).
  destruct (load_all load l h1) as [ys h2]. cbn in *. by etrans.
Qed.

Lemma json_loads_prefix t h : h `prefix_of` (json_loads t h).2.
Proof.
  revert h. induction t as [v|kvs IH|ts IH| |] using tree_induction;
    intros h; cbn; try done.
  - match goal with
    | |- context [load_all ?f kvs h] =>
      pose proof (load_all_prefix f kvs h) as Hp;
      destruct (load_all f kvs h) as [kvs' h1]
    end.
    cbn in *. etrans; [apply Hp|by apply prefix_app_r].
    eapply Forall_impl; [exact IH|]. cbn. intros kv Hkv h0.
    specialize (Hkv h0). by destruct (json_loads kv.2 h0).
  - pose proof (load_all_prefix json_loads ts h IH) as Hp.
    destruct (load_all json_loads ts h) as [vs h1].
    cbn in *. etrans; [apply Hp|by apply prefix_app_r].
Qed.

Lemma json_loads_fresh t h l :
  (∀ l', t ≠ TScalar (VRef l')) →
  (json_loads t h).1 = VRef l → (length h ≤ l < length (json_loads t h).2)%nat.
Proof.
  intros Ht. destruct t as [v|kvs|ts| |]; cbn; try done.
  - intros ->. by destruct (Ht l).
  - match goal with
    | |- context [load_all ?f kvs h] =>
      pose proof (load_all_prefix f kvs h) as Hp;
      destruct (load_all f kvs h) as [kvs' h1]
    end.
    cbn in *. intros [= <-]. rewrite length_app. cbn.
    assert (h `prefix_of` h1) as Hle.
    { apply Hp. apply Forall_forall. intros kv _ h0.
      pose proof (json_loads_prefix kv.2 h0). by destruct (json_loads kv.2 h0). }
    apply prefix_length in Hle. lia.
  - pose proof (load_all_prefix json_loads ts h) as Hp.
    destruct (load_all json_loads ts h) as [vs h1].
    cbn in *. intros [= <-]. rewrite length_app. cbn.
    assert (h `prefix_of` h1) as Hle.
    { apply Hp. apply Forall_forall. intros t _ h0. apply json_loads_prefix. }
    apply prefix_length in Hle. lia.
Qed.

Lemma read_back_mono n n' m m' v v' :
  (n' ≤ n)%nat → (m ≤ m')%nat → read_back n m v v' → read_back n' m' v v'.
Proof.
  intros Hn Hm [Hs Hr]. split; [done|].
  intros l Hl. specialize (Hr l Hl). lia.
Qed.

Lemma reload_spec src v h :
  h `prefix_of` (reload src v h).2 ∧
  read_back (length h) (length (reload src v h).2) v (reload src v h).1.
Proof.
  unfold reload. split; [apply json_loads_prefix|]. split.
  - intros Hv. unfold json_dumps. destruct v; cbn; try done. by destruct (Hv l).
  - intros l'. apply json_loads_fresh. intros l0. unfold json_dumps.
    destruct v as [| | | |l1]; cbn; try done.
    by destruct (src !! l1) as [[]|].
Qed.

(** Reading a list of parts: the store grows, and each part is related to
    what was read for it by a relation that tolerates wider bounds. *)
Lemma load_all_spec {A B} (R : nat → nat → A → B → Prop)
    (load : A → heap → B * heap) l h :
  (∀ n n' m m' x y, (n' ≤ n)%nat → (m ≤ m')%nat → R n m x y → R n' m' x y) →
  (∀ x h, h `prefix_of` (load x h).2 ∧
          R (length h) (length (load x h).2) x (load x h).1) →
  h `prefix_of` (load_all load l h).2 ∧
  Forall2 (R (length h) (length (load_all load l h).2)) l (load_all load l h).1.
Proof.
  intros Hmono Hload. revert h.
  induction l as [|x l IH]; intros h; cbn; [split; [done|constructor]|].
  destruct (Hload x h) as [Hp Hx]. destruct (load x h) as [y h1].
  destruct (IH h1) as [Hp' Hl]. destruct (load_all load l h1) as [ys h2].
  cbn in *. split; [by etrans|].
  pose proof (prefix_length _ _ Hp). pose proof (prefix_length _ _ Hp').
  constructor.
  - eapply Hmono; [| |exact Hx]; lia.
  - eapply Forall2_impl; [exact Hl|]. intros a b Hab.
    eapply Hmono; [| |exact Hab]; lia.
Qed.

Lemma list_to_map_related (R : value → value → Prop) (d : gmap string value)
    (kvs' : list (string * value)) :
  Forall2 (fun kv kv' => kv'.1 = kv.1 ∧ R kv.2 kv'.2) (map_to_list d) kvs' →
  ∀ k, option_Forall2 R (d !! k)
         ((list_to_map kvs' : gmap string value) !! k).
Proof.
  intros Hall k.
  assert (kvs'.*1 = (map_to_list d).*1) as Hkeys.
  { clear k. induction Hall as [|kv kv' l l' [Hk _] _ IH]; [done|].
    cbn. by rewrite Hk, IH. }
  assert (NoDup (kvs'.*1)) as Hnd
    by (rewrite Hkeys; apply NoDup_fst_map_to_list).
  destruct (d !! k) as [v|] eqn:Hd.
  - apply elem_of_map_to_list in Hd.
    apply list_elem_of_lookup in Hd as [i Hi].
    destruct (Forall2_lookup_l _ _ _ _ _ Hall Hi) as ([k' v'] & Hi' & Hk & Hv).
    cbn in *. subst k'.
    rewrite (elem_of_list_to_map_1 (M := gmap string) kvs' k v' Hnd).
    + by constructor.
    + by eapply list_elem_of_lookup_2.
  - rewrite (not_elem_of_list_to_map_1 (M := gmap string) kvs' k); [constructor|].
    rewrite Hkeys. intros Hin.
    apply list_elem_of_fmap in Hin as ([k' v] & -> & Hin).
    apply elem_of_map_to_list in Hin. cbn in *. congruence.
Qed.

Lemma reload_dict_spec src d h :
  h `prefix_of` (reload_dict src d h).2 ∧
  dict_read_back (length h) (length (reload_dict src d h).2) d
    (reload_dict src d h).1.
Proof.
  unfold reload_dict.
  match goal with
  | |- context [load_all ?f (map_to_list d) h] =>
    pose proof (load_all_spec
                  (fun n m (kv kv' : string * value) =>
                     kv'.1 = kv.1 ∧ read_back n m kv.2 kv'.2)
                  f (map_to_list d) h) as Hspec;
    destruct (load_all f (map_to_list d) h) as [kvs' h1]
  end.
  cbn [fst snd] in *. destruct Hspec as [Hp Hall].
  - intros n n' m m' x y ? ? [? ?]. eauto using read_back_mono.
  - intros [k v] h0. destruct (reload_spec src v h0) as [? ?].
    cbn [fst snd]. destruct (reload src v h0) as [v' h']. cbn in *. done.
  - split; [done|]. intros k. by apply list_to_map_related.
Qed.

Lemma dict_read_back_mono n n' m m' d d' :
  (n' ≤ n)%nat → (m ≤ m')%nat →
  dict_read_back n m d d' → dict_read_back n' m' d d'.
Proof.
  intros Hn Hm Hd k. specialize (Hd k).
  destruct Hd; constructor. eauto using read_back_mono.
Qed.

Lemma checkpoints_from_dict_spec src cs h :
  h `prefix_of` (checkpoints_from_dict src cs h).2 ∧
  Forall2 (fun c c' =>
             same_header c c' ∧
             dict_read_back (length h)
               (length (checkpoints_from_dict src cs h).2) (data c) (data c'))
    cs (checkpoints_from_dict src cs h).1.
Proof.
  unfold checkpoints_from_dict.
  apply (load_all_spec
           (fun n m c c' =>
              same_header c c' ∧ dict_read_back n m (data c) (data c'))).
  - intros n n' m m' x y ? ? [? ?]. eauto using dict_read_back_mono.
  - intros c h0. unfold checkpoint_from_dict.
    destruct (reload_dict_spec src (data c) h0) as [? ?].
    destruct (reload_dict src (data c) h0) as [d h1]. cbn in *.
    split; [done|]. split; [|done]. by unfold same_header.
Qed.

(** What [from_dict] returns: the task as it was written but for its
    steps; first the checkpoints are read, then the state, then the
    result, each into objects of its own. *)
Lemma from_dict_spec src d h :
  ∃ n,
    loaded d (from_dict src d h).1 ∧
    h `prefix_of` (from_dict src d h).2 ∧
    (length h ≤ n ≤ length (from_dict src d h).2)%nat ∧
    Forall2 (fun c c' => dict_read_back (length h) n (data c) (data c'))
      (checkpoints d) (checkpoints (from_dict src d h).1) ∧
    dict_read_back n (length (from_dict src d h).2) (state_data d)
      (state_data (from_dict src d h).1).
Proof.
  pose proof (from_dict_loaded src d h) as Hld. revert Hld.
  unfold from_dict.
  destruct (checkpoints_from_dict_spec src (checkpoints d) h) as [Hp1 Hcs].
  destruct (checkpoints_from_dict src (checkpoints d) h) as [cs h1].
  destruct (reload_dict_spec src (state_data d) h1) as [Hp2 Hst].
  destruct (reload_dict src (state_data d) h1) as [st h2].
  destruct (reload_spec src (result d) h2) as [Hp3 _].
  destruct (reload src (result d) h2) as [r h3].
  cbn in *. intros Hld. exists (length h1).
  pose proof (prefix_length _ _ Hp1). pose proof (prefix_length _ _ Hp2).
  pose proof (prefix_length _ _ Hp3).
  split_and!; [done|by do 2 (etrans; [eassumption|])|lia|lia| |].
  - eapply Forall2_impl; [exact Hcs|]. by intros c c' [_ ?].
  - eapply dict_read_back_mono; [| |exact Hst]; lia.
Qed.

Lemma load_task_spec id self file :
  Task_Queues self !! id = Some file →
  ∃ task h n,
    _load_task id self = Some (task, with_objects h self) ∧
    from_dict (json_task_objects file) (json_task file) (objects self)
      = (task, h) ∧
    loaded (json_task file) task ∧
    objects self `prefix_of` h ∧
    (length (objects self) ≤ n ≤ length h)%nat ∧
    Forall2 (fun c c' =>
               dict_read_back (length (objects self)) n (data c) (data c'))
      (checkpoints (json_task file)) (checkpoints task) ∧
    dict_read_back n (length h) (state_data (json_task file))
      (state_data task).
Proof.
  intros Hq. unfold _load_task. rewrite Hq.
  destruct (from_dict_spec (json_task_objects file) (json_task file)
              (objects self)) as (n & Hspec).
  destruct (from_dict _ _ _) as [task h]. cbn in *.
  exists task, h, n. by destruct Hspec as (?&?&?&?&?).
Qed.

Lemma steady_clock_advances : clock_advances steady_clock.
Proof. intros n m Hnm. unfold steady_clock. lia. Qed.

Lemma lookup_foldr_remove_task ids id self :
  tasks (foldr remove_task self ids) !! id =
    (if decide (id ∈ ids) then None else tasks self !! id) ∧
  Task_Queues (foldr remove_task self ids) !! id =
    (if decide (id ∈ ids) then None else Task_Queues self !! id) ∧
  Checkpoints (foldr remove_task self ids) = Checkpoints self.
Proof.
  induction ids as [|id' ids (IHt & IHq & IHc)]; cbn.
  - rewrite !decide_False by apply not_elem_of_nil. done.
  - rewrite !lookup_delete, IHt, IHq, IHc.
    destruct (decide (id' = id)) as [->|Hne].
    + rewrite !decide_True by (by left). done.
    + split_and!; [..|done]; repeat case_decide; try done;
        set_solver.
Qed.

Lemma elem_of_to_remove cutoff self id :
  id ∈ to_remove cutoff self ↔
  ∃ task, tasks self !! id = Some task ∧ expired cutoff task = true.
Proof.
  unfold to_remove. rewrite list_elem_of_fmap. split.
  - intros ([id' task] & -> & Hin).
    apply list_elem_of_filter in Hin as [Hexp Hin].
    apply elem_of_map_to_list in Hin. by exists task.
  - intros (task & Ht & Hexp). exists (id, task). split; [done|].
    apply list_elem_of_filter. split; [done|]. by apply elem_of_map_to_list.
Qed.

Lemma expired_spec cutoff task :
  expired cutoff task = true ↔
  status task = COMPLETED ∧ ∃ t, completed_at task = Some t ∧ t < cutoff.
Proof.
  unfold expired. rewrite andb_true_iff, bool_decide_eq_true.
  destruct (completed_at task) as [t|].
  - rewrite bool_decide_eq_true. naive_solver.
  - naive_solver.
Qed.

(** ** Further properties of the engine *)

(** *** Runs of the step loop *)

(** The state [execute_task] enters its loop with. *)
Lemma execute_registered_enter sched id task self :
  tasks self !! id = Some task →
  status task ≠ COMPLETED → status task ≠ FAILED →
  ∃ self0 task0,
    tasks self0 !! id = Some task0 ∧ suspend_frame task task0 ∧
    (status task0 = if decide (status task = PENDING) then IN_PROGRESS
                    else status task) ∧
    checkpoints task0 = checkpoints task ∧
    trace self0 = trace self ∧
    checkpoint_interval self0 = checkpoint_interval self ∧
    Checkpoints self0 = Checkpoints self ∧
    active_tasks self0 =
      (if decide (status task = PENDING) then active_tasks self ++ [id]
       else active_tasks self) ∧
    same_elsewhere id self self0 ∧
    Task_Queues self0 = Task_Queues self ∧
    execute_registered sched id task self =
      match while_loop (loop_bound task) sched id self0 with
      | (self, LoopEnd) => (true, complete_task id self)
      | (self, LoopReturnFalse) => (false, self)
      | (self, LoopKeyboardInterrupt) => (false, on_keyboard_interrupt id self)
      | (self, LoopFuel) => (false, self)
      end.
Proof.
  intros Ht Hc Hf. unfold execute_registered.
  rewrite (decide_False (P := status task = COMPLETED ∨ status task = FAILED))
    by (intros [?|?]; done).
  destruct (decide (status task = PENDING)) as [Hp|Hp].
  - set (self0 := with_active_tasks _ _).
    exists self0,
      (set_started_at (Some (datetime_now self)) (set_status IN_PROGRESS task)).
    subst self0. cbn. rewrite lookup_alter_eq, Ht. cbn.
    split_and!; try done.
    intros id' Hne. cbn. by rewrite lookup_alter_ne.
  - exists self, task. split_and!; auto using suspend_frame_refl. by intros.
Qed.

Lemma complete_task_spec id self t :
  tasks self !! id = Some t →
  let t' :=
    set_result
      (default (VStr "Task completed successfully")
         (state_data t !! "final_result"))
      (set_completed_at (Some (datetime_now self)) (set_status COMPLETED t)) in
  tasks (complete_task id self) !! id = Some t' ∧
  Task_Queues (complete_task id self) !! id =
    Some {| json_task := to_dict t';
            json_task_objects := objects (complete_task id self) |} ∧
  trace (complete_task id self) = trace self ∧
  Checkpoints (complete_task id self) = Checkpoints self ∧
  active_tasks (complete_task id self)
    = remove_first id (active_tasks self) ∧
  same_elsewhere id self (complete_task id self).
Proof.
  intros Ht t'. rewrite trace_complete_task. unfold complete_task.
  match goal with |- context [_save_task id ?s] => set (self1 := s) end.
  assert (tasks self1 !! id = Some t') as Ht1.
  { subst self1. cbn. by rewrite lookup_alter_eq, Ht. }
  destruct (save_task_fields id self1) as (_ & _ & _ & Ha & Hc & _).
  split_and!; try done.
  - by rewrite tasks_save_task.
  - by apply save_task_file.
  - intros id' Hne. rewrite tasks_save_task. unfold _save_task. rewrite Ht1.
    subst self1. cbn. by rewrite lookup_alter_ne, lookup_insert_ne.
Qed.

Lemma on_keyboard_interrupt_spec id self t :
  tasks self !! id = Some t →
  let c := {| checkpoint_id := uuid4 self; ckpt_task_id := id;
              step := current_step t; data := state_data t;
              timestamp := datetime_now self |} in
  let t' := set_checkpoints (checkpoints t ++ [c]) (set_status INTERRUPTED t) in
  tasks (on_keyboard_interrupt id self) !! id = Some t' ∧
  Task_Queues (on_keyboard_interrupt id self) !! id =
    Some {| json_task := to_dict t';
            json_task_objects := objects (on_keyboard_interrupt id self) |} ∧
  trace (on_keyboard_interrupt id self) = trace self ∧
  active_tasks (on_keyboard_interrupt id self) = active_tasks self ∧
  same_elsewhere id self (on_keyboard_interrupt id self).
Proof.
  intros Ht c t'. unfold on_keyboard_interrupt.
  set (self1 := modify_task id (set_status INTERRUPTED) self).
  assert (tasks self1 !! id = Some (set_status INTERRUPTED t)) as Ht1
    by (subst self1; by rewrite lookup_modify_task, Ht).
  pose proof (lookup_save_checkpoint id self1 _ Ht1) as Ht2. cbn in Ht2.
  destruct (save_checkpoint_fields id self1) as (_ & _ & Htr & Ha & Hq & _).
  destruct (save_task_fields id (_save_checkpoint id self1))
    as (_ & _ & Htr' & Ha' & _).
  split_and!.
  - by rewrite tasks_save_task.
  - by apply save_task_file.
  - by rewrite Htr', Htr.
  - by rewrite Ha', Ha.
  - intros id' Hne. rewrite tasks_save_task.
    rewrite lookup_save_checkpoint_ne by done.
    unfold _save_task. rewrite Ht2. cbn. rewrite lookup_insert_ne by done.
    rewrite Hq. subst self1. cbn. by rewrite lookup_alter_ne.
Qed.

(** The calls of one run of the loop: how many there are at most, that they
    follow the order of the steps, and that they stay inside the list. *)
Lemma while_loop_walk fuel sched id self task self' x :
  tasks self !! id = Some task →
  while_loop fuel sched id self = (self', x) →
  ∃ task' new,
    tasks self' !! id = Some task' ∧
    trace self' = trace self ++ new ∧
    steps task' = steps task ∧ max_retries task' = max_retries task ∧
    (retry_count task ≤ retry_count task')%nat ∧
    (length (invocations id new)
     + ((length (steps task') - current_step task')
        + (max_retries task' - retry_count task'))
     ≤ loop_bound task)%nat ∧
    walk (current_step task) (invocations id new) (current_step task') ∧
    Forall (fun i => (i < length (steps task))%nat) (invocations id new).
Proof.
  revert sched self task.
  induction fuel as [|fuel IH]; intros sched self task Ht Hloop.
  { cbn in Hloop. rewrite Ht in Hloop.
    exists task, [].
    destruct (steps task !! current_step task); injection Hloop as <- <-;
      rewrite app_nil_r; cbn; unfold loop_bound;
      split_and!; try done; lia. }
  destruct (steps task !! current_step task) as [f|] eqn:Hf.
  2:{ erewrite while_loop_done in Hloop by done. injection Hloop as <- <-.
      exists task, []. rewrite app_nil_r. cbn. unfold loop_bound.
      split_and!; try done; lia. }
  erewrite while_loop_unfold in Hloop by done.
  destruct (iteration _ _ _ _ _) as [self1 y] eqn:Hit.
  destruct (iteration_spec _ _ _ _ _ _ _ Ht Hit)
    as (t1 & susp & Ht1 & Hst & Hmr & Htr & Hsusp & HK1 & Hcase).
  pose proof (lookup_lt_Some _ _ _ Hf) as Hlt.
  assert (invocations id
            (Invoke id (current_step task) (status task)
               (inv_outcome (_execute_step task f (current_step task)
                               (objects self))) :: susp)
          = [current_step task]) as Hinv by (by apply invocations_call).
  assert ((y = Continue →
           (current_step t1 = current_step task ∨
            current_step t1 = S (current_step task)) ∧
           (retry_count task ≤ retry_count t1)%nat ∧
           (S ((length (steps t1) - current_step t1)
               + (max_retries t1 - retry_count t1))
            ≤ (length (steps task) - current_step task)
              + (max_retries task - retry_count task))%nat) ∧
          (y ≠ Continue →
           current_step t1 = current_step task ∧
           retry_count t1 = retry_count task)) as [Hcont Hstop].
  { rewrite Hst, Hmr. unfold failure_case in Hcase.
    destruct (inv_outcome _); repeat case_decide; destruct_and?; subst y;
      (split; [intros ?|intros ?]); try done; split_and?; try lia. }
  destruct y.
  - destruct (Hcont eq_refl) as (Hcur & Hrc & Hm).
    destruct (IH _ _ _ Ht1 Hloop)
      as (t' & new & Ht' & Htr' & Hst' & Hmr' & Hrc' & Hlen & Hwalk & Hall).
    exists t', ((Invoke id (current_step task) (status task)
                   (inv_outcome (_execute_step task f (current_step task)
                                   (objects self))) :: susp) ++ new).
    rewrite invocations_app, Hinv. cbn [app length walk].
    split_and!; try done; try congruence.
    + rewrite Htr', Htr. by rewrite <- app_assoc.
    + lia.
    + unfold loop_bound in *. lia.
    + destruct Hcur as [Hcur|Hcur]; rewrite Hcur in Hwalk; auto.
    + constructor; [done|]. by rewrite <- Hst.
  - injection Hloop as <- <-. destruct (Hstop ltac:(done)) as [Hcur Hrc].
    exists t1, (Invoke id (current_step task) (status task)
                  (inv_outcome (_execute_step task f (current_step task)
                                  (objects self))) :: susp).
    rewrite Hinv. cbn. unfold loop_bound. rewrite Hst, Hmr, Hcur, Hrc.
    split_and!; try done; try lia; try (by left); by apply Forall_singleton.
  - injection Hloop as <- <-. destruct (Hstop ltac:(done)) as [Hcur Hrc].
    exists t1, (Invoke id (current_step task) (status task)
                  (inv_outcome (_execute_step task f (current_step task)
                                  (objects self))) :: susp).
    rewrite Hinv. cbn. unfold loop_bound. rewrite Hst, Hmr, Hcur, Hrc.
    split_and!; try done; try lia; try (by left); by apply Forall_singleton.
Qed.

(** A loop over steps that all return. *)
Lemma while_loop_all_return fuel sched id self task :
  tasks self !! id = Some task →
  checkpoint_interval self ≠ 0%nat →
  (∀ i f, (current_step task ≤ i)%nat → steps task !! i = Some f →
          always_returns f) →
  (length (steps task) - current_step task ≤ fuel)%nat →
  ∃ self' task' new,
    while_loop fuel sched id self = (self', LoopEnd) ∧
    tasks self' !! id = Some task' ∧
    trace self' = trace self ++ new ∧
    invocations id new =
      seq (current_step task) (length (steps task) - current_step task) ∧
    failure_messages id new = [] ∧
    current_step task' = (current_step task `max` length (steps task))%nat ∧
    steps task' = steps task ∧
    retry_count task' = retry_count task ∧
    error task' = error task.
Proof.
  revert sched self task.
  induction fuel as [|fuel IH]; intros sched self task Ht HK Hall Hfuel.
  { assert (steps task !! current_step task = None) as Hnone
      by (apply lookup_ge_None; lia).
    exists self, task, []. rewrite (while_loop_done _ _ _ _ _ Ht Hnone).
    rewrite app_nil_r.
    replace (length (steps task) - current_step task)%nat with 0%nat by lia.
    split_and!; try done. lia. }
  destruct (steps task !! current_step task) as [f|] eqn:Hf.
  2:{ exists self, task, []. rewrite (while_loop_done _ _ _ _ _ Ht Hf).
      apply lookup_ge_None in Hf. rewrite app_nil_r.
      replace (length (steps task) - current_step task)%nat with 0%nat by lia.
      split_and!; try done. lia. }
  erewrite while_loop_unfold by done.
  destruct (iteration _ _ _ _ _) as [self1 y] eqn:Hit.
  destruct (iteration_spec _ _ _ _ _ _ _ Ht Hit)
    as (t1 & susp & Ht1 & Hst & Hmr & Htr & Hsusp & HK1 & Hcase).
  destruct (Hall _ f (le_n _) Hf task (current_step task) (objects self))
    as [r Hr].
  rewrite Hr in Hcase, Htr. rewrite decide_False in Hcase by done.
  destruct Hcase as (-> & _ & Hcur & Hrc & Herr).
  pose proof (lookup_lt_Some _ _ _ Hf) as Hlt.
  destruct (IH (tl sched) self1 t1)
    as (self' & t' & new & Hloop & Ht' & Htr' & Hinv & Hfm & Hcur' & Hst' & Hrc'
        & Herr'); [done|congruence| |rewrite Hst, Hcur; lia|].
  { intros i g Hi. rewrite Hst. apply Hall. lia. }
  exists self', t',
    ((Invoke id (current_step task) (status task) (Returned r) :: susp) ++ new).
  rewrite invocations_app, failure_messages_app, invocations_call,
    failure_messages_call, Hinv, Hfm by done.
  split_and!; try done; try congruence.
  - rewrite Htr', Htr. by rewrite <- app_assoc.
  - rewrite Hst, Hcur. cbn.
    replace (length (steps task) - current_step task)%nat
      with (S (length (steps task) - (current_step task + 1)))%nat by lia.
    cbn. by rewrite Nat.add_1_r.
  - rewrite Hcur', Hst, Hcur. lia.
Qed.

(** *** Checkpoint files stay *)

Lemma write_file_lookup file dir i f :
  dir !! i = Some f →
  ∃ f', write_file file dir !! i = Some f' ∧
        json_file_name f' = json_file_name f ∧ (f' = f ∨ f' = file).
Proof.
  revert i. induction dir as [|g dir IH]; intros i Hi; [done|].
  cbn. destruct (decide (json_file_name g = json_file_name file)) as [Hn|Hn].
  - destruct i as [|i]; cbn in *.
    + injection Hi as <-. eauto.
    + eauto.
  - destruct i as [|i]; cbn in *; [eauto|]. by apply IH.
Qed.

Lemma elem_of_write_file file dir f :
  f ∈ write_file file dir → f = file ∨ f ∈ dir.
Proof.
  induction dir as [|g dir IH]; cbn.
  - intros ->%list_elem_of_singleton. by left.
  - case_decide.
    + intros [->|Hin]%elem_of_cons; [by left|]. right. by right.
    + intros [->|Hin]%elem_of_cons; [right; by left|].
      destruct (IH Hin) as [->|?]; [by left|]. right. by right.
Qed.

Lemma elem_of_write_file_new file dir : file ∈ write_file file dir.
Proof.
  induction dir as [|g dir IH]; cbn; [by left|].
  case_decide; [by left|by right].
Qed.

Lemma kept_since_same dir0 draws0 uuids s s' :
  Checkpoints s' = Checkpoints s → uuid_source s' = uuid_source s →
  uuid_draws s' = uuid_draws s →
  kept_since dir0 draws0 uuids s → kept_since dir0 draws0 uuids s'.
Proof.
  unfold kept_since, files_kept. intros -> -> ->. done.
Qed.

Lemma kept_since_draw dir0 draws0 uuids s :
  kept_since dir0 draws0 uuids s → kept_since dir0 draws0 uuids (draw s).
Proof.
  intros (Hu & Hd & Hk). split; [done|]. split; [cbn; lia|].
  intros i f Hi. destruct (Hk i f Hi) as (f' & ? & ? & Hc).
  exists f'. cbn. split; [done|]. split; [done|].
  destruct Hc as [?|(k & ? & ?)]; [by left|].
  right. exists k. split; [lia|done].
Qed.

Lemma kept_since_save_checkpoint dir0 draws0 uuids id s :
  kept_since dir0 draws0 uuids s →
  kept_since dir0 draws0 uuids (_save_checkpoint id s).
Proof.
  intros (Hu & Hd & Hk). unfold _save_checkpoint.
  destruct (tasks s !! id) as [t|]; [|done].
  split; [done|]. split; [cbn; lia|].
  intros i f Hi. destruct (Hk i f Hi) as (f' & Hf' & Hn & Hc). cbn.
  destruct (write_file_lookup
              {| json_file_name :=
                   id +:+ "_checkpoint_" +:+ uuid4 s +:+ ".json";
                 json_checkpoint :=
                   {| checkpoint_id := uuid4 s; ckpt_task_id := id;
                      step := current_step t; data := state_data t;
                      timestamp := datetime_now s |};
                 json_checkpoint_objects := objects s |}
              (Checkpoints s) i f' Hf') as (f'' & Hf'' & Hn' & Hc').
  exists f''. split; [exact Hf''|]. split; [congruence|].
  destruct Hc' as [->| ->].
  - destruct Hc as [->|(k & ? & ?)]; [by left|].
    right. exists k. split; [lia|done].
  - right. exists (uuid_draws s). split; [lia|done].
Qed.

Lemma kept_since_execute_task dir0 draws0 uuids sched id s :
  kept_since dir0 draws0 uuids s →
  kept_since dir0 draws0 uuids (execute_task sched id s).2.
Proof.
  apply (preserved_execute_task (kept_since dir0 draws0 uuids)); try done.
  - intros id' s' Hs. destruct (save_task_fields id' s')
      as (_&_&_&_&?&_&_&?&?). by eapply kept_since_same.
  - intros. by apply kept_since_save_checkpoint.
  - intros id' s' task s1 _ Hl Hs.
    apply load_task_inv in Hl as (file & h & _ & _ & ->). done.
Qed.

Lemma kept_since_resume_task dir0 draws0 uuids sched id s :
  kept_since dir0 draws0 uuids s →
  kept_since dir0 draws0 uuids (resume_task sched id s).2.
Proof.
  apply (preserved_resume_task (kept_since dir0 draws0 uuids)); try done.
  - intros id' s' Hs. destruct (save_task_fields id' s')
      as (_&_&_&_&?&_&_&?&?). by eapply kept_since_same.
  - intros. by apply kept_since_save_checkpoint.
  - intros id' s' Hs. unfold _restore_from_checkpoint.
    destruct (tasks s' !! id') as [t|]; [|done].
    by destruct (latest_checkpoint _).
  - intros id' s' task s1 _ Hl Hs.
    apply load_task_inv in Hl as (file & h & _ & _ & ->). done.
Qed.

Lemma kept_since_suspend_task dir0 draws0 uuids id s :
  kept_since dir0 draws0 uuids s →
  kept_since dir0 draws0 uuids (suspend_task id s).2.
Proof.
  apply (preserved_suspend_task (kept_since dir0 draws0 uuids)); try done.
  - intros id' s' Hs. destruct (save_task_fields id' s')
      as (_&_&_&_&?&_&_&?&?). by eapply kept_since_same.
  - intros. by apply kept_since_save_checkpoint.
Qed.

Lemma foldr_remove_task_fields ids s :
  Checkpoints (foldr remove_task s ids) = Checkpoints s ∧
  uuid_source (foldr remove_task s ids) = uuid_source s ∧
  uuid_draws (foldr remove_task s ids) = uuid_draws s ∧
  wall_clock (foldr remove_task s ids) = wall_clock s ∧
  clock_reads (foldr remove_task s ids) = clock_reads s ∧
  active_tasks (foldr remove_task s ids) = active_tasks s ∧
  trace (foldr remove_task s ids) = trace s.
Proof. induction ids as [|i ids IH]; [done|]. cbn. exact IH. Qed.

Lemma kept_since_run_call dir0 draws0 uuids s c :
  kept_since dir0 draws0 uuids s → kept_since dir0 draws0 uuids (run_call s c).
Proof.
  intros Hs. destruct c; cbn.
  - unfold create_task. cbv zeta. cbn [snd].
    match goal with
    | |- context [_save_task ?i ?s1] =>
      destruct (save_task_fields i s1) as (_&_&_&_&?&_&_&?&?);
      apply (kept_since_same _ _ _ s1); [done..|]
    end.
    apply (kept_since_same _ _ _ (draw s)); [done..|].
    by apply kept_since_draw.
  - by apply kept_since_execute_task.
  - by apply kept_since_resume_task.
  - by apply kept_since_suspend_task.
  - unfold cleanup_completed_tasks.
    destruct (cutoff_date days_old s) as [c|]; cbn.
    + destruct (foldr_remove_task_fields (to_remove c (tick s)) (tick s))
        as (? & ? & ? & _).
      by apply (kept_since_same _ _ _ s).
    + by apply (kept_since_same _ _ _ s).
  - by apply (kept_since_same _ _ _ s).
  - by apply (kept_since_same _ _ _ s).
Qed.

Lemma kept_since_run_calls dir0 draws0 uuids s calls :
  kept_since dir0 draws0 uuids s →
  kept_since dir0 draws0 uuids (run_calls s calls).
Proof.
  revert s. induction calls as [|c calls IH]; intros s Hs; [done|].
  cbn. by apply IH, kept_since_run_call.
Qed.

Lemma kept_since_start s :
  kept_since (Checkpoints s) (uuid_draws s) (uuid_source s) s.
Proof. split; [done|]. split; [done|]. intros i f Hi. eauto. Qed.

(** *** What a call may change in a task *)

Lemma evolves_refl t : evolves t t.
Proof. unfold evolves. split_and!; done. Qed.

Lemma evolves_trans t1 t2 t3 : evolves t1 t2 → evolves t2 t3 → evolves t1 t3.
Proof.
  unfold evolves.
  intros (?&?&?&?&?&?&?&?&?&?&Hs1&?) (?&?&?&?&?&?&?&?&?&?&Hs2&?).
  split_and!; try congruence; try lia; try (by etrans); auto.
  intros Hp. rewrite Hs2, Hs1; auto.
Qed.

Ltac evolves_update :=
  unfold evolves; cbn; split_and!;
  first [done | lia | by apply prefix_app_r | by intros; lia].

Lemma later_state_same id t self self' :
  tasks self' = tasks self → later_state id t self → later_state id t self'.
Proof. unfold later_state. by intros ->. Qed.

Lemma later_state_modify id0 t0 id f self :
  (∀ t, tasks self !! id = Some t → evolves t (f t)) →
  later_state id0 t0 self → later_state id0 t0 (modify_task id f self).
Proof.
  intros Hf (t' & Ht' & Hev). unfold later_state.
  destruct (decide (id = id0)) as [->|Hne].
  - rewrite lookup_modify_task, Ht'. cbn. eexists; split; [done|].
    eauto using evolves_trans.
  - rewrite lookup_modify_task_ne by done. eauto.
Qed.

Lemma later_state_save_task id0 t0 id self :
  later_state id0 t0 self → later_state id0 t0 (_save_task id self).
Proof. apply later_state_same, tasks_save_task. Qed.

Lemma later_state_save_checkpoint id0 t0 id self :
  later_state id0 t0 self → later_state id0 t0 (_save_checkpoint id self).
Proof.
  intros (t' & Ht' & Hev). unfold later_state.
  destruct (decide (id = id0)) as [->|Hne].
  - erewrite lookup_save_checkpoint by done. eexists; split; [done|].
    eapply evolves_trans; [done|]. evolves_update.
  - rewrite lookup_save_checkpoint_ne by done. eauto.
Qed.

Lemma later_state_suspend_task id0 t0 id self :
  later_state id0 t0 self → later_state id0 t0 (suspend_task id self).2.
Proof.
  intros HI. unfold suspend_task. destruct (tasks self !! id); [|done].
  case_decide; [|done]. cbn.
  apply later_state_save_task, later_state_save_checkpoint,
    later_state_modify; [|done].
  intros. evolves_update.
Qed.

Lemma later_state_other_coroutines id0 t0 waiting self :
  later_state id0 t0 self → later_state id0 t0 (other_coroutines waiting self).
Proof.
  revert self. induction waiting as [|id waiting IH]; intros self HI; [done|].
  cbn. pose proof (later_state_suspend_task id0 t0 id self HI).
  destruct (suspend_task id self). by apply IH.
Qed.

Lemma later_state_on_step_exception id0 t0 msg id self :
  later_state id0 t0 self → later_state id0 t0 (on_step_exception msg id self).1.
Proof.
  intros HI. unfold on_step_exception.
  assert (later_state id0 t0 (modify_task id (set_error (Some msg)) self))
    as HI1.
  { apply later_state_modify; [|done]. intros. evolves_update. }
  destruct (tasks _ !! id) as [task|] eqn:Ht; [|done]. case_decide; cbn.
  - apply later_state_modify; [|done].
    intros t Ht'. rewrite Ht in Ht'. injection Ht' as <-. evolves_update.
  - apply later_state_save_task, later_state_modify; [|done].
    intros. evolves_update.
Qed.

Lemma later_state_iteration id0 t0 waiting id task f self :
  later_state id0 t0 self →
  later_state id0 t0 (iteration waiting id task f self).1.
Proof.
  intros HI. unfold iteration.
  set (inv := _execute_step _ _ _ _).
  set (self1 := log _ _).
  assert (later_state id0 t0 self1) as HI1.
  { subst self1. apply (later_state_same _ _ (modify_task id
      (set_state_data (inv_state inv)) self)); [done|].
    apply later_state_modify; [|done]. intros. evolves_update. }
  clearbody self1.
  set (self2 := if iscoroutinefunction f then _ else _).
  assert (later_state id0 t0 self2) as HI2.
  { subst self2. destruct (iscoroutinefunction f);
      auto using later_state_other_coroutines. }
  clearbody self2.
  destruct (inv_outcome inv);
    [| by apply later_state_on_step_exception | done].
  set (self3 := modify_task _ _ _).
  assert (later_state id0 t0 self3) as HI3.
  { apply later_state_modify; [|done]. intros. evolves_update. }
  clearbody self3.
  case_decide; [by apply later_state_on_step_exception|].
  cbn. apply later_state_modify; [intros; evolves_update|].
  case_decide; auto using later_state_save_checkpoint.
Qed.

Lemma later_state_while_loop id0 t0 fuel sched id self :
  later_state id0 t0 self →
  later_state id0 t0 (while_loop fuel sched id self).1.
Proof.
  revert sched self. induction fuel as [|fuel IH]; intros sched self HI; cbn.
  - destruct (tasks self !! id) as [task|]; [|done].
    by destruct (steps task !! current_step task).
  - destruct (tasks self !! id) as [task|]; [|done].
    destruct (steps task !! current_step task) as [f|]; [|done].
    pose proof (later_state_iteration id0 t0 (hd [] sched) id task f self HI).
    destruct (iteration _ _ _ _ _) as [self1 []]; auto.
Qed.

Lemma later_state_complete_task id0 t0 id self :
  later_state id0 t0 self → later_state id0 t0 (complete_task id self).
Proof.
  intros HI. unfold complete_task.
  apply later_state_save_task.
  match goal with
  | |- later_state _ _ (with_active_tasks _ ?s) =>
    apply (later_state_same _ _ s); [done|]
  end.
  apply later_state_modify; [intros; evolves_update|].
  by apply (later_state_same _ _ self).
Qed.

Lemma later_state_on_keyboard_interrupt id0 t0 id self :
  later_state id0 t0 self →
  later_state id0 t0 (on_keyboard_interrupt id self).
Proof.
  intros HI. unfold on_keyboard_interrupt.
  apply later_state_save_task, later_state_save_checkpoint,
    later_state_modify; [|done].
  intros. evolves_update.
Qed.

Lemma later_state_execute_registered id0 t0 sched id task self :
  tasks self !! id = Some task →
  later_state id0 t0 self →
  later_state id0 t0 (execute_registered sched id task self).2.
Proof.
  intros Ht HI. unfold execute_registered. case_decide; [done|].
  set (self0 := if decide (status task = PENDING) then _ else _).
  assert (later_state id0 t0 self0) as HI0.
  { subst self0. case_decide as Hp; [|done].
    match goal with
    | |- later_state _ _ (with_active_tasks _ ?s) =>
      apply (later_state_same _ _ s); [done|]
    end.
    apply later_state_modify; [|by apply (later_state_same _ _ self)].
    intros t Ht'. cbn in Ht'. rewrite Ht in Ht'. injection Ht' as <-.
    unfold evolves. cbn. split_and!; done. }
  clearbody self0.
  pose proof (later_state_while_loop id0 t0 (loop_bound task) sched id self0 HI0).
  destruct (while_loop _ _ _ _) as [self1 []]; cbn;
    auto using later_state_complete_task, later_state_on_keyboard_interrupt.
Qed.

Lemma later_state_load id0 t0 id self task self1 :
  tasks self !! id = None → _load_task id self = Some (task, self1) →
  later_state id0 t0 self →
  later_state id0 t0 (with_tasks (<[id := task]> (tasks self1)) self1).
Proof.
  intros Hn Hl (t' & Ht' & Hev).
  apply load_task_inv in Hl as (file & h & _ & _ & ->).
  exists t'. split; [|done]. cbn. rewrite lookup_insert_ne; [done|].
  intros ->. congruence.
Qed.

Lemma later_state_execute_task id0 t0 sched id self :
  later_state id0 t0 self →
  later_state id0 t0 (execute_task sched id self).2.
Proof.
  intros HI. unfold execute_task.
  destruct (tasks self !! id) as [task|] eqn:Ht.
  - by apply later_state_execute_registered.
  - destruct (_load_task id self) as [[task self1]|] eqn:Hl; [|done].
    apply later_state_execute_registered.
    + cbn. by rewrite lookup_insert_eq.
    + eauto using later_state_load.
Qed.

Lemma later_state_resume_registered id0 t0 sched id task self :
  tasks self !! id = Some task →
  later_state id0 t0 self →
  later_state id0 t0 (resume_registered sched id task self).2.
Proof.
  intros Ht HI. unfold resume_registered. case_decide as Hst; [|done].
  assert (status task ≠ PENDING) as Hp by (destruct Hst; congruence).
  unfold _restore_from_checkpoint. rewrite Ht.
  destruct (latest_checkpoint (checkpoints task)) as [latest|].
  - apply later_state_execute_task, later_state_modify;
      [intros; evolves_update|].
    apply later_state_modify; [|done].
    intros t Ht'. rewrite Ht in Ht'. injection Ht' as <-.
    unfold evolves. cbn. split_and!; done.
  - apply later_state_execute_task, later_state_modify; [|done].
    intros t Ht'. rewrite Ht in Ht'. injection Ht' as <-.
    unfold evolves. cbn. split_and!; done.
Qed.

Lemma later_state_resume_task id0 t0 sched id self :
  later_state id0 t0 self →
  later_state id0 t0 (resume_task sched id self).2.
Proof.
  intros HI. unfold resume_task.
  destruct (tasks self !! id) as [task|] eqn:Ht.
  - by apply later_state_resume_registered.
  - destruct (_load_task id self) as [[task self1]|] eqn:Hl; [|done].
    apply later_state_resume_registered.
    + cbn. by rewrite lookup_insert_eq.
    + eauto using later_state_load.
Qed.

(** *** Calls leave the other tasks alone *)

Lemma untouched_refl id0 self : untouched id0 self self.
Proof. done. Qed.

Lemma untouched_trans id0 s1 s2 s3 :
  untouched id0 s1 s2 → untouched id0 s2 s3 → untouched id0 s1 s3.
Proof. unfold untouched. intros [? ?] [? ?]. split; congruence. Qed.

Lemma untouched_same id0 s s' :
  tasks s' = tasks s → Task_Queues s' = Task_Queues s → untouched id0 s s'.
Proof. unfold untouched. by intros -> ->. Qed.

Lemma untouched_modify id0 id f s :
  id ≠ id0 → untouched id0 s (modify_task id f s).
Proof. intros. split; [by apply lookup_modify_task_ne|done]. Qed.

Lemma untouched_save_task id0 id s :
  id ≠ id0 → untouched id0 s (_save_task id s).
Proof.
  intros. split; [by rewrite tasks_save_task|].
  unfold _save_task. destruct (tasks s !! id); [|done].
  cbn. by rewrite lookup_insert_ne.
Qed.

Lemma untouched_save_checkpoint id0 id s :
  id ≠ id0 → untouched id0 s (_save_checkpoint id s).
Proof.
  intros. split; [by apply lookup_save_checkpoint_ne|].
  by destruct (save_checkpoint_fields id s) as (_&_&_&_&->&_).
Qed.

Lemma quiet_untouched id0 s s' :
  untouched id0 s s' → quiet id0 s → quiet id0 s'.
Proof. unfold quiet. intros [-> _]. done. Qed.

Lemma untouched_suspend_task id0 id s :
  quiet id0 s → untouched id0 s (suspend_task id s).2.
Proof.
  intros Hq. unfold suspend_task.
  destruct (tasks s !! id) as [t|] eqn:Ht; [|done].
  case_decide as Hst; [|done]. cbn.
  assert (id ≠ id0) as Hne by (intros ->; by apply (Hq t)).
  match goal with
  | |- untouched _ _ (with_active_tasks _ ?s1) =>
    apply (untouched_trans _ _ s1); [|by apply untouched_same]
  end.
  eapply untouched_trans; [|by apply untouched_save_task].
  eapply untouched_trans; [|by apply untouched_save_checkpoint].
  by apply untouched_modify.
Qed.

Lemma untouched_other_coroutines id0 waiting s :
  quiet id0 s → untouched id0 s (other_coroutines waiting s).
Proof.
  revert s. induction waiting as [|id waiting IH]; intros s Hq; [done|].
  cbn. pose proof (untouched_suspend_task id0 id s Hq) as Hu.
  destruct (suspend_task id s) as [ok s1]. cbn in Hu.
  eapply untouched_trans; [exact Hu|].
  eapply untouched_trans; [|apply IH].
  - by apply untouched_same.
  - eapply (quiet_untouched _ s); [|done].
    eapply untouched_trans; [exact Hu|]. by apply untouched_same.
Qed.

Lemma untouched_on_step_exception id0 msg id s :
  id ≠ id0 → untouched id0 s (on_step_exception msg id s).1.
Proof.
  intros Hne. unfold on_step_exception.
  assert (untouched id0 s (modify_task id (set_error (Some msg)) s)) as H1
    by (by apply untouched_modify).
  destruct (tasks _ !! id); [|done]. case_decide; cbn.
  - eapply untouched_trans; [exact H1|]. by apply untouched_modify.
  - eapply untouched_trans; [exact H1|].
    eapply untouched_trans; [|by apply untouched_save_task].
    by apply untouched_modify.
Qed.

Lemma untouched_iteration id0 waiting id task f s :
  id ≠ id0 → quiet id0 s → untouched id0 s (iteration waiting id task f s).1.
Proof.
  intros Hne Hq. unfold iteration.
  set (inv := _execute_step _ _ _ _).
  set (self1 := log _ _).
  assert (untouched id0 s self1) as H1.
  { subst self1. split; [|done]. cbn. by rewrite lookup_alter_ne. }
  clearbody self1.
  set (self2 := if iscoroutinefunction f then _ else _).
  assert (untouched id0 s self2) as H2.
  { subst self2. destruct (iscoroutinefunction f); [|done].
    eapply untouched_trans; [exact H1|].
    apply untouched_other_coroutines. by apply (quiet_untouched _ s). }
  clearbody self2.
  destruct (inv_outcome inv); [| |done].
  - set (self3 := modify_task _ _ _).
    assert (untouched id0 s self3) as H3.
    { eapply untouched_trans; [exact H2|]. by apply untouched_modify. }
    clearbody self3.
    case_decide.
    { eapply untouched_trans; [exact H3|].
      by apply untouched_on_step_exception. }
    cbn. eapply untouched_trans; [|by apply untouched_modify].
    case_decide; [|done].
    eapply untouched_trans; [exact H3|]. by apply untouched_save_checkpoint.
  - eapply untouched_trans; [exact H2|].
    by apply untouched_on_step_exception.
Qed.

Lemma untouched_while_loop id0 fuel sched id s :
  id ≠ id0 → quiet id0 s → untouched id0 s (while_loop fuel sched id s).1.
Proof.
  intros Hne. revert sched s.
  induction fuel as [|fuel IH]; intros sched s Hq; cbn.
  - destruct (tasks s !! id) as [task|]; [|done].
    by destruct (steps task !! current_step task).
  - destruct (tasks s !! id) as [task|]; [|done].
    destruct (steps task !! current_step task) as [f|]; [|done].
    pose proof (untouched_iteration id0 (hd [] sched) id task f s Hne Hq) as Hu.
    destruct (iteration _ _ _ _ _) as [self1 []]; cbn in *; [|done..].
    eapply untouched_trans; [exact Hu|].
    apply IH. by apply (quiet_untouched _ s).
Qed.

Lemma untouched_complete_task id0 id s :
  id ≠ id0 → untouched id0 s (complete_task id s).
Proof.
  intros Hne. unfold complete_task.
  eapply untouched_trans; [|by apply untouched_save_task].
  split; [|done]. cbn. by rewrite lookup_alter_ne.
Qed.

Lemma untouched_on_keyboard_interrupt id0 id s :
  id ≠ id0 → untouched id0 s (on_keyboard_interrupt id s).
Proof.
  intros Hne. unfold on_keyboard_interrupt.
  eapply untouched_trans; [|by apply untouched_save_task].
  eapply untouched_trans; [|by apply untouched_save_checkpoint].
  by apply untouched_modify.
Qed.

Lemma untouched_execute_registered id0 sched id task s :
  id ≠ id0 → quiet id0 s →
  untouched id0 s (execute_registered sched id task s).2.
Proof.
  intros Hne Hq. unfold execute_registered. case_decide; [done|].
  set (self0 := if decide (status task = PENDING) then _ else _).
  assert (untouched id0 s self0) as H0.
  { subst self0. case_decide; [|done]. split; [|done].
    cbn. by rewrite lookup_alter_ne. }
  clearbody self0.
  pose proof (untouched_while_loop id0 (loop_bound task) sched id self0 Hne
                (quiet_untouched _ _ _ H0 Hq)) as H1.
  destruct (while_loop _ _ _ _) as [self1 []]; cbn in *;
    eauto using untouched_trans, untouched_complete_task,
      untouched_on_keyboard_interrupt.
Qed.

Lemma untouched_load id0 id s task s1 :
  id ≠ id0 → _load_task id s = Some (task, s1) →
  untouched id0 s (with_tasks (<[id := task]> (tasks s1)) s1).
Proof.
  intros Hne Hl. apply load_task_inv in Hl as (file & h & _ & _ & ->).
  split; [|done]. cbn. by rewrite lookup_insert_ne.
Qed.

Lemma untouched_execute_task id0 sched id s :
  id ≠ id0 → quiet id0 s → untouched id0 s (execute_task sched id s).2.
Proof.
  intros Hne Hq. unfold execute_task.
  destruct (tasks s !! id) as [task|] eqn:Ht.
  - by apply untouched_execute_registered.
  - destruct (_load_task id s) as [[task s1]|] eqn:Hl; [|done].
    pose proof (untouched_load id0 id s task s1 Hne Hl) as Hu.
    eapply untouched_trans; [exact Hu|].
    apply untouched_execute_registered; [done|].
    by apply (quiet_untouched _ s).
Qed.

Lemma untouched_resume_registered id0 sched id task s :
  id ≠ id0 → quiet id0 s →
  untouched id0 s (resume_registered sched id task s).2.
Proof.
  intros Hne Hq. unfold resume_registered. case_decide; [|done].
  assert (untouched id0 s (_restore_from_checkpoint id s).2) as Hr.
  { unfold _restore_from_checkpoint. destruct (tasks s !! id); [|done].
    destruct (latest_checkpoint _); [|done]. by apply untouched_modify. }
  pose proof (restore_from_checkpoint_false id s) as Hsame.
  destruct (_restore_from_checkpoint id s) as [[] s1]; cbn in *.
  - eapply untouched_trans; [exact Hr|].
    eapply untouched_trans; [by apply (untouched_modify _ id)|].
    apply untouched_execute_task; [done|].
    eapply quiet_untouched; [by apply untouched_modify|].
    by apply (quiet_untouched _ s).
  - rewrite Hsame by done.
    eapply untouched_trans; [by apply (untouched_modify _ id)|].
    apply untouched_execute_task; [done|].
    eapply quiet_untouched; [by apply untouched_modify|done].
Qed.

Lemma untouched_resume_task id0 sched id s :
  id ≠ id0 → quiet id0 s → untouched id0 s (resume_task sched id s).2.
Proof.
  intros Hne Hq. unfold resume_task.
  destruct (tasks s !! id) as [task|] eqn:Ht.
  - by apply untouched_resume_registered.
  - destruct (_load_task id s) as [[task s1]|] eqn:Hl; [|done].
    pose proof (untouched_load id0 id s task s1 Hne Hl) as Hu.
    eapply untouched_trans; [exact Hu|].
    apply untouched_resume_registered; [done|].
    by apply (quiet_untouched _ s).
Qed.

(** *** Between calls every task is at rest *)

Lemma settled_to_dict t : settled t → settled (to_dict t).
Proof. done. Qed.

Lemma settled_terminal t :
  status t = COMPLETED ∨ status t = FAILED → settled t.
Proof.
  intros Hst. split.
  - destruct Hst as [->| ->]; [right; by left|right; right; by left].
  - intros Hi. destruct Hst; congruence.
Qed.

Lemma settled_quiet id self :
  (∀ t, tasks self !! id = Some t → settled t) → quiet id self.
Proof.
  intros Hs t Ht Hst. destruct (Hs t Ht) as [Hrest _].
  unfold at_rest in Hrest. rewrite Hst in Hrest.
  destruct Hrest as [?|[?|[?|?]]]; discriminate.
Qed.

(** A loop left through [return False] has marked the task [FAILED] and
    saved it. *)
Lemma while_loop_return_false fuel sched id self task self' :
  tasks self !! id = Some task →
  while_loop fuel sched id self = (self', LoopReturnFalse) →
  ∃ t', tasks self' !! id = Some t' ∧ status t' = FAILED ∧
        Task_Queues self' !! id =
          Some {| json_task := to_dict t';
                  json_task_objects := objects self' |}.
Proof.
  revert sched self task.
  induction fuel as [|fuel IH]; intros sched self task Ht Hloop.
  { cbn in Hloop. rewrite Ht in Hloop.
    by destruct (steps task !! current_step task). }
  destruct (steps task !! current_step task) as [f|] eqn:Hf.
  2:{ erewrite while_loop_done in Hloop by done. done. }
  erewrite while_loop_unfold in Hloop by done.
  destruct (iteration _ _ _ _ _) as [self1 y] eqn:Hit.
  destruct (iteration_spec _ _ _ _ _ _ _ Ht Hit)
    as (t1 & susp & Ht1 & _ & _ & _ & _ & _ & Hcase).
  destruct y; [by eapply IH| |done].
  injection Hloop as <-. exists t1. split; [done|].
  unfold failure_case in Hcase.
  destruct (inv_outcome _); repeat case_decide; destruct_and?; done.
Qed.

(** A run that enters the loop ends with the task [COMPLETED], [FAILED] or
    [INTERRUPTED], and in each case the task file has been rewritten. *)
Lemma execute_registered_settles sched id task self :
  tasks self !! id = Some task →
  status task ≠ COMPLETED → status task ≠ FAILED →
  ∃ task' h,
    tasks (execute_registered sched id task self).2 !! id = Some task' ∧
    settled task' ∧ status task' ≠ PENDING ∧
    Task_Queues (execute_registered sched id task self).2 !! id =
      Some {| json_task := to_dict task'; json_task_objects := h |}.
Proof.
  intros Ht Hc Hf.
  destruct (execute_registered_enter sched id task self Ht Hc Hf)
    as (self0 & task0 & Ht0 & Hfr & _ & _ & _ & _ & _ & _ & _ & _ & ->).
  destruct Hfr as (Hst & Hcur & Hrc & Hmr & _ & _).
  pose proof (while_loop_fuel (loop_bound task) sched id self0 task0 Ht0)
    as Hfuel.
  assert (later_state id task0 (while_loop (loop_bound task) sched id self0).1)
    as (t1 & Ht1 & _).
  { apply later_state_while_loop. exists task0. auto using evolves_refl. }
  destruct (while_loop _ _ _ _) as [self1 x] eqn:Hloop.
  cbn [fst snd] in *.
  destruct x.
  - destruct (complete_task_spec id self1 t1 Ht1) as (Ht' & Hq' & _).
    eexists _, _. split; [exact Ht'|]. split; [|split; [|exact Hq']].
    + split; [right; by left|]. cbn. done.
    + cbn. done.
  - destruct (while_loop_return_false _ _ _ _ _ _ Ht0 Hloop)
      as (t' & Ht' & Hst' & Hq').
    exists t', (objects self1). split; [done|]. split; [|split; [|done]].
    + split; [right; right; by left|]. by rewrite Hst'.
    + by rewrite Hst'.
  - destruct (on_keyboard_interrupt_spec id self1 t1 Ht1) as (Ht' & Hq' & _).
    eexists _, _. split; [exact Ht'|]. split; [|split; [|exact Hq']].
    + split; [by repeat right|]. cbn. intros _.
      eexists. rewrite last_snoc. done.
    + cbn. done.
  - exfalso. apply Hfuel; [|done]. unfold loop_bound.
    rewrite Hst, Hcur, Hrc, Hmr. lia.
Qed.

Lemma execute_task_own sched id self :
  (∃ t, tasks self !! id = Some t ∧
        status t ≠ COMPLETED ∧ status t ≠ FAILED) ∨
  ((∀ t, tasks self !! id = Some t → settled t) ∧
   (∀ f, Task_Queues self !! id = Some f → settled (json_task f))) →
  (∀ t, tasks (execute_task sched id self).2 !! id = Some t → settled t) ∧
  (∀ f, Task_Queues (execute_task sched id self).2 !! id = Some f →
        settled (json_task f)).
Proof.
  assert (∀ task s,
            tasks s !! id = Some task →
            status task ≠ COMPLETED → status task ≠ FAILED →
            (∀ t, tasks (execute_registered sched id task s).2 !! id = Some t →
                  settled t) ∧
            (∀ f, Task_Queues (execute_registered sched id task s).2 !! id
                  = Some f → settled (json_task f))) as Hrun.
  { intros task s Ht Hc Hf.
    destruct (execute_registered_settles sched id task s Ht Hc Hf)
      as (task' & h & -> & Hs & _ & ->).
    split; [by intros t [= <-]|by intros f [= <-]]. }
  assert (∀ task s,
            status task = COMPLETED ∨ status task = FAILED →
            (execute_registered sched id task s).2 = s) as Hstop.
  { intros task s Hst. unfold execute_registered. by rewrite decide_True. }
  intros [(t & Ht & Hc & Hf)|[Hreg Hfile]]; unfold execute_task.
  - rewrite Ht. by apply Hrun.
  - destruct (tasks self !! id) as [task|] eqn:Ht.
    + destruct (decide (status task = COMPLETED ∨ status task = FAILED))
        as [Hst|Hst].
      * rewrite Hstop by done. rewrite Ht. auto.
      * apply Hrun; [done|intros ?; apply Hst; by left|intros ?; apply Hst; by right].
    + destruct (_load_task id self) as [[task s0]|] eqn:Hl.
      2:{ cbn. rewrite Ht, (load_task_None _ _ Hl). done. }
      apply load_task_inv in Hl as (file & h & Hq & _ & ->).
      set (s1 := with_tasks _ _).
      assert (tasks s1 !! id = Some task) as Ht1
        by (subst s1; cbn; by rewrite lookup_insert_eq).
      destruct (decide (status task = COMPLETED ∨ status task = FAILED))
        as [Hst|Hst].
      * rewrite Hstop by done. rewrite Ht1. subst s1. cbn. rewrite Hq.
        split; [|intros f [= <-]; by apply Hfile].
        intros t [= <-]. by apply settled_terminal.
      * apply Hrun; [done|intros ?; apply Hst; by left|intros ?; apply Hst; by right].
Qed.

Lemma resume_registered_own sched id task self :
  tasks self !! id = Some task →
  (¬ (status task = INTERRUPTED ∨ status task = SUSPENDED) → settled task) →
  (∀ f, Task_Queues self !! id = Some f → settled (json_task f)) →
  (∀ t, tasks (resume_registered sched id task self).2 !! id = Some t →
        settled t) ∧
  (∀ f, Task_Queues (resume_registered sched id task self).2 !! id = Some f →
        settled (json_task f)).
Proof.
  intros Ht Hs Hfile. unfold resume_registered.
  case_decide; [|cbn; rewrite Ht; split; [intros t [= <-]; auto|done]].
  unfold _restore_from_checkpoint. rewrite Ht.
  destruct (latest_checkpoint _) as [latest|];
    apply execute_task_own; left;
    rewrite ?lookup_modify_task, Ht; cbn; eexists; (split; [done|]); done.
Qed.

Lemma others_settled_untouched (A B : RalphWiggumEngine) id :
  engine_settled A →
  (∀ id0, id0 ≠ id → untouched id0 A B) →
  (∀ t, tasks B !! id = Some t → settled t) →
  (∀ f, Task_Queues B !! id = Some f → settled (json_task f)) →
  engine_settled B.
Proof.
  intros [Hreg Hfile] Hu Ht Hf. split.
  - intros id0 t Hl. destruct (decide (id0 = id)) as [->|Hne]; [auto|].
    destruct (Hu id0 Hne) as [Heq _]. rewrite Heq in Hl. eauto.
  - intros id0 f Hl. destruct (decide (id0 = id)) as [->|Hne]; [auto|].
    destruct (Hu id0 Hne) as [_ Heq]. rewrite Heq in Hl. eauto.
Qed.

Lemma engine_settled_quiet self id : engine_settled self → quiet id self.
Proof. intros [Hreg _]. apply settled_quiet. eauto. Qed.

Lemma engine_settled_execute_task sched id self :
  engine_settled self → engine_settled (execute_task sched id self).2.
Proof.
  intros Hs. apply (others_settled_untouched self _ id); [done|..].
  - intros id0 Hne. apply untouched_execute_task; [done|].
    by apply engine_settled_quiet.
  - apply execute_task_own. right. destruct Hs as [Hreg Hfile]. eauto.
  - apply execute_task_own. right. destruct Hs as [Hreg Hfile]. eauto.
Qed.

Lemma resume_task_own sched id self :
  engine_settled self →
  (∀ t, tasks (resume_task sched id self).2 !! id = Some t → settled t) ∧
  (∀ f, Task_Queues (resume_task sched id self).2 !! id = Some f →
        settled (json_task f)).
Proof.
  intros [Hreg Hfile]. unfold resume_task.
  destruct (tasks self !! id) as [task|] eqn:Ht.
  - apply resume_registered_own; eauto.
  - destruct (_load_task id self) as [[task s0]|] eqn:Hl.
    2:{ cbn. rewrite Ht, (load_task_None _ _ Hl). done. }
    apply load_task_inv in Hl as (file & h & Hq & Hld & ->).
    apply resume_registered_own.
    + cbn. by rewrite lookup_insert_eq.
    + intros Hst. destruct (Hfile id file Hq) as [Hrest _].
      destruct Hld as (_&_&_&_&Hs&_). rewrite <- Hs in Hrest.
      split; [done|]. intros Hi. destruct Hst. by left.
    + cbn. rewrite Hq. intros f [= <-]. eauto.
Qed.

Lemma engine_settled_resume_task sched id self :
  engine_settled self → engine_settled (resume_task sched id self).2.
Proof.
  intros Hs. apply (others_settled_untouched self _ id); [done|..].
  - intros id0 Hne. apply untouched_resume_task; [done|].
    by apply engine_settled_quiet.
  - by apply resume_task_own.
  - by apply resume_task_own.
Qed.

Lemma suspend_task_at_rest id self :
  engine_settled self → suspend_task id self = (false, self).
Proof.
  intros Hs. unfold suspend_task.
  destruct (tasks self !! id) as [t|] eqn:Ht; [|done].
  rewrite decide_False; [done|]. by apply (engine_settled_quiet self id Hs).
Qed.

Lemma engine_settled_create_task name steps description priority self :
  engine_settled self →
  engine_settled (create_task name steps description priority self).2.
Proof.
  intros [Hreg Hfile]. unfold create_task. cbv zeta. cbn [snd].
  set (task := set_priority _ _).
  assert (settled task) as Hs by (split; [by left|done]).
  unfold _save_task. cbn. rewrite lookup_insert_eq. cbn.
  split; cbn.
  - intros id t Hl. destruct (decide (id = uuid4 self)) as [->|Hne].
    + rewrite lookup_insert_eq in Hl. by injection Hl as <-.
    + rewrite lookup_insert_ne in Hl by done. eauto.
  - intros id f Hl. destruct (decide (id = uuid4 self)) as [->|Hne].
    + rewrite lookup_insert_eq in Hl. by injection Hl as <-.
    + rewrite lookup_insert_ne in Hl by done. eauto.
Qed.

Lemma engine_settled_cleanup days self :
  engine_settled self →
  engine_settled (cleanup_completed_tasks days self).2.
Proof.
  intros [Hreg Hfile]. unfold cleanup_completed_tasks.
  destruct (cutoff_date days self) as [cutoff|]; [|done]. cbn.
  set (ids := to_remove _ _).
  split.
  - intros id t Hl.
    destruct (lookup_foldr_remove_task ids id (tick self)) as (Heq & _).
    rewrite Heq in Hl. case_decide; [done|]. eauto.
  - intros id f Hl.
    destruct (lookup_foldr_remove_task ids id (tick self)) as (_ & Heq & _).
    rewrite Heq in Hl. case_decide; [done|]. eauto.
Qed.

Lemma engine_settled_run_call self c :
  engine_settled self → engine_settled (run_call self c).
Proof.
  intros Hs. destruct c; cbn.
  - by apply engine_settled_create_task.
  - by apply engine_settled_execute_task.
  - by apply engine_settled_resume_task.
  - by rewrite suspend_task_at_rest.
  - by apply engine_settled_cleanup.
  - done.
  - destruct Hs as [_ Hfile]. split; [|done]. intros id t Hl. done.
Qed.

Lemma engine_settled_run_calls self calls :
  engine_settled self → engine_settled (run_calls self calls).
Proof.
  revert self. induction calls as [|c calls IH]; intros self Hs; [done|].
  cbn. by apply IH, engine_settled_run_call.
Qed.

Lemma engine_settled_new clock uuids : engine_settled (new_engine clock uuids).
Proof. split; intros id x Hl; done. Qed.

(** Restoring a checkpoint that holds the task's own step and state only
    changes the status. *)
Lemma restore_own_checkpoint id task c self :
  tasks self !! id = Some task →
  step c = current_step task → data c = state_data task →
  modify_task id (set_status IN_PROGRESS)
    (modify_task id
       (fun t => set_status CHECKPOINTED
                   (set_state_data (data c) (set_current_step (step c) t)))
       self)
  = modify_task id (set_status IN_PROGRESS) self.
Proof.
  intros Ht Hstep Hdata. unfold modify_task, with_tasks. cbn. f_equal.
  apply map_eq. intros i. destruct (decide (i = id)) as [->|Hne].
  - rewrite !lookup_alter_eq, Ht. cbn. rewrite Hstep, Hdata.
    by destruct task.
  - by rewrite !lookup_alter_ne.
Qed.

(** *** Tasks read back from their file *)

(** A task without steps completes at once. *)
Lemma execute_registered_no_steps sched id task self :
  tasks self !! id = Some task →
  steps task = [] →
  status task ≠ COMPLETED → status task ≠ FAILED →
  ∃ self' task',
    execute_registered sched id task self = (true, self') ∧
    trace self' = trace self ∧
    tasks self' !! id = Some task' ∧
    status task' = COMPLETED ∧ steps task' = [] ∧
    current_step task' = current_step task ∧
    state_data task' = state_data task.
Proof.
  intros Ht Hnil Hc Hf.
  destruct (execute_registered_enter sched id task self Ht Hc Hf)
    as (self0 & task0 & Ht0 & Hfr & _ & _ & Htr0 & _ & _ & _ & _ & _ & ->).
  destruct Hfr as (Hst & Hcur & _ & _ & Hsd & _).
  rewrite (while_loop_done _ _ _ _ task0 Ht0)
    by (by rewrite Hst, Hnil).
  destruct (complete_task_spec id self0 task0 Ht0) as (Ht' & _ & Htr' & _).
  eexists _, _. split; [done|]. split; [by rewrite Htr', Htr0|].
  split; [exact Ht'|]. cbn. split_and!; try done; congruence.
Qed.

(** *** A checkpoint interval of zero *)

Lemma while_loop_interval_zero_fails fuel sched id self task f :
  checkpoint_interval self = 0%nat →
  tasks self !! id = Some task →
  steps task !! current_step task = Some f →
  always_returns f →
  (max_retries task - retry_count task < fuel)%nat →
  ∃ self' task' new,
    while_loop fuel sched id self = (self', LoopReturnFalse) ∧
    tasks self' !! id = Some task' ∧
    trace self' = trace self ++ new ∧
    invocations id new =
      replicate (S (max_retries task - retry_count task)) (current_step task) ∧
    failure_messages id new = [] ∧
    status task' = FAILED ∧
    current_step task' = current_step task ∧
    error task' = Some zero_division_message.
Proof.
  revert sched self task.
  induction fuel as [|fuel IH]; intros sched self task HK Ht Hf Hret Hfuel;
    [lia|].
  erewrite while_loop_unfold by done.
  destruct (iteration _ _ _ _ _) as [self1 x] eqn:Hit.
  destruct (iteration_spec _ _ _ _ _ _ _ Ht Hit)
    as (t1 & susp & Ht1 & Hst & Hmr & Htr & Hsusp & HK1 & Hcase).
  destruct (Hret task (current_step task) (objects self)) as [r Hr].
  rewrite Hr in Hcase, Htr. rewrite decide_True in Hcase by done.
  destruct Hcase as (Herr & Hcur & Hcase).
  case_decide as Hlt.
  - destruct Hcase as [-> Hrc].
    destruct (IH (tl sched) self1 t1)
      as (self' & t' & new & Hloop & ? & Htr' & Hinv & Hfm & ? & ? & ?);
      [congruence|done|congruence|done|lia|].
    exists self', t',
      (Invoke id (current_step task) (status task) (Returned r) :: susp ++ new).
    split; [done|]. split; [done|].
    split; [rewrite Htr', Htr; by rewrite <- app_assoc|].
    split.
    { rewrite app_comm_cons, invocations_app, invocations_call, Hinv by done.
      rewrite Hmr, Hrc, Hcur. cbn. f_equal.
      replace (max_retries task - retry_count task)%nat
        with (S (max_retries task - (retry_count task + 1)))%nat by lia.
      done. }
    split.
    { by rewrite app_comm_cons, failure_messages_app, failure_messages_call,
        Hfm by done. }
    split_and!; congruence.
  - destruct Hcase as (-> & Hrc & Hfailed & Hfile).
    exists self1, t1,
      (Invoke id (current_step task) (status task) (Returned r) :: susp).
    split; [done|]. split; [done|]. split; [done|].
    split.
    { rewrite invocations_call by done.
      by replace (max_retries task - retry_count task)%nat with 0%nat by lia. }
    split; [by rewrite failure_messages_call|done].
Qed.

(** *** The list of active tasks *)

Lemma active_on_step_exception msg id s :
  active_tasks (on_step_exception msg id s).1 = active_tasks s.
Proof.
  unfold on_step_exception. destruct (tasks _ !! id); [|done].
  case_decide; cbn; [done|].
  match goal with
  | |- context [_save_task ?i ?s] =>
    by destruct (save_task_fields i s) as (_&_&_&->&_)
  end.
Qed.

Lemma active_save_checkpoint id s :
  active_tasks (_save_checkpoint id s) = active_tasks s.
Proof. by destruct (save_checkpoint_fields id s) as (_&_&_&->&_). Qed.

Lemma active_iteration_alone id task f s :
  active_tasks (iteration [] id task f s).1 = active_tasks s.
Proof.
  unfold iteration.
  set (inv := _execute_step _ _ _ _).
  set (self1 := log _ _).
  assert (active_tasks self1 = active_tasks s) as H1 by done.
  clearbody self1.
  set (self2 := if iscoroutinefunction f then _ else _).
  assert (active_tasks self2 = active_tasks s) as H2
    by (subst self2; by destruct (iscoroutinefunction f)).
  clearbody self2.
  destruct (inv_outcome inv); [| by rewrite active_on_step_exception | done].
  set (self3 := modify_task _ _ _).
  assert (active_tasks self3 = active_tasks s) as H3 by done.
  clearbody self3.
  case_decide; [by rewrite active_on_step_exception|].
  cbn. case_decide; [by rewrite active_save_checkpoint|done].
Qed.

Lemma active_while_loop_alone fuel id s :
  active_tasks (while_loop fuel [] id s).1 = active_tasks s.
Proof.
  revert s. induction fuel as [|fuel IH]; intros s; cbn.
  - destruct (tasks s !! id) as [task|]; [|done].
    by destruct (steps task !! current_step task).
  - destruct (tasks s !! id) as [task|]; [|done].
    destruct (steps task !! current_step task) as [f|]; [|done].
    pose proof (active_iteration_alone id task f s) as Hit.
    destruct (iteration _ _ _ _ _) as [self1 []]; cbn in *; [|done..].
    by rewrite IH.
Qed.

(** *** [run_pending_tasks] *)

Lemma execute_task_not_pending sched id self t0 :
  tasks self !! id = Some t0 →
  ∃ t1, tasks (execute_task sched id self).2 !! id = Some t1 ∧
        status t1 ≠ PENDING ∧ evolves t0 t1.
Proof.
  intros Ht.
  destruct (later_state_execute_task id t0 sched id self) as (t1 & Ht1 & Hev);
    [exists t0; auto using evolves_refl|].
  exists t1. split; [done|]. split; [|done].
  revert Ht1. unfold execute_task. rewrite Ht.
  destruct (decide (status t0 = COMPLETED ∨ status t0 = FAILED)) as [Hst|Hst].
  - unfold execute_registered. rewrite decide_True by done. cbn.
    rewrite Ht. intros [= <-]. destruct Hst; congruence.
  - destruct (execute_registered_settles sched id t0 self Ht)
      as (t' & h & -> & _ & Hnp & _);
      [intros ?; apply Hst; by left|intros ?; apply Hst; by right|].
    by intros [= <-].
Qed.

Lemma later_state_run_all id t0 (scheds : string → list (list string)) l self :
  later_state id t0 self →
  later_state id t0
    (foldl (fun self task_id =>
              (execute_task (scheds task_id) task_id self).2) self l).
Proof.
  revert self. induction l as [|i l IH]; intros self HI; [done|].
  cbn. by apply IH, later_state_execute_task.
Qed.

Lemma run_all_not_pending id t0 (scheds : string → list (list string)) l self :
  id ∈ l → later_state id t0 self →
  ∃ t, tasks (foldl (fun self task_id =>
                       (execute_task (scheds task_id) task_id self).2) self l)
         !! id = Some t ∧
       status t ≠ PENDING ∧ evolves t0 t.
Proof.
  revert self. induction l as [|i l IH]; intros self Hin HI.
  { by apply not_elem_of_nil in Hin. }
  cbn. destruct (decide (i = id)) as [->|Hne].
  - destruct HI as (t' & Ht' & Hev).
    destruct (execute_task_not_pending (scheds id) id self t' Ht')
      as (t1 & Ht1 & Hnp & Hev1).
    destruct (later_state_run_all id t1 scheds l
                (execute_task (scheds id) id self).2)
      as (t2 & Ht2 & Hev2); [exists t1; auto using evolves_refl|].
    exists t2. split; [done|]. split.
    + destruct Hev2 as (_&_&_&_&_&_&_&_&_&Hkeep&_). auto.
    + eauto using evolves_trans.
  - apply elem_of_cons in Hin as [->|Hin]; [done|].
    apply IH; [done|]. by apply later_state_execute_task.
Qed.

(** *** Periodic checkpoints *)

(** One pass of the loop, undisturbed, with a step that returns. *)
Lemma iteration_alone_returned id task f self r :
  tasks self !! id = Some task →
  checkpoint_interval self ≠ 0%nat →
  inv_outcome (_execute_step task f (current_step task) (objects self))
    = Returned r →
  ∃ self' task',
    iteration [] id task f self = (self', Continue) ∧
    tasks self' !! id = Some task' ∧
    checkpoint_interval self' = checkpoint_interval self ∧
    steps task' = steps task ∧
    current_step task' = (current_step task + 1)%nat ∧
    trace self' =
      trace self ++
        [Invoke id (current_step task) (status task) (Returned r)] ∧
    ∃ written,
      checkpoints task' = checkpoints task ++ written ∧
      step <$> written =
        (if decide (checkpoint_due (checkpoint_interval self)
                      (current_step task))
         then [current_step task] else []) ∧
      Forall (fun c => step c = current_step task ∧
                       data c !! step_key (step c) = Some r) written.
Proof.
  intros Ht HK Hr. unfold iteration. rewrite Hr.
  set (inv := _execute_step _ _ _ _) in *.
  set (self1 := log _ _).
  assert (tasks self1 !! id = Some (set_state_data (inv_state inv) task))
    as Ht1 by (subst self1; cbn; by rewrite lookup_alter_eq, Ht).
  assert (checkpoint_interval self1 = checkpoint_interval self) as HK1 by done.
  assert (trace self1 =
            trace self ++
              [Invoke id (current_step task) (status task) (Returned r)])
    as Htr1 by done.
  clearbody self1.
  replace (if iscoroutinefunction f then other_coroutines [] self1 else self1)
    with self1 by (by destruct (iscoroutinefunction f)).
  set (self3 := modify_task _ _ _).
  assert (tasks self3 !! id =
            Some (set_state_data
                    (<[step_key (current_step task) := r]> (inv_state inv))
                    task)) as Ht3
    by (subst self3; by rewrite lookup_modify_task, Ht1).
  assert (checkpoint_interval self3 = checkpoint_interval self) as HK3 by done.
  assert (trace self3 = trace self1) as Htr3 by done.
  clearbody self3.
  rewrite decide_False by congruence.
  rewrite HK3. unfold checkpoint_due.
  destruct (decide (((current_step task + 1) mod checkpoint_interval self)%nat
                    = 0%nat)) as [Hdue|Hdue].
  - eexists _, _. split; [done|].
    rewrite lookup_modify_task. erewrite lookup_save_checkpoint by done.
    split; [done|]. cbn.
    destruct (save_checkpoint_fields id self3) as (_ & -> & -> & _).
    split; [done|]. split; [done|]. split; [done|].
    split; [by rewrite Htr3, Htr1|].
    eexists. split; [done|]. split; [done|].
    apply Forall_singleton. cbn. by rewrite lookup_insert_eq.
  - eexists _, _. split; [done|].
    rewrite lookup_modify_task, Ht3.
    split; [done|]. cbn.
    split; [done|]. split; [done|]. split; [done|].
    split; [by rewrite Htr3, Htr1|].
    exists []. rewrite app_nil_r. done.
Qed.

Lemma filter_seq_cons (P : nat → Prop) `{!∀ i, Decision (P i)} a n :
  filter P (seq a (S n))
  = (if decide (P a) then [a] else []) ++ filter P (seq (S a) n).
Proof.
  change (seq a (S n)) with (a :: seq (S a) n).
  rewrite filter_cons. by destruct (decide (P a)).
Qed.

Lemma while_loop_periodic fuel id self task :
  tasks self !! id = Some task →
  checkpoint_interval self ≠ 0%nat →
  (∀ i f, (current_step task ≤ i)%nat → steps task !! i = Some f →
          always_returns f) →
  (length (steps task) - current_step task ≤ fuel)%nat →
  ∃ self' task' written new,
    while_loop fuel [] id self = (self', LoopEnd) ∧
    tasks self' !! id = Some task' ∧
    trace self' = trace self ++ new ∧
    checkpoints task' = checkpoints task ++ written ∧
    step <$> written =
      filter (checkpoint_due (checkpoint_interval self))
        (seq (current_step task) (length (steps task) - current_step task)) ∧
    Forall (fun c => ∃ st r,
                       Invoke id (step c) st (Returned r) ∈ new ∧
                       data c !! step_key (step c) = Some r) written.
Proof.
  revert self task.
  induction fuel as [|fuel IH]; intros self task Ht HK Hall Hfuel.
  { assert (steps task !! current_step task = None) as Hnone
      by (apply lookup_ge_None; lia).
    exists self, task, [], []. rewrite (while_loop_done _ _ _ _ _ Ht Hnone).
    rewrite !app_nil_r.
    replace (length (steps task) - current_step task)%nat with 0%nat by lia.
    split_and!; done. }
  destruct (steps task !! current_step task) as [f|] eqn:Hf.
  2:{ exists self, task, [], []. rewrite (while_loop_done _ _ _ _ _ Ht Hf).
      apply lookup_ge_None in Hf. rewrite !app_nil_r.
      replace (length (steps task) - current_step task)%nat with 0%nat by lia.
      split_and!; done. }
  erewrite while_loop_unfold by done. cbn [hd tl].
  destruct (Hall _ f (le_n _) Hf task (current_step task) (objects self))
    as [r Hr].
  destruct (iteration_alone_returned id task f self r Ht HK Hr)
    as (self1 & t1 & -> & Ht1 & HK1 & Hst & Hcur & Htr1 & w1 & Hw1 & Hs1 & Hd1).
  pose proof (lookup_lt_Some _ _ _ Hf) as Hlt.
  destruct (IH self1 t1)
    as (self' & t' & w2 & new & Hloop & Ht' & Htr' & Hw2 & Hs2 & Hd2);
    [done|congruence| |rewrite Hst, Hcur; lia|].
  { intros i g Hi. rewrite Hst. apply Hall. lia. }
  exists self', t', (w1 ++ w2),
    (Invoke id (current_step task) (status task) (Returned r) :: new).
  split; [done|]. split; [done|].
  split; [by rewrite Htr', Htr1, <- app_assoc|].
  split; [by rewrite Hw2, Hw1, <- app_assoc|].
  split.
  - rewrite fmap_app, Hs1, Hs2, HK1, Hst, Hcur.
    replace (length (steps task) - current_step task)%nat
      with (S (length (steps task) - (current_step task + 1)))%nat by lia.
    rewrite filter_seq_cons. by rewrite Nat.add_1_r.
  - apply Forall_app. split.
    + eapply Forall_impl; [exact Hd1|]. intros c [Hc Hd].
      exists (status task), r. split; [|done]. rewrite Hc. by left.
    + eapply Forall_impl; [exact Hd2|]. intros c (st & r' & Hin & Hd).
      exists st, r'. split; [by right|done].
Qed.

(** *** The checkpoint directory is write-only *)

Lemma same_fields s s' :
  same_but_checkpoint_files s s' ↔
  tasks s = tasks s' ∧ active_tasks s = active_tasks s' ∧
  checkpoint_interval s = checkpoint_interval s' ∧
  objects s = objects s' ∧ Task_Queues s = Task_Queues s' ∧
  wall_clock s = wall_clock s' ∧ clock_reads s = clock_reads s' ∧
  uuid_source s = uuid_source s' ∧ uuid_draws s = uuid_draws s' ∧
  trace s = trace s'.
Proof.
  unfold same_but_checkpoint_files, forget_checkpoint_files, with_Checkpoints.
  split.
  - intros [=]. split_and!; done.
  - intros (?&?&?&?&?&?&?&?&?&?). destruct s, s'. cbn in *. by subst.
Qed.

Ltac same_fields_in H :=
  let H1 := fresh "Htasks" in
  let H2 := fresh "Hactive" in
  let H3 := fresh "Hinterval" in
  let H4 := fresh "Hobjects" in
  let H5 := fresh "Hqueues" in
  let H6 := fresh "Hclock" in
  let H7 := fresh "Hreads" in
  let H8 := fresh "Huuids" in
  let H9 := fresh "Hdraws" in
  let H10 := fresh "Htrace" in
  apply same_fields in H as (H1&H2&H3&H4&H5&H6&H7&H8&H9&H10).

Ltac same_primitive :=
  let H := fresh in
  intros H; same_fields_in H; apply same_fields; cbn;
  split_and!; congruence.

Lemma same_refl s : same_but_checkpoint_files s s.
Proof. done. Qed.

Lemma same_tick s s' :
  same_but_checkpoint_files s s' → same_but_checkpoint_files (tick s) (tick s').
Proof. same_primitive. Qed.

Lemma same_draw s s' :
  same_but_checkpoint_files s s' → same_but_checkpoint_files (draw s) (draw s').
Proof. same_primitive. Qed.

Lemma same_log ev s s' :
  same_but_checkpoint_files s s' →
  same_but_checkpoint_files (log ev s) (log ev s').
Proof. same_primitive. Qed.

Lemma same_modify id f s s' :
  same_but_checkpoint_files s s' →
  same_but_checkpoint_files (modify_task id f s) (modify_task id f s').
Proof. same_primitive. Qed.

Lemma same_with_objects h s s' :
  same_but_checkpoint_files s s' →
  same_but_checkpoint_files (with_objects h s) (with_objects h s').
Proof. same_primitive. Qed.

Lemma same_with_active l s s' :
  same_but_checkpoint_files s s' →
  same_but_checkpoint_files (with_active_tasks l s) (with_active_tasks l s').
Proof. same_primitive. Qed.

Lemma same_with_tasks m s s' :
  same_but_checkpoint_files s s' →
  same_but_checkpoint_files (with_tasks m s) (with_tasks m s').
Proof. same_primitive. Qed.

Lemma same_with_interval K s s' :
  same_but_checkpoint_files s s' →
  same_but_checkpoint_files (with_checkpoint_interval K s)
    (with_checkpoint_interval K s').
Proof. same_primitive. Qed.

Lemma same_with_queues q s s' :
  same_but_checkpoint_files s s' →
  same_but_checkpoint_files (with_Task_Queues q s) (with_Task_Queues q s').
Proof. same_primitive. Qed.

Lemma same_with_files l s :
  same_but_checkpoint_files (with_Checkpoints l s) s.
Proof. done. Qed.

Lemma same_save_task id s s' :
  same_but_checkpoint_files s s' →
  same_but_checkpoint_files (_save_task id s) (_save_task id s').
Proof.
  intros H. unfold _save_task.
  pose proof H as H'. same_fields_in H'. rewrite <- Htasks.
  destruct (tasks s !! id); [|done].
  rewrite <- Hqueues, <- Hobjects. by apply same_with_queues.
Qed.

Lemma same_save_checkpoint id s s' :
  same_but_checkpoint_files s s' →
  same_but_checkpoint_files (_save_checkpoint id s) (_save_checkpoint id s').
Proof.
  intros H. unfold _save_checkpoint.
  pose proof H as H'. same_fields_in H'. rewrite <- Htasks.
  destruct (tasks s !! id); [|done].
  apply same_fields. unfold uuid4, datetime_now. cbn.
  rewrite <- Huuids, <- Hdraws, <- Hclock, <- Hreads, <- Htasks.
  split_and!; congruence.
Qed.

Lemma same_restore id s s' :
  same_but_checkpoint_files s s' →
  (_restore_from_checkpoint id s).1 = (_restore_from_checkpoint id s').1 ∧
  same_but_checkpoint_files (_restore_from_checkpoint id s).2
    (_restore_from_checkpoint id s').2.
Proof.
  intros H. unfold _restore_from_checkpoint.
  pose proof H as H'. same_fields_in H'. rewrite <- Htasks.
  destruct (tasks s !! id) as [t|]; [|done].
  destruct (latest_checkpoint _); [|done].
  split; [done|]. by apply same_modify.
Qed.

Lemma same_suspend_task id s s' :
  same_but_checkpoint_files s s' →
  (suspend_task id s).1 = (suspend_task id s').1 ∧
  same_but_checkpoint_files (suspend_task id s).2 (suspend_task id s').2.
Proof.
  intros H. unfold suspend_task.
  pose proof H as H'. same_fields_in H'. rewrite <- Htasks.
  destruct (tasks s !! id) as [t|]; [|done].
  case_decide; [|done]. cbn. split; [done|].
  assert (same_but_checkpoint_files
            (_save_task id (_save_checkpoint id
               (modify_task id (set_status SUSPENDED) s)))
            (_save_task id (_save_checkpoint id
               (modify_task id (set_status SUSPENDED) s')))) as H3
    by (by apply same_save_task, same_save_checkpoint, same_modify).
  pose proof H3 as H3'. same_fields_in H3'. rewrite <- Hactive0.
  by apply same_with_active.
Qed.

Lemma same_other_coroutines waiting s s' :
  same_but_checkpoint_files s s' →
  same_but_checkpoint_files (other_coroutines waiting s)
    (other_coroutines waiting s').
Proof.
  revert s s'. induction waiting as [|id waiting IH]; intros s s' H; [done|].
  cbn. destruct (same_suspend_task id s s' H) as [Hok Hs].
  destruct (suspend_task id s) as [ok s1], (suspend_task id s') as [ok' s1'].
  cbn in *. subst ok'. by apply IH, same_log.
Qed.

Lemma same_on_step_exception msg id s s' :
  same_but_checkpoint_files s s' →
  (on_step_exception msg id s).2 = (on_step_exception msg id s').2 ∧
  same_but_checkpoint_files (on_step_exception msg id s).1
    (on_step_exception msg id s').1.
Proof.
  intros H. unfold on_step_exception.
  assert (same_but_checkpoint_files
            (modify_task id (set_error (Some msg)) s)
            (modify_task id (set_error (Some msg)) s')) as H1
    by (by apply same_modify).
  pose proof H1 as H1'. same_fields_in H1'. rewrite <- Htasks.
  destruct (tasks _ !! id) as [t|]; [|done].
  case_decide; cbn; (split; [done|]).
  - by apply same_modify.
  - by apply same_save_task, same_modify.
Qed.

Lemma same_iteration waiting id task f s s' :
  same_but_checkpoint_files s s' →
  (iteration waiting id task f s).2 = (iteration waiting id task f s').2 ∧
  same_but_checkpoint_files (iteration waiting id task f s).1
    (iteration waiting id task f s').1.
Proof.
  intros H. unfold iteration.
  pose proof H as H'. same_fields_in H'. rewrite <- Hobjects.
  set (inv := _execute_step _ _ _ _).
  set (self1 := log _ _). set (self1' := log _ _).
  assert (same_but_checkpoint_files self1 self1') as H1
    by (by apply same_log, same_modify, same_with_objects).
  clearbody self1 self1'.
  set (self2 := if iscoroutinefunction f then _ else _).
  set (self2' := if iscoroutinefunction f then _ else _).
  assert (same_but_checkpoint_files self2 self2') as H2.
  { subst self2 self2'. destruct (iscoroutinefunction f); [|done].
    by apply same_other_coroutines. }
  clearbody self2 self2'.
  destruct (inv_outcome inv); [| by apply same_on_step_exception | done].
  set (self3 := modify_task _ _ self2). set (self3' := modify_task _ _ self2').
  assert (same_but_checkpoint_files self3 self3') as H3
    by (by apply same_modify).
  clearbody self3 self3'.
  pose proof H3 as H3'. same_fields_in H3'. rewrite <- Hinterval0.
  case_decide; [by apply same_on_step_exception|].
  cbn. split; [done|]. apply same_modify.
  case_decide; [by apply same_save_checkpoint|done].
Qed.

Lemma same_while_loop fuel sched id s s' :
  same_but_checkpoint_files s s' →
  (while_loop fuel sched id s).2 = (while_loop fuel sched id s').2 ∧
  same_but_checkpoint_files (while_loop fuel sched id s).1
    (while_loop fuel sched id s').1.
Proof.
  revert sched s s'. induction fuel as [|fuel IH]; intros sched s s' H; cbn;
    pose proof H as H'; same_fields_in H'; rewrite <- Htasks.
  - destruct (tasks s !! id) as [task|]; [|done].
    by destruct (steps task !! current_step task).
  - destruct (tasks s !! id) as [task|]; [|done].
    destruct (steps task !! current_step task) as [f|]; [|done].
    destruct (same_iteration (hd [] sched) id task f s s' H) as [Hx Hs].
    destruct (iteration _ _ _ _ s) as [s1 x], (iteration _ _ _ _ s') as [s1' x'].
    cbn in Hx, Hs. subst x'. destruct x; [by apply IH|done..].
Qed.

Lemma same_complete_task id s s' :
  same_but_checkpoint_files s s' →
  same_but_checkpoint_files (complete_task id s) (complete_task id s').
Proof.
  intros H. unfold complete_task.
  pose proof H as H'. same_fields_in H'. unfold datetime_now.
  rewrite <- Hclock, <- Hreads. cbn. rewrite <- Hactive.
  by apply same_save_task, same_with_active, same_modify, same_tick.
Qed.

Lemma same_on_keyboard_interrupt id s s' :
  same_but_checkpoint_files s s' →
  same_but_checkpoint_files (on_keyboard_interrupt id s)
    (on_keyboard_interrupt id s').
Proof.
  intros H. unfold on_keyboard_interrupt.
  by apply same_save_task, same_save_checkpoint, same_modify.
Qed.

Lemma same_execute_registered sched id task s s' :
  same_but_checkpoint_files s s' →
  (execute_registered sched id task s).1
    = (execute_registered sched id task s').1 ∧
  same_but_checkpoint_files (execute_registered sched id task s).2
    (execute_registered sched id task s').2.
Proof.
  intros H. unfold execute_registered. case_decide; [done|].
  set (self0 := if decide (status task = PENDING) then _ else _).
  set (self0' := if decide (status task = PENDING) then _ else _).
  assert (same_but_checkpoint_files self0 self0') as Hsame0.
  { subst self0 self0'. case_decide; [|done].
    pose proof H as H'. same_fields_in H'. unfold datetime_now.
    rewrite <- Hclock, <- Hreads. cbn. rewrite <- Hactive.
    by apply same_with_active, same_modify, same_tick. }
  clearbody self0 self0'.
  destruct (same_while_loop (loop_bound task) sched id self0 self0' Hsame0)
    as [Hx Hs].
  destruct (while_loop _ _ _ self0) as [s1 x],
    (while_loop _ _ _ self0') as [s1' x'].
  cbn in Hx, Hs. subst x'.
  destruct x; cbn; (split; [done|]);
    auto using same_complete_task, same_on_keyboard_interrupt.
Qed.

Lemma same_load id s s' :
  same_but_checkpoint_files s s' →
  match _load_task id s, _load_task id s' with
  | Some (task, s1), Some (task', s1') =>
    task = task' ∧ same_but_checkpoint_files s1 s1'
  | None, None => True
  | _, _ => False
  end.
Proof.
  intros H. unfold _load_task.
  pose proof H as H'. same_fields_in H'. rewrite <- Hqueues, <- Hobjects.
  destruct (Task_Queues s !! id) as [file|]; [|done].
  destruct (from_dict _ _ _) as [task h].
  split; [done|]. by apply same_with_objects.
Qed.

Lemma same_execute_task sched id s s' :
  same_but_checkpoint_files s s' →
  (execute_task sched id s).1 = (execute_task sched id s').1 ∧
  same_but_checkpoint_files (execute_task sched id s).2
    (execute_task sched id s').2.
Proof.
  intros H. unfold execute_task.
  pose proof H as H'. same_fields_in H'. rewrite <- Htasks.
  destruct (tasks s !! id) as [task|].
  - by apply same_execute_registered.
  - pose proof (same_load id s s' H) as Hl.
    destruct (_load_task id s) as [[task s1]|],
      (_load_task id s') as [[task' s1']|]; try done.
    destruct Hl as [<- Hs]. pose proof Hs as Hs'. same_fields_in Hs'.
    rewrite <- Htasks0. by apply same_execute_registered, same_with_tasks.
Qed.

Lemma same_resume_registered sched id task s s' :
  same_but_checkpoint_files s s' →
  (resume_registered sched id task s).1
    = (resume_registered sched id task s').1 ∧
  same_but_checkpoint_files (resume_registered sched id task s).2
    (resume_registered sched id task s').2.
Proof.
  intros H. unfold resume_registered. case_decide; [|done].
  destruct (same_restore id s s' H) as [Hb Hs].
  destruct (_restore_from_checkpoint id s) as [b s1],
    (_restore_from_checkpoint id s') as [b' s1'].
  cbn in Hb, Hs. subst b'.
  destruct b; by apply same_execute_task, same_modify.
Qed.

Lemma same_resume_task sched id s s' :
  same_but_checkpoint_files s s' →
  (resume_task sched id s).1 = (resume_task sched id s').1 ∧
  same_but_checkpoint_files (resume_task sched id s).2
    (resume_task sched id s').2.
Proof.
  intros H. unfold resume_task.
  pose proof H as H'. same_fields_in H'. rewrite <- Htasks.
  destruct (tasks s !! id) as [task|].
  - by apply same_resume_registered.
  - pose proof (same_load id s s' H) as Hl.
    destruct (_load_task id s) as [[task s1]|],
      (_load_task id s') as [[task' s1']|]; try done.
    destruct Hl as [<- Hs]. pose proof Hs as Hs'. same_fields_in Hs'.
    rewrite <- Htasks0. by apply same_resume_registered, same_with_tasks.
Qed.

Lemma same_create_task name steps description priority s s' :
  same_but_checkpoint_files s s' →
  (create_task name steps description priority s).1
    = (create_task name steps description priority s').1 ∧
  same_but_checkpoint_files (create_task name steps description priority s).2
    (create_task name steps description priority s').2.
Proof.
  intros H. unfold create_task. cbv zeta. cbn [fst snd].
  pose proof H as H'. same_fields_in H'.
  unfold uuid4, datetime_now. cbn.
  rewrite <- Huuids, <- Hdraws, <- Hclock, <- Hreads, <- Htasks.
  split; [done|].
  by apply same_save_task, same_with_tasks, same_tick, same_draw.
Qed.

Lemma same_remove_task id s s' :
  same_but_checkpoint_files s s' →
  same_but_checkpoint_files (remove_task id s) (remove_task id s').
Proof. same_primitive. Qed.

Lemma same_cleanup days s s' :
  same_but_checkpoint_files s s' →
  same_but_checkpoint_files (cleanup_completed_tasks days s).2
    (cleanup_completed_tasks days s').2.
Proof.
  intros H. unfold cleanup_completed_tasks.
  pose proof H as H'. same_fields_in H'.
  unfold cutoff_date, datetime_now. rewrite <- Hclock, <- Hreads.
  destruct (timedelta_days days) as [delta|]; [|by apply same_tick].
  destruct (datetime_sub _ delta) as [cutoff|]; [|by apply same_tick].
  unfold to_remove. cbn. rewrite <- Htasks.
  set (ids := (filter _ _).*1). clearbody ids.
  induction ids as [|i ids IH]; cbn.
  - by apply same_tick.
  - by apply same_remove_task.
Qed.

Lemma same_run_call s s' c :
  same_but_checkpoint_files s s' →
  same_but_checkpoint_files (run_call s c) (run_call s' c).
Proof.
  intros H. destruct c; cbn.
  - by apply same_create_task.
  - by apply same_execute_task.
  - by apply same_resume_task.
  - by apply same_suspend_task.
  - by apply same_cleanup.
  - by apply same_with_interval.
  - revert H. same_primitive.
Qed.

Lemma same_run_calls calls s s' :
  same_but_checkpoint_files s s' →
  same_but_checkpoint_files (run_calls s calls) (run_calls s' calls).
Proof.
  revert s s'. induction calls as [|c calls IH]; intros s s' H; [done|].
  cbn. by apply IH, same_run_call.
Qed.

(** *** The checkpoint directory under an advancing clock *)

Lemma covered_same_header f cs cs' :
  Forall2 same_header cs cs' → covered f cs → covered f cs'.
Proof.
  intros Hall (c & Hc & Hle).
  apply list_elem_of_lookup in Hc as [i Hi].
  destruct (Forall2_lookup_l _ _ _ _ _ Hall Hi) as (c' & Hi' & _ & _ & Hs & _).
  exists c'. split; [by eapply list_elem_of_lookup_2|]. by rewrite Hs.
Qed.

Lemma same_header_sym c c' : same_header c c' → same_header c' c.
Proof. unfold same_header. intros (?&?&?&?). split_and!; done. Qed.

Lemma same_header_refl c : same_header c c.
Proof. unfold same_header. split_and!; done. Qed.

Lemma Forall2_same_header_refl cs : Forall2 same_header cs cs.
Proof. induction cs; constructor; auto using same_header_refl. Qed.

Lemma Forall2_same_header_sym cs cs' :
  Forall2 same_header cs cs' → Forall2 same_header cs' cs.
Proof. induction 1; constructor; auto using same_header_sym. Qed.

Lemma dir_ok_same s s' :
  tasks s' = tasks s → Task_Queues s' = Task_Queues s →
  Checkpoints s' = Checkpoints s →
  wall_clock s' = wall_clock s → clock_reads s' = clock_reads s →
  uuid_source s' = uuid_source s → uuid_draws s' = uuid_draws s →
  dir_ok s → dir_ok s'.
Proof.
  unfold dir_ok, datetime_now. by intros -> -> -> -> -> -> ->.
Qed.

Lemma dir_ok_tick s :
  clock_advances (wall_clock s) → dir_ok s → dir_ok (tick s).
Proof.
  intros Hclk (Hinj & Hreg & Hfile & Hpair).
  split_and!; [done|done| |done].
  intros f Hf. destruct (Hfile f Hf) as (Hts & Hk & Hcov & Hcov').
  split_and!; [|done..].
  etrans; [exact Hts|]. unfold datetime_now. cbn. apply Hclk. lia.
Qed.

Lemma dir_ok_draw s : dir_ok s → dir_ok (draw s).
Proof.
  intros (Hinj & Hreg & Hfile & Hpair).
  split_and!; [done| | |done].
  - intros id Hid. destruct (Hreg id Hid) as (k & Hk & ->).
    exists k. cbn. split; [lia|done].
  - intros f Hf. destruct (Hfile f Hf) as (Hts & (k & Hk & Hid) & Hcov & Hcov').
    split_and!; [done| |done..]. exists k. cbn. split; [lia|done].
Qed.

(** An update of task objects that keeps their checkpoints and does not
    register or drop a task. *)
Lemma dir_ok_tasks (m : gmap string AutonomyTask) s :
  (∀ id, m !! id = None ↔ tasks s !! id = None) →
  (∀ id t', m !! id = Some t' →
            ∃ t, tasks s !! id = Some t ∧ checkpoints t `prefix_of` checkpoints t') →
  dir_ok s → dir_ok (with_tasks m s).
Proof.
  intros Hdom Hcs (Hinj & Hreg & Hfile & Hpair).
  split_and!; [done| | |done].
  - intros id [Hid|Hid]; apply Hreg; [left|by right].
    cbn in Hid. destruct (tasks s !! id) eqn:Ht; [done|].
    apply Hdom in Ht. rewrite Ht in Hid. by destruct Hid.
  - intros f Hf. destruct (Hfile f Hf) as (Hts & Hk & Hcov & Hcov').
    split_and!; [done|done| |].
    + cbn. intros t' Ht'. destruct (Hcs _ _ Ht') as (t & Ht & Hpre).
      destruct (Hcov t Ht) as (c & Hc & Hle). exists c. split; [|done].
      destruct Hpre as [k ->]. apply elem_of_app. by left.
    + cbn. intros file Hnone. apply Hcov'. by apply Hdom.
Qed.

Lemma dir_ok_modify id f s :
  (∀ t, checkpoints (f t) = checkpoints t) →
  dir_ok s → dir_ok (modify_task id f s).
Proof.
  intros Hf. apply dir_ok_tasks.
  - intros id'. rewrite lookup_alter. case_decide; [subst|done].
    by destruct (tasks s !! id').
  - intros id' t'. rewrite lookup_alter. case_decide; [subst|by eauto].
    destruct (tasks s !! id') as [t|]; [|done]. intros [= <-].
    exists t. by rewrite Hf.
Qed.

Lemma dir_ok_save_task id s : dir_ok s → dir_ok (_save_task id s).
Proof.
  intros Hok. unfold _save_task.
  destruct (tasks s !! id) as [t|] eqn:Ht; [|done].
  destruct Hok as (Hinj & Hreg & Hfile & Hpair).
  split_and!; [done| | |done].
  - intros id' [Hid|Hid]; [apply Hreg; by left|].
    cbn in Hid. rewrite lookup_insert in Hid. case_decide; [subst|].
    + apply Hreg. left. by rewrite Ht.
    + apply Hreg. by right.
  - intros f Hf. destruct (Hfile f Hf) as (Hts & Hk & Hcov & Hcov').
    split_and!; [done..|]. cbn. intros file Hnone.
    rewrite lookup_insert. case_decide; [congruence|]. by apply Hcov'.
Qed.

Lemma dir_ok_save_checkpoint id s :
  engine_ok s → dir_ok s → dir_ok (_save_checkpoint id s).
Proof.
  intros (Hclk & Hts & _) Hok. unfold _save_checkpoint.
  destruct (tasks s !! id) as [t|] eqn:Ht; [|done].
  destruct Hok as (Hinj & Hreg & Hfile & Hpair).
  destruct (Hts id t Ht) as [_ Hsteps]. rewrite Forall_forall in Hsteps.
  set (c := {| checkpoint_id := uuid4 s; ckpt_task_id := id;
               step := current_step t; data := state_data t;
               timestamp := datetime_now s |}).
  set (new := {| json_file_name := _; json_checkpoint := c;
                 json_checkpoint_objects := _ |}).
  assert (datetime_now s < wall_clock s (S (clock_reads s))) as Hnow
    by (apply Hclk; lia).
  assert (∀ f, f ∈ Checkpoints s → ckpt_task_id (json_checkpoint f) = id →
               (step (json_checkpoint f) ≤ current_step t)%nat) as Hbelow.
  { intros f Hf Hid. destruct (Hfile f Hf) as (_ & _ & Hcov & _).
    rewrite Hid in Hcov. destruct (Hcov t Ht) as (c' & Hc' & Hle).
    destruct (Hsteps c' Hc'). lia. }
  split_and!; [done| | |].
  - intros id' [Hid|Hid].
    + cbn in Hid. rewrite lookup_alter in Hid.
      destruct (Hreg id') as (k & Hk & ->).
      { left. case_decide; [subst; by rewrite Ht|done]. }
      exists k. cbn. split; [lia|done].
    + destruct (Hreg id') as (k & Hk & ->); [by right|].
      exists k. cbn. split; [lia|done].
  - intros f Hf. cbn in Hf. apply elem_of_write_file in Hf as [->|Hf].
    + unfold datetime_now. cbn. split; [done|].
      split.
      { destruct (Hreg id) as (k & Hk & ->); [left; by rewrite Ht|].
        exists k. split; [lia|done]. }
      rewrite lookup_alter_eq, Ht. cbn. split; [|done].
      intros t' [= <-]. exists c. cbn. split; [|done].
      apply elem_of_app. right. by left.
    + destruct (Hfile f Hf) as (Hlt & (k & Hk & Hid) & Hcov & Hcov').
      unfold datetime_now. cbn. split; [by etrans|].
      split; [exists k; split; [lia|done]|].
      rewrite lookup_alter. case_decide as Heq.
      * rewrite Ht. cbn. split; [|done]. intros t' [= <-]. cbn.
        rewrite <- Heq in Hcov. destruct (Hcov t Ht) as (c' & Hc' & Hle).
        exists c'. split; [|done]. apply elem_of_app. by left.
      * split; [done|]. exact Hcov'.
  - intros f1 f2 Hf1 Hf2 Hid Hlt. cbn in Hf1, Hf2.
    apply elem_of_write_file in Hf1 as [->|Hf1];
      apply elem_of_write_file in Hf2 as [->|Hf2].
    + done.
    + destruct (Hfile f2 Hf2) as (Hlt2 & _). cbn in Hlt. lia.
    + cbn. cbn in Hid. by apply Hbelow.
    + by apply Hpair.
Qed.

Lemma dir_ok_load id s task s1 :
  tasks s !! id = None → _load_task id s = Some (task, s1) →
  dir_ok s → dir_ok (with_tasks (<[id := task]> (tasks s1)) s1).
Proof.
  intros Hnone Hl (Hinj & Hreg & Hfile & Hpair).
  apply load_task_inv in Hl as (file & h & Hq & Hld & ->).
  destruct Hld as (_&_&_&_&_&_&_&_&_&_&_&_&_&Hcs).
  split_and!; [done| | |done].
  - intros id' [Hid|Hid]; [|apply Hreg; by right].
    cbn in Hid. rewrite lookup_insert in Hid. case_decide; [subst|].
    + apply Hreg. right. by rewrite Hq.
    + apply Hreg. by left.
  - intros f Hf. destruct (Hfile f Hf) as (Hts & Hk & Hcov & Hcov').
    split_and!; [done|done| |]; cbn.
    + intros t. rewrite lookup_insert. case_decide as Heq; [|by apply Hcov].
      intros [= <-]. eapply covered_same_header; [exact Hcs|].
      apply Hcov'; by rewrite <- Heq.
    + intros file'. rewrite lookup_insert. case_decide; [done|]. apply Hcov'.
Qed.

Lemma store_ok_same s s' :
  tasks s' = tasks s → Task_Queues s' = Task_Queues s →
  Checkpoints s' = Checkpoints s →
  wall_clock s' = wall_clock s → clock_reads s' = clock_reads s →
  uuid_source s' = uuid_source s → uuid_draws s' = uuid_draws s →
  store_ok s → store_ok s'.
Proof.
  intros ? ? ? ? ? ? ? [? ?]. split; [by eapply engine_ok_same|].
  by eapply dir_ok_same.
Qed.

Lemma store_ok_tick s : store_ok s → store_ok (tick s).
Proof.
  intros [Hok Hdir]. split; [by apply engine_ok_tick|].
  apply dir_ok_tick; [|done]. by destruct Hok.
Qed.

Lemma store_ok_modify id f s :
  harmless f → store_ok s → store_ok (modify_task id f s).
Proof.
  intros Hf [Hok Hdir]. split; [by apply engine_ok_modify|].
  apply dir_ok_modify; [|done]. intros t. by destruct (Hf t).
Qed.

Lemma store_ok_save_task id s : store_ok s → store_ok (_save_task id s).
Proof.
  intros [? ?]. split; [by apply engine_ok_save_task|by apply dir_ok_save_task].
Qed.

Lemma store_ok_save_checkpoint id s :
  store_ok s → store_ok (_save_checkpoint id s).
Proof.
  intros [? ?].
  split; [by apply engine_ok_save_checkpoint|by apply dir_ok_save_checkpoint].
Qed.

Lemma store_ok_restore id s :
  store_ok s → store_ok (_restore_from_checkpoint id s).2.
Proof.
  intros [Hok Hdir]. split; [by apply engine_ok_restore|].
  unfold _restore_from_checkpoint. destruct (tasks s !! id); [|done].
  destruct (latest_checkpoint _); [|done]. cbn. by apply dir_ok_modify.
Qed.

Lemma store_ok_restart id s :
  (_restore_from_checkpoint id s).1 = false → store_ok s →
  store_ok (modify_task id
              (fun t => set_status IN_PROGRESS (set_current_step 0 t)) s).
Proof.
  intros Hr [Hok Hdir]. split; [by apply engine_ok_restart|].
  by apply dir_ok_modify.
Qed.

Lemma store_ok_load id s task s1 :
  tasks s !! id = None → _load_task id s = Some (task, s1) →
  store_ok s → store_ok (with_tasks (<[id := task]> (tasks s1)) s1).
Proof.
  intros Hn Hl [? ?].
  split; [by eapply engine_ok_load|by eapply dir_ok_load].
Qed.

Lemma store_ok_execute_task sched id s :
  store_ok s → store_ok (execute_task sched id s).2.
Proof.
  apply preserved_execute_task;
    eauto using store_ok_tick, store_ok_modify, store_ok_save_task,
      store_ok_save_checkpoint, store_ok_load;
    intros; by eapply store_ok_same.
Qed.

Lemma store_ok_resume_task sched id s :
  store_ok s → store_ok (resume_task sched id s).2.
Proof.
  apply preserved_resume_task;
    eauto using store_ok_tick, store_ok_modify, store_ok_save_task,
      store_ok_save_checkpoint, store_ok_restore, store_ok_restart,
      store_ok_load;
    intros; by eapply store_ok_same.
Qed.

Lemma store_ok_suspend_task id s :
  store_ok s → store_ok (suspend_task id s).2.
Proof.
  apply preserved_suspend_task;
    eauto using store_ok_modify, store_ok_save_task,
      store_ok_save_checkpoint;
    intros; by eapply store_ok_same.
Qed.

Lemma dir_ok_create_task name steps description priority s :
  clock_advances (wall_clock s) → dir_ok s →
  dir_ok (create_task name steps description priority s).2.
Proof.
  intros Hclk Hok. unfold create_task. cbv zeta. cbn [snd].
  apply dir_ok_save_task.
  assert (∀ f, f ∈ Checkpoints s →
               ckpt_task_id (json_checkpoint f) ≠ uuid4 s) as Hfresh.
  { destruct Hok as (Hinj & _ & Hfile & _). intros f Hf Heq.
    destruct (Hfile f Hf) as (_ & (k & Hk & Hid) & _).
    rewrite Hid in Heq. apply Hinj in Heq. lia. }
  pose proof (dir_ok_tick (draw s) Hclk (dir_ok_draw s Hok))
    as (Hinj & Hreg & Hfile & Hpair).
  split_and!; [done| | |done].
  - intros id [Hid|Hid]; [|apply Hreg; by right].
    cbn in Hid. rewrite lookup_insert in Hid. case_decide; [subst|].
    + exists (uuid_draws s). cbn. split; [lia|done].
    + apply Hreg. by left.
  - intros f Hf. destruct (Hfile f Hf) as (Hts & Hk & Hcov & Hcov').
    pose proof (Hfresh f Hf) as Hne.
    split_and!; [done|done| |]; cbn.
    + intros t. rewrite lookup_insert_ne by done. apply Hcov.
    + intros file. rewrite lookup_insert_ne by done. apply Hcov'.
Qed.

Lemma dir_ok_remove_task id s : dir_ok s → dir_ok (remove_task id s).
Proof.
  intros (Hinj & Hreg & Hfile & Hpair).
  split_and!; [done| | |done].
  - intros id' [[t Hid]|[q Hid]]; cbn in Hid;
      apply lookup_delete_Some in Hid as [_ Hid]; apply Hreg;
      [left|right]; by rewrite Hid.
  - intros f Hf. destruct (Hfile f Hf) as (Hts & Hk & Hcov & Hcov').
    split_and!; [done|done| |]; cbn.
    + intros t Ht. apply lookup_delete_Some in Ht as [_ Ht]. by apply Hcov.
    + intros file Hnone Hq. apply lookup_delete_Some in Hq as [Hne Hq].
      apply Hcov'; [|done]. by rewrite lookup_delete_ne in Hnone.
Qed.

Lemma dir_ok_cleanup days s :
  clock_advances (wall_clock s) → dir_ok s →
  dir_ok (cleanup_completed_tasks days s).2.
Proof.
  intros Hclk Hok. unfold cleanup_completed_tasks.
  destruct (cutoff_date days s) as [c|]; cbn; [|by apply dir_ok_tick].
  induction (to_remove _ _) as [|id ids IH]; cbn.
  - by apply dir_ok_tick.
  - by apply dir_ok_remove_task.
Qed.

Lemma dir_ok_reopen s : engine_synced s → dir_ok s → dir_ok (reopen s).
Proof.
  intros Hsync (Hinj & Hreg & Hfile & Hpair).
  split_and!; [done| | |done].
  - intros id [Hid|Hid]; [|apply Hreg; by right].
    cbn in Hid. rewrite lookup_empty in Hid. by destruct Hid.
  - intros f Hf. destruct (Hfile f Hf) as (Hts & Hk & Hcov & Hcov').
    split_and!; [done|done| |]; cbn.
    + intros t. by rewrite lookup_empty.
    + intros file _ Hq.
      destruct (tasks s !! ckpt_task_id (json_checkpoint f)) as [t|] eqn:Ht;
        [|by apply Hcov'].
      destruct (Hsync _ t Ht) as (file' & Hq' & Hcs).
      rewrite Hq in Hq'. injection Hq' as <-.
      eapply covered_same_header; [|by apply Hcov].
      by apply Forall2_same_header_sym.
Qed.

Lemma dir_ok_new clock uuids :
  (∀ n m, uuids n = uuids m → n = m) → dir_ok (new_engine clock uuids).
Proof.
  intros Hinj. split_and!; [done|..]; cbn.
  - intros id [Hid|Hid]; rewrite lookup_empty in Hid; by destruct Hid.
  - intros f Hf. by apply elem_of_nil in Hf.
  - intros f1 f2 Hf. by apply elem_of_nil in Hf.
Qed.

(** *** Task files keep up with the task objects *)

Lemma own_synced_untouched id s s' :
  untouched id s s' → own_synced id s → own_synced id s'.
Proof. unfold own_synced. intros [-> ->]. done. Qed.

Lemma execute_task_synced sched id s :
  (∃ t, tasks s !! id = Some t ∧
        status t ≠ COMPLETED ∧ status t ≠ FAILED) ∨ own_synced id s →
  own_synced id (execute_task sched id s).2.
Proof.
  assert (∀ task s0,
            tasks s0 !! id = Some task →
            status task ≠ COMPLETED → status task ≠ FAILED →
            own_synced id (execute_registered sched id task s0).2) as Hrun.
  { intros task s0 Ht Hc Hf.
    destruct (execute_registered_settles sched id task s0 Ht Hc Hf)
      as (task' & h & Ht' & _ & _ & Hq').
    intros t. rewrite Ht'. intros [= <-]. eexists. split; [exact Hq'|].
    apply Forall2_same_header_refl. }
  assert (∀ task s0,
            status task = COMPLETED ∨ status task = FAILED →
            (execute_registered sched id task s0).2 = s0) as Hstop.
  { intros task s0 Hst. unfold execute_registered. by rewrite decide_True. }
  intros [(t & Ht & Hc & Hf)|Hown]; unfold execute_task.
  - rewrite Ht. by apply Hrun.
  - destruct (tasks s !! id) as [task|] eqn:Ht.
    + destruct (decide (status task = COMPLETED ∨ status task = FAILED))
        as [Hst|Hst].
      * by rewrite Hstop.
      * apply Hrun; [done|intros ?; apply Hst; by left|
                     intros ?; apply Hst; by right].
    + destruct (_load_task id s) as [[task s0]|] eqn:Hl; [|done].
      apply load_task_inv in Hl as (file & h & Hq & Hld & ->).
      set (s1 := with_tasks _ _).
      assert (tasks s1 !! id = Some task) as Ht1
        by (subst s1; cbn; by rewrite lookup_insert_eq).
      destruct (decide (status task = COMPLETED ∨ status task = FAILED))
        as [Hst|Hst].
      * rewrite Hstop by done. intros t. rewrite Ht1. intros [= <-].
        exists file. split; [done|].
        by destruct Hld as (_&_&_&_&_&_&_&_&_&_&_&_&_&?).
      * apply Hrun; [done|intros ?; apply Hst; by left|
                     intros ?; apply Hst; by right].
Qed.

Lemma resume_registered_synced sched id task s :
  tasks s !! id = Some task → own_synced id s →
  own_synced id (resume_registered sched id task s).2.
Proof.
  intros Ht Hown. unfold resume_registered. case_decide; [|done].
  unfold _restore_from_checkpoint. rewrite Ht.
  destruct (latest_checkpoint _) as [latest|];
    apply execute_task_synced; left;
    rewrite ?lookup_modify_task, Ht; cbn; eexists; (split; [done|]); done.
Qed.

Lemma resume_task_synced sched id s :
  own_synced id s → own_synced id (resume_task sched id s).2.
Proof.
  intros Hown. unfold resume_task.
  destruct (tasks s !! id) as [task|] eqn:Ht.
  - by apply resume_registered_synced.
  - destruct (_load_task id s) as [[task s0]|] eqn:Hl; [|done].
    apply load_task_inv in Hl as (file & h & Hq & Hld & ->).
    apply resume_registered_synced.
    + cbn. by rewrite lookup_insert_eq.
    + intros t. cbn. rewrite lookup_insert_eq. intros [= <-].
      exists file. split; [done|].
      by destruct Hld as (_&_&_&_&_&_&_&_&_&_&_&_&_&?).
Qed.

Lemma engine_synced_execute_task sched id s :
  engine_settled s → engine_synced s →
  engine_synced (execute_task sched id s).2.
Proof.
  intros Hs Hsync id0. destruct (decide (id0 = id)) as [->|Hne].
  - apply execute_task_synced. by right.
  - eapply own_synced_untouched; [|by apply Hsync].
    apply untouched_execute_task; [done|]. by apply engine_settled_quiet.
Qed.

Lemma engine_synced_resume_task sched id s :
  engine_settled s → engine_synced s →
  engine_synced (resume_task sched id s).2.
Proof.
  intros Hs Hsync id0. destruct (decide (id0 = id)) as [->|Hne].
  - by apply resume_task_synced.
  - eapply own_synced_untouched; [|by apply Hsync].
    apply untouched_resume_task; [done|]. by apply engine_settled_quiet.
Qed.

Lemma engine_synced_create_task name steps description priority s :
  engine_synced s →
  engine_synced (create_task name steps description priority s).2.
Proof.
  intros Hsync id t. unfold create_task. cbv zeta. cbn [snd].
  unfold _save_task. cbn. rewrite lookup_insert_eq. cbn.
  rewrite !lookup_insert. case_decide.
  - intros [= <-]. eexists. split; [done|]. cbn. constructor.
  - apply Hsync.
Qed.

Lemma engine_synced_cleanup days s :
  engine_synced s → engine_synced (cleanup_completed_tasks days s).2.
Proof.
  intros Hsync. unfold cleanup_completed_tasks.
  destruct (cutoff_date days s) as [cutoff|]; [|done]. cbn.
  set (ids := to_remove _ _). intros id t Hl.
  destruct (lookup_foldr_remove_task ids id (tick s)) as (Ht & Hq & _).
  rewrite Ht in Hl. rewrite Hq. case_decide; [done|]. by apply Hsync.
Qed.

Lemma boundary_ok_run_call s c : boundary_ok s → boundary_ok (run_call s c).
Proof.
  intros (Hs & Hsync & Hstore). pose proof Hstore as [Hok Hdir].
  pose proof Hok as (Hclk & _).
  split; [by apply engine_settled_run_call|].
  destruct c; cbn.
  - split; [by apply engine_synced_create_task|].
    split; [by apply engine_ok_create_task|by apply dir_ok_create_task].
  - split; [by apply engine_synced_execute_task|].
    by apply store_ok_execute_task.
  - split; [by apply engine_synced_resume_task|].
    by apply store_ok_resume_task.
  - by rewrite suspend_task_at_rest.
  - split; [by apply engine_synced_cleanup|].
    split; [by apply engine_ok_cleanup|by apply dir_ok_cleanup].
  - split; [done|]. by eapply store_ok_same.
  - split; [intros id t; cbn; by rewrite lookup_empty|].
    split; [apply (engine_ok_run_call s Reopen Hok)|by apply dir_ok_reopen].
Qed.

Lemma boundary_ok_run_calls s calls :
  boundary_ok s → boundary_ok (run_calls s calls).
Proof.
  revert s. induction calls as [|c calls IH]; intros s Hs; [done|].
  cbn. by apply IH, boundary_ok_run_call.
Qed.

Lemma boundary_ok_new clock uuids :
  clock_advances clock → (∀ n m, uuids n = uuids m → n = m) →
  boundary_ok (new_engine clock uuids).
Proof.
  intros Hclk Hinj. split; [apply engine_settled_new|].
  split; [intros id t; cbn; by rewrite lookup_empty|].
  split; [by apply engine_ok_new|by apply dir_ok_new].
Qed.

Lemma numbered_uuid_inj n m : numbered_uuid n = numbered_uuid m → n = m.
Proof.
  unfold numbered_uuid. intros H.
  cbv beta iota fix delta [String.app] in H.
  injection H as H. by apply (inj pretty) in H.
Qed.

(** *** Reachable states *)

Lemma reachable_engine_ok clock uuids s :
  clock_advances clock → reachable clock uuids s → engine_ok s.
Proof.
  intros Hclk. induction 1.
  - by apply engine_ok_new.
  - by apply engine_ok_create_task.
  - by apply engine_ok_cleanup.
  - by eapply engine_ok_same.
  - by apply (engine_ok_run_call self Reopen).
  - by apply engine_ok_tick.
  - by eapply engine_ok_same.
  - by eapply engine_ok_same.
  - by eapply engine_ok_same.
  - by apply engine_ok_modify.
  - by apply engine_ok_save_task.
  - by apply engine_ok_save_checkpoint.
  - by apply engine_ok_restore.
  - by apply engine_ok_restart.
  - by eapply engine_ok_load.
Qed.

Lemma reachable_suspend_task clock uuids id s :
  reachable clock uuids s → reachable clock uuids (suspend_task id s).2.
Proof.
  apply preserved_suspend_task; eauto using reachable.
Qed.

Lemma reachable_while_loop clock uuids fuel sched id s :
  reachable clock uuids s →
  reachable clock uuids (while_loop fuel sched id s).1.
Proof.
  apply preserved_while_loop; eauto using reachable.
Qed.

Lemma reachable_execute_task clock uuids sched id s :
  reachable clock uuids s → reachable clock uuids (execute_task sched id s).2.
Proof.
  apply preserved_execute_task; eauto using reachable.
Qed.

Lemma reachable_resume_task clock uuids sched id s :
  reachable clock uuids s → reachable clock uuids (resume_task sched id s).2.
Proof.
  apply preserved_resume_task; eauto using reachable.
Qed.

Lemma reachable_run_call clock uuids s c :
  reachable clock uuids s → reachable clock uuids (run_call s c).
Proof.
  intros Hs. destruct c; cbn.
  - by apply reach_create_task.
  - by apply reachable_execute_task.
  - by apply reachable_resume_task.
  - by apply reachable_suspend_task.
  - by apply reach_cleanup.
  - by apply reach_interval.
  - by apply reach_reopen.
Qed.

Lemma reachable_run_calls clock uuids calls :
  reachable clock uuids (run_calls (new_engine clock uuids) calls).
Proof.
  assert (∀ s, reachable clock uuids s →
               reachable clock uuids (run_calls s calls)) as H.
  { induction calls as [|c calls IH]; intros s Hs; [done|].
    cbn. by apply IH, reachable_run_call. }
  apply H. constructor.
Qed.

(** *** The checkpoint that [max] picks *)

Lemma max_by_timestamp_first pre best l i0 :
  pre !! i0 = Some best →
  (∀ j c, pre !! j = Some c →
          timestamp c ≤ timestamp best ∧
          ((j < i0)%nat → timestamp c < timestamp best)) →
  ∃ i, (pre ++ l) !! i = Some (max_by_timestamp best l) ∧
       ∀ j c, (pre ++ l) !! j = Some c →
              timestamp c ≤ timestamp (max_by_timestamp best l) ∧
              ((j < i)%nat → timestamp c < timestamp (max_by_timestamp best l)).
Proof.
  revert pre best i0. induction l as [|c l IH]; intros pre best i0 Hbest Hpre.
  - cbn. rewrite app_nil_r. eauto.
  - cbn. replace (pre ++ c :: l) with ((pre ++ [c]) ++ l)
      by (by rewrite <- app_assoc).
    destruct (timestamp best <? timestamp c) eqn:Hlt.
    + apply Z.ltb_lt in Hlt. apply (IH _ _ (length pre)).
      * rewrite lookup_app_r by lia. by rewrite Nat.sub_diag.
      * intros j c' Hj. apply lookup_app_Some in Hj as [Hj|[Hge Hj]].
        -- destruct (Hpre j c' Hj). split; [lia|intros _; lia].
        -- apply list_lookup_singleton_Some in Hj as [_ <-].
           split; [lia|intros ?; lia].
    + apply Z.ltb_ge in Hlt. apply (IH _ _ i0).
      * by apply lookup_app_l_Some.
      * intros j c' Hj. apply lookup_app_Some in Hj as [Hj|[Hge Hj]].
        -- by apply Hpre.
        -- apply list_lookup_singleton_Some in Hj as [_ <-].
           split; [lia|]. apply lookup_lt_Some in Hbest. intros ?; lia.
Qed.

Lemma latest_checkpoint_first l latest :
  latest_checkpoint l = Some latest →
  ∃ i, l !! i = Some latest ∧
       ∀ j c, l !! j = Some c →
              timestamp c ≤ timestamp latest ∧
              ((j < i)%nat → timestamp c < timestamp latest).
Proof.
  destruct l as [|c0 l]; [done|]. cbn. intros [= <-].
  apply (max_by_timestamp_first [c0] c0 l 0); [done|].
  intros j c Hj. apply list_lookup_singleton_Some in Hj as [-> <-].
  split; [lia|intros ?; lia].
Qed.

(** ** The claims of the specification *)

(** C1, as the code has it.  When the step at the current index returns
    during [execute_task] (and the checkpoint interval is not zero), the
    engine stores the returned value under [step_<i>_result], advances
    [current_step] by one and leaves [retry_count] as it was: the counter
    is never reset.  A run that completes leaves [retry_count] at its
    initial value plus the number of step calls that raised. *)
Theorem successful_step_keeps_retry_count id task self :
  tasks self !! id = Some task →
  (∀ waiting f r,
     checkpoint_interval self ≠ 0%nat →
     inv_outcome (_execute_step task f (current_step task) (objects self))
       = Returned r →
     ∃ self' task',
       iteration waiting id task f self = (self', Continue) ∧
       tasks self' !! id = Some task' ∧
       state_data task' =
         <[step_key (current_step task) := r]>
           (inv_state (_execute_step task f (current_step task) (objects self))) ∧
       current_step task' = (current_step task + 1)%nat ∧
       retry_count task' = retry_count task) ∧
  (∀ sched self',
     status task ≠ COMPLETED → status task ≠ FAILED →
     execute_task sched id self = (true, self') →
     ∃ task' new,
       tasks self' !! id = Some task' ∧
       trace self' = trace self ++ new ∧
       retry_count task' =
         (retry_count task + length (failure_messages id new))%nat).
Proof.
  intros Ht. split.
  - intros waiting f r HK Hout.
    destruct (iteration waiting id task f self) as [self' x] eqn:Hit.
    destruct (iteration_spec _ _ _ _ _ _ _ Ht Hit)
      as (task' & susp & Ht' & _ & _ & _ & _ & _ & Hcase).
    rewrite Hout, decide_False in Hcase by done.
    destruct Hcase as (-> & Hsd & Hcur & Hrc & _).
    by exists self', task'.
  - intros sched self' Hc Hf Hrun.
    destruct (execute_task_true _ _ _ _ _ Ht Hc Hf Hrun)
      as (task' & new & ? & _ & ? & ? & _).
    by exists task', new.
Qed.

Lemma successful_step_keeps_retry_count_witness :
  tasks mixed_engine !! "uuid-0" = Some (the_task "uuid-0" mixed_engine) ∧
  (∃ self' task',
     iteration [] "uuid-0" (the_task "uuid-0" mixed_engine) example_step_1
       mixed_engine = (self', Continue) ∧
     tasks self' !! "uuid-0" = Some task' ∧
     state_data task' =
       <[step_key (current_step (the_task "uuid-0" mixed_engine))
           := VStr "Initialized successfully"]>
         (inv_state
            (_execute_step (the_task "uuid-0" mixed_engine) example_step_1
               (current_step (the_task "uuid-0" mixed_engine))
               (objects mixed_engine))) ∧
     current_step task' =
       (current_step (the_task "uuid-0" mixed_engine) + 1)%nat ∧
     retry_count task' = retry_count (the_task "uuid-0" mixed_engine)) ∧
  (∃ task' new,
     tasks mixed_done !! "uuid-0" = Some task' ∧
     trace mixed_done = trace mixed_engine ++ new ∧
     retry_count task' =
       (retry_count (the_task "uuid-0" mixed_engine)
        + length (failure_messages "uuid-0" new))%nat).
Proof.
  assert (tasks mixed_engine !! "uuid-0"
          = Some (the_task "uuid-0" mixed_engine)) as Ht
    by (apply the_task_lookup; vm_compute; reflexivity).
  split; [exact Ht|].
  pose proof (successful_step_keeps_retry_count "uuid-0" _ mixed_engine Ht)
    as [HA HB].
  split.
  - apply (HA [] example_step_1 (VStr "Initialized successfully")).
    + vm_compute. discriminate.
    + vm_compute. reflexivity.
  - apply (HB [] mixed_done).
    + vm_compute. discriminate.
    + vm_compute. discriminate.
    + unfold mixed_done. apply run_result. vm_compute. reflexivity.
Defined.

(** C1, counterexample.  The flaky step fails once (fewer than
    [max_retries = 3] times) and then succeeds; the task completes with
    [retry_count = 1], not [0]. *)
Lemma flaky_step_leaves_retry_count :
  flaky_run.1 = true ∧
  status (the_task "uuid-0" flaky_run.2) = COMPLETED ∧
  max_retries (the_task "uuid-0" flaky_run.2) = 3%nat ∧
  failure_messages "uuid-0" (trace flaky_run.2) = ["transient failure"] ∧
  retry_count (the_task "uuid-0" flaky_run.2) = 1%nat ∧
  retry_count (the_task "uuid-0" flaky_run.2) ≠ 0%nat.
Proof. vm_compute. split_and!; (reflexivity || discriminate). Qed.



(** C3, as the code has it.  Under a wall clock whose successive readings
    strictly increase, the step indices of the checkpoints of a task, in
    the order they were written by any sequence of engine calls, never
    decrease; this holds for the task object in the registry and for the
    copy saved in its task file.  (They may repeat.)  It also holds for
    the files of the checkpoint directory when no uuid is drawn twice.  A
    directory has no order of its own: the order in which the files were
    written is read off their timestamps, which are successive readings of
    the clock.  Of two checkpoint files of one task, the one whose
    timestamp is not later carries the step index that is not greater. *)
Theorem checkpoint_steps_non_decreasing clock uuids calls :
  clock_advances clock →
  (∀ id task,
     tasks (run_calls (new_engine clock uuids) calls) !! id = Some task →
     non_decreasing (step <$> checkpoints task)) ∧
  (∀ id file,
     Task_Queues (run_calls (new_engine clock uuids) calls) !! id = Some file →
     non_decreasing (step <$> checkpoints (json_task file))) ∧
  ((∀ n m, uuids n = uuids m → n = m) →
   ∀ f1 f2,
     f1 ∈ Checkpoints (run_calls (new_engine clock uuids) calls) →
     f2 ∈ Checkpoints (run_calls (new_engine clock uuids) calls) →
     ckpt_task_id (json_checkpoint f1) = ckpt_task_id (json_checkpoint f2) →
     timestamp (json_checkpoint f1) ≤ timestamp (json_checkpoint f2) →
     (step (json_checkpoint f1) ≤ step (json_checkpoint f2))%nat).
Proof.
  intros Hclk.
  destruct (engine_ok_run_calls _ calls (engine_ok_new clock uuids Hclk))
    as (_ & Ht & Hq).
  split_and!.
  - intros id task Hl. apply sorted_steps_non_decreasing. by eapply Ht.
  - intros id file Hl. apply sorted_steps_non_decreasing, (Hq id file Hl).
  - intros Hinj.
    destruct (boundary_ok_run_calls _ calls
                (boundary_ok_new clock uuids Hclk Hinj))
      as (_ & _ & _ & _ & _ & _ & Hpair).
    exact Hpair.
Qed.

Lemma checkpoint_steps_non_decreasing_witness :
  clock_advances steady_clock ∧
  (∀ n m, numbered_uuid n = numbered_uuid m → n = m) ∧
  step <$> checkpoints (the_task "uuid-0" interrupted_again)
    = [0; 1; 1]%nat ∧
  (fun file => step (json_checkpoint file)) <$> Checkpoints interrupted_again
    = [0; 1; 1]%nat ∧
  (∀ id task,
     tasks interrupted_again !! id = Some task →
     non_decreasing (step <$> checkpoints task)) ∧
  (∀ id file,
     Task_Queues interrupted_again !! id = Some file →
     non_decreasing (step <$> checkpoints (json_task file))) ∧
  (∀ f1 f2,
     f1 ∈ Checkpoints interrupted_again →
     f2 ∈ Checkpoints interrupted_again →
     ckpt_task_id (json_checkpoint f1) = ckpt_task_id (json_checkpoint f2) →
     timestamp (json_checkpoint f1) ≤ timestamp (json_checkpoint f2) →
     (step (json_checkpoint f1) ≤ step (json_checkpoint f2))%nat).
Proof.
  destruct (checkpoint_steps_non_decreasing steady_clock numbered_uuid
              resumed_calls steady_clock_advances) as (Htasks & Hfiles & Hdir).
  split; [exact steady_clock_advances|].
  split; [exact numbered_uuid_inj|].
  split; [vm_compute; reflexivity|].
  split; [vm_compute; reflexivity|].
  split; [exact Htasks|]. split; [exact Hfiles|].
  exact (Hdir numbered_uuid_inj).
Defined.

(** C3, counterexample.  A one-step task is interrupted, resumed and
    interrupted again: both checkpoints carry step index 0, in the task and
    in the checkpoint directory, so the sequence is not strictly
    increasing. *)
Lemma interrupted_twice_repeats_step_index :
  step <$> checkpoints (the_task "uuid-0" interrupted_twice.2) = [0; 0]%nat ∧
  (fun file => step (json_checkpoint file)) <$> Checkpoints interrupted_twice.2
    = [0; 0]%nat ∧
  ¬ strictly_increasing
      (step <$> checkpoints (the_task "uuid-0" interrupted_twice.2)).
Proof.
  assert (step <$> checkpoints (the_task "uuid-0" interrupted_twice.2)
          = [0; 0]%nat) as H by (vm_compute; reflexivity).
  split_and!; [exact H|vm_compute; reflexivity|].
  rewrite H. intros Hinc.
  specialize (Hinc 0%nat 1%nat 0%nat 0%nat). cbn in Hinc.
  assert (0 < 0)%nat as Habs by (apply Hinc; [lia|done|done]).
  lia.
Qed.

(** C4, evaluated.  The three example steps run to completion with
    checkpoint interval 2: the task is [COMPLETED] with [current_step = 3],
    its result is the value stored under [final_result], and it has exactly
    one checkpoint, whose step index is 1 (the index of the step that had
    just returned), not 2, although its snapshot already holds the result
    of step 1. *)
Theorem example_run_checkpoint_step :
  (example_run 2).1 = true ∧
  status (the_task "uuid-0" (example_run 2).2) = COMPLETED ∧
  current_step (the_task "uuid-0" (example_run 2).2) = 3%nat ∧
  state_data (the_task "uuid-0" (example_run 2).2) !! "final_result"
    = Some (result (the_task "uuid-0" (example_run 2).2)) ∧
  step <$> checkpoints (the_task "uuid-0" (example_run 2).2) = [1%nat] ∧
  (fun file => step (json_checkpoint file)) <$> Checkpoints (example_run 2).2
    = [1%nat] ∧
  (fun c => data c !! step_key 1)
    <$> checkpoints (the_task "uuid-0" (example_run 2).2)
    = [Some (VStr "Processed item 1")].
Proof. vm_compute. split_and!; reflexivity. Qed.

Lemma restore_then_resume id task latest self :
  tasks self !! id = Some task →
  modify_task id (set_status IN_PROGRESS)
    (modify_task id
       (fun t =>
          set_status CHECKPOINTED
            (set_state_data (data latest) (set_current_step (step latest) t)))
       self)
  = with_tasks
      (<[id := set_status IN_PROGRESS
                 (set_state_data (data latest)
                    (set_current_step (step latest) task))]> (tasks self))
      self.
Proof.
  intros Ht. unfold modify_task, with_tasks. cbn. f_equal.
  apply map_eq. intros id'. destruct (decide (id = id')) as [<-|Hne].
  - by rewrite !lookup_alter_eq, lookup_insert_eq, Ht.
  - by rewrite !lookup_alter_ne, lookup_insert_ne.
Qed.


Lemma harmless_start now :
  harmless (fun t => set_started_at (Some now) (set_status IN_PROGRESS t)).
Proof. intros t. cbn. split_and!; done. Qed.

Lemma suspended_in_loop_reachable :
  reachable steady_clock numbered_uuid suspended_in_loop.
Proof.
  unfold suspended_in_loop. apply reachable_while_loop, reach_interval.
  unfold example_in_progress. cbv zeta.
  apply reach_active, reach_modify; [apply harmless_start|].
  apply reach_tick. unfold example_created.
  apply reach_create_task. unfold example_engine.
  apply reach_interval, reach_new.
Qed.



(** C6, evaluated.  [suspend_task] is called (and returns [True]) while the
    first step of the example task is awaited.  The loop of [execute_task]
    never looks at the status: it goes on to call steps 1 and 2 while the
    task is [SUSPENDED], and finally marks it [COMPLETED]. *)
Theorem suspended_task_keeps_running :
  suspended_mid_run.1 = true ∧
  trace suspended_mid_run.2 =
    [Invoke "uuid-0" 0 IN_PROGRESS (Returned (VStr "Initialized successfully"));
     Suspend "uuid-0" true;
     Invoke "uuid-0" 1 SUSPENDED (Returned (VStr "Processed item 1"));
     Invoke "uuid-0" 2 SUSPENDED
       (Returned (VStr "Completed with 1 items processed"))] ∧
  status (the_task "uuid-0" suspended_mid_run.2) = COMPLETED.
Proof. vm_compute. split_and!; reflexivity. Qed.

(** C7, evaluated.  The example task run with a checkpoint after every
    step.  The checkpoint written after step 0 recorded [data] with counter
    0 and no items; after step 1 has run, the same checkpoint object in
    memory reads counter 1 and one item, because [dict.copy()] shares the
    nested dict and list with [state_data]. *)
Theorem checkpoint_snapshot_is_shallow :
  json_checkpoint <$> Checkpoints (example_run 1).2
    = checkpoints (the_task "uuid-0" (example_run 1).2) ∧
  (fun file => snapshot_written file !! "data")
    <$> Checkpoints (example_run 1).2 !! 0%nat
    = Some (Some (TDict [("counter", TScalar (VInt 0)); ("items", TList [])])) ∧
  (fun c => snapshot_in_memory (example_run 1).2 c !! "data")
    <$> checkpoints (the_task "uuid-0" (example_run 1).2) !! 0%nat
    = Some (Some (TDict [("counter", TScalar (VInt 1));
                         ("items", TList [TScalar (VStr "Item 1")])])).
Proof. vm_compute. split_and!; reflexivity. Qed.

(** C8.  [execute_task] on a task that is already [COMPLETED] or [FAILED]
    returns at once, [True] for [COMPLETED] and [False] for [FAILED],
    without calling a step.  If the task is registered, the whole engine
    stays as it was: no field of the task changes.  If the task is known
    only from its task file, the call reads the file and registers what it
    read: a task object with the stored status, [current_step] and
    checkpoints and with the stored state, built from new objects.  The
    task file, the checkpoint directory, the other task objects and the
    objects that existed before stay as they were. *)
Theorem execute_terminal_task_is_noop sched id self :
  (∀ task,
     tasks self !! id = Some task →
     status task = COMPLETED ∨ status task = FAILED →
     execute_task sched id self
       = (bool_decide (status task = COMPLETED), self)) ∧
  (∀ file,
     tasks self !! id = None →
     Task_Queues self !! id = Some file →
     status (json_task file) = COMPLETED ∨ status (json_task file) = FAILED →
     ∃ task h,
       from_dict (json_task_objects file) (json_task file) (objects self)
         = (task, h) ∧
       execute_task sched id self
         = (bool_decide (status (json_task file) = COMPLETED),
            with_tasks (<[id := task]> (tasks self)) (with_objects h self)) ∧
       loaded (json_task file) task ∧
       objects self `prefix_of` h ∧
       (∃ n, (length (objects self) ≤ n ≤ length h)%nat ∧
             Forall2 (fun c c' =>
                        dict_read_back (length (objects self)) n
                          (data c) (data c'))
               (checkpoints (json_task file)) (checkpoints task) ∧
             dict_read_back n (length h) (state_data (json_task file))
               (state_data task)) ∧
       trace (execute_task sched id self).2 = trace self ∧
       Task_Queues (execute_task sched id self).2 = Task_Queues self ∧
       Checkpoints (execute_task sched id self).2 = Checkpoints self ∧
       active_tasks (execute_task sched id self).2 = active_tasks self ∧
       tasks (execute_task sched id self).2 !! id = Some task ∧
       ∀ id', id' ≠ id →
              tasks (execute_task sched id self).2 !! id' = tasks self !! id').
Proof.
  split.
  - intros task Ht Hst. unfold execute_task. rewrite Ht.
    unfold execute_registered. by rewrite decide_True.
  - intros file Ht Hq Hst.
    destruct (load_task_spec id self file Hq)
      as (task & h & n & Hl & Hfd & Hld & Hpre & Hn & Hcs & Hsd).
    assert (status task = status (json_task file)) as Hs
      by (by destruct Hld as (_&_&_&_&?&_)).
    assert (execute_task sched id self
            = (bool_decide (status (json_task file) = COMPLETED),
               with_tasks (<[id := task]> (tasks self)) (with_objects h self)))
      as Hrun.
    { unfold execute_task. rewrite Ht, Hl. unfold execute_registered.
      rewrite decide_True by (by rewrite Hs). by rewrite Hs. }
    exists task, h. rewrite Hrun. cbn.
    split_and!; try done.
    + by exists n.
    + by rewrite lookup_insert_eq.
    + intros id' Hne. by rewrite lookup_insert_ne.
Qed.

Lemma execute_terminal_task_is_noop_witness :
  (tasks (example_run 2).2 !! "uuid-0"
     = Some (the_task "uuid-0" (example_run 2).2) ∧
   (status (the_task "uuid-0" (example_run 2).2) = COMPLETED ∨
    status (the_task "uuid-0" (example_run 2).2) = FAILED) ∧
   execute_task [] "uuid-0" (example_run 2).2 =
     (bool_decide (status (the_task "uuid-0" (example_run 2).2) = COMPLETED),
      (example_run 2).2)) ∧
  (tasks (reopen (example_run 2).2) !! "uuid-0" = None ∧
   ∃ file,
     Task_Queues (reopen (example_run 2).2) !! "uuid-0" = Some file ∧
     status (json_task file) = COMPLETED ∧
     ∃ task,
       (execute_task [] "uuid-0" (reopen (example_run 2).2)).1 = true ∧
       tasks (execute_task [] "uuid-0" (reopen (example_run 2).2)).2
         !! "uuid-0" = Some task ∧
       loaded (json_task file) task ∧
       trace (execute_task [] "uuid-0" (reopen (example_run 2).2)).2
         = trace (reopen (example_run 2).2) ∧
       Task_Queues (execute_task [] "uuid-0" (reopen (example_run 2).2)).2
         = Task_Queues (reopen (example_run 2).2) ∧
       Checkpoints (execute_task [] "uuid-0" (reopen (example_run 2).2)).2
         = Checkpoints (reopen (example_run 2).2)).
Proof.
  split.
  - assert (tasks (example_run 2).2 !! "uuid-0"
            = Some (the_task "uuid-0" (example_run 2).2)) as Ht
      by (apply the_task_lookup; vm_compute; reflexivity).
    assert (status (the_task "uuid-0" (example_run 2).2) = COMPLETED ∨
            status (the_task "uuid-0" (example_run 2).2) = FAILED) as Hst
      by (left; vm_compute; reflexivity).
    split_and!; [exact Ht|exact Hst|].
    exact (proj1 (execute_terminal_task_is_noop [] "uuid-0" (example_run 2).2)
             _ Ht Hst).
  - assert (tasks (reopen (example_run 2).2) !! "uuid-0" = None) as Ht
      by reflexivity.
    split; [exact Ht|].
    destruct (Task_Queues (reopen (example_run 2).2) !! "uuid-0")
      as [file|] eqn:Hq.
    2:{ exfalso. revert Hq. vm_compute. discriminate. }
    assert (status (json_task file) = COMPLETED) as Hst.
    { revert Hq. vm_compute. intros [= <-]. reflexivity. }
    exists file. split; [reflexivity|]. split; [exact Hst|].
    destruct (proj2 (execute_terminal_task_is_noop [] "uuid-0"
                       (reopen (example_run 2).2))
                file Ht Hq (or_introl Hst))
      as (task & h & _ & Hrun & Hld & _ & _ & Htr & Hqs & Hcs & _ & Hreg & _).
    exists task. rewrite Hrun in *. cbn [fst snd] in *.
    split_and!; [by rewrite Hst|exact Hreg|exact Hld|exact Htr|exact Hqs|
                 exact Hcs].
Defined.

(** C9, as the code has it.  [cleanup_completed_tasks] first computes
    [cutoff = now - days_old]; this raises [OverflowError] when [days_old]
    exceeds 999999999 days in magnitude or the result is not a date of the
    years 1 to 9999, and then nothing is removed.  Otherwise the call
    removes from the registry, together with their task files, exactly the
    registered tasks that are [COMPLETED] and whose [completed_at] is set
    and earlier than the cutoff.  Every other registered task, in
    particular every task that is not [COMPLETED], stays as it is with its
    task file, and in either case the checkpoint directory stays as it is.
    The function has no return value: the number removed, the length of
    [to_remove], only goes into the message it prints. *)
Theorem cleanup_removes_expired_registered_tasks days_old self :
  let self' := (cleanup_completed_tasks days_old self).2 in
  (∀ cutoff,
     cutoff_date days_old self = Some cutoff →
     cutoff = datetime_now self - days_old * day ∧
     (cleanup_completed_tasks days_old self).1 = ReturnsNone ∧
     (∀ id task,
        tasks self !! id = Some task →
        status task = COMPLETED →
        (∃ t, completed_at task = Some t ∧ t < cutoff) →
        tasks self' !! id = None ∧ Task_Queues self' !! id = None) ∧
     (∀ id task,
        tasks self !! id = Some task →
        ¬ (status task = COMPLETED ∧
           ∃ t, completed_at task = Some t ∧ t < cutoff) →
        tasks self' !! id = Some task ∧
        Task_Queues self' !! id = Task_Queues self !! id) ∧
     (∀ id task,
        tasks self !! id = Some task → status task ≠ COMPLETED →
        tasks self' !! id = Some task) ∧
     (∀ id, tasks self !! id = None → tasks self' !! id = None) ∧
     (∀ id, id ∈ to_remove cutoff self ↔
            is_Some (tasks self !! id) ∧ tasks self' !! id = None)) ∧
  (cutoff_date days_old self = None →
   cleanup_completed_tasks days_old self = (RaisesOverflowError, tick self)) ∧
  (is_Some (cutoff_date days_old self) ↔
   -999999999 ≤ days_old ≤ 999999999 ∧
   datetime_min ≤ datetime_now self - days_old * day ≤ datetime_max) ∧
  Checkpoints self' = Checkpoints self.
Proof.
  intros self'. subst self'. split_and!.
  - intros cutoff Hcut. unfold cleanup_completed_tasks. rewrite Hcut. cbn.
    assert (cutoff = datetime_now self - days_old * day) as Heq.
    { unfold cutoff_date, timedelta_days, datetime_sub in Hcut.
      repeat case_decide; congruence. }
    assert (∀ id,
              tasks (foldr remove_task (tick self)
                       (to_remove cutoff (tick self))) !! id
              = (if decide (id ∈ to_remove cutoff self) then None
                 else tasks self !! id) ∧
              Task_Queues (foldr remove_task (tick self)
                             (to_remove cutoff (tick self))) !! id
              = (if decide (id ∈ to_remove cutoff self) then None
                 else Task_Queues self !! id)) as Hlook.
    { intros id.
      destruct (lookup_foldr_remove_task (to_remove cutoff (tick self)) id
                  (tick self)) as (Ht & Hq & _).
      by rewrite Ht, Hq. }
    assert (∀ id task, tasks self !! id = Some task →
              ¬ (status task = COMPLETED ∧
                 ∃ t, completed_at task = Some t ∧ t < cutoff) →
              id ∉ to_remove cutoff self) as Hkeep.
    { intros id task Ht Hno Hin.
      apply elem_of_to_remove in Hin as (task' & Ht' & Hexp).
      apply expired_spec in Hexp. rewrite Ht in Ht'. injection Ht' as <-.
      done. }
    split_and!; [exact Heq|done|..].
    + intros id task Ht Hst Hold. destruct (Hlook id) as [-> ->].
      rewrite !decide_True; [done|..];
        apply elem_of_to_remove; exists task; by rewrite expired_spec.
    + intros id task Ht Hno. destruct (Hlook id) as [-> ->].
      rewrite !decide_False by eauto. done.
    + intros id task Ht Hst. destruct (Hlook id) as [-> _].
      rewrite decide_False; [done|]. eapply Hkeep; [done|]. naive_solver.
    + intros id Ht. destruct (Hlook id) as [-> _]. by case_decide.
    + intros id. destruct (Hlook id) as [-> _]. split.
      * intros Hin. rewrite decide_True by done. split; [|done].
        apply elem_of_to_remove in Hin as (task & -> & _). eauto.
      * intros [Hsome Hnone]. case_decide; [done|].
        rewrite Hnone in Hsome. by destruct Hsome.
  - intros Hcut. unfold cleanup_completed_tasks. by rewrite Hcut.
  - unfold cutoff_date, timedelta_days, datetime_sub. split.
    + intros [c Hc]. repeat case_decide; first [done|lia].
    + intros [Hd Hr]. rewrite decide_True by done. cbn.
      rewrite decide_True by lia. eauto.
  - unfold cleanup_completed_tasks.
    destruct (cutoff_date days_old self) as [cutoff|]; cbn; [|done].
    by destruct (lookup_foldr_remove_task (to_remove cutoff (tick self)) ""
                   (tick self)) as (_ & _ & ->).
Qed.

(** C9, counterexample.  The example task completed more than eight days
    ago with one checkpoint.  [cleanup_completed_tasks(7)] removes the task
    and returns nothing, and the checkpoint file of the removed task is
    still in the checkpoint directory. *)
Lemma cleanup_keeps_checkpoint_files :
  status (the_task "uuid-0" completed_long_ago) = COMPLETED ∧
  cutoff_date 7 completed_long_ago
    = Some (datetime_now completed_long_ago - 7 * day) ∧
  to_remove (datetime_now completed_long_ago - 7 * day) completed_long_ago
    = ["uuid-0"] ∧
  (cleanup_completed_tasks 7 completed_long_ago).1 = ReturnsNone ∧
  registered "uuid-0" (cleanup_completed_tasks 7 completed_long_ago).2 = false ∧
  (fun file => (json_file_name file, ckpt_task_id (json_checkpoint file)))
    <$> Checkpoints (cleanup_completed_tasks 7 completed_long_ago).2
    = [("uuid-0_checkpoint_uuid-1.json", "uuid-0")].
Proof. vm_compute. split_and!; reflexivity. Qed.

Lemma cleanup_removes_expired_registered_tasks_witness :
  (cutoff_date 7 completed_long_ago
     = Some (datetime_now completed_long_ago - 7 * day) ∧
   tasks completed_long_ago !! "uuid-0"
     = Some (the_task "uuid-0" completed_long_ago) ∧
   status (the_task "uuid-0" completed_long_ago) = COMPLETED ∧
   (∃ t, completed_at (the_task "uuid-0" completed_long_ago) = Some t ∧
         t < datetime_now completed_long_ago - 7 * day) ∧
   (cleanup_completed_tasks 7 completed_long_ago).1 = ReturnsNone ∧
   tasks (cleanup_completed_tasks 7 completed_long_ago).2 !! "uuid-0" = None ∧
   Task_Queues (cleanup_completed_tasks 7 completed_long_ago).2 !! "uuid-0"
     = None) ∧
  (cutoff_date (-3000000) completed_long_ago = None ∧
   cleanup_completed_tasks (-3000000) completed_long_ago
     = (RaisesOverflowError, tick completed_long_ago)).
Proof.
  assert (cutoff_date 7 completed_long_ago
          = Some (datetime_now completed_long_ago - 7 * day)) as Hcut
    by (vm_compute; reflexivity).
  assert (tasks completed_long_ago !! "uuid-0"
          = Some (the_task "uuid-0" completed_long_ago)) as Ht
    by (apply the_task_lookup; vm_compute; reflexivity).
  assert (status (the_task "uuid-0" completed_long_ago) = COMPLETED) as Hst
    by (vm_compute; reflexivity).
  assert (∃ t, completed_at (the_task "uuid-0" completed_long_ago) = Some t ∧
               t < datetime_now completed_long_ago - 7 * day) as Hold
    by (exists 1700000000000003; split; vm_compute; reflexivity).
  assert (cutoff_date (-3000000) completed_long_ago = None) as Hover
    by (vm_compute; reflexivity).
  pose proof (cleanup_removes_expired_registered_tasks 7 completed_long_ago)
    as (Hsome & _).
  destruct (Hsome _ Hcut) as (_ & Hret & Hrem & _).
  destruct (Hrem "uuid-0" _ Ht Hst Hold) as [Hgone Hfile].
  pose proof (cleanup_removes_expired_registered_tasks (-3000000)
                completed_long_ago) as (_ & Hnone & _).
  split.
  - split_and!; [exact Hcut|exact Ht|exact Hst|exact Hold|exact Hret|
                 exact Hgone|exact Hfile].
  - split; [exact Hover|]. exact (Hnone Hover).
Defined.

(** The run behind the second part of C10, evaluated: the second step of
    the task fails once and succeeds on retry; the task completes and its
    error field still reads "transient failure". *)
Lemma completed_task_keeps_error :
  status (the_task "uuid-0" mixed_done) = COMPLETED ∧
  failure_messages "uuid-0" (trace mixed_done) = ["transient failure"] ∧
  error (the_task "uuid-0" mixed_done) = Some "transient failure".
Proof. vm_compute. split_and!; reflexivity. Qed.

(** C10.  No engine call clears the error field of a task: if [error] is
    set before a call, it is set after it (a call of [create_task] is only
    considered when it does not replace the task by drawing its id again).
    A run of [execute_task] that returns [True] leaves the task [COMPLETED]
    with [error] holding the message of the last step call that raised
    during the run, or the value it had before if none did. *)
Theorem error_is_never_cleared :
  (∀ c id task task' self,
     tasks self !! id = Some task →
     is_Some (error task) →
     ¬ creates c self id →
     tasks (run_call self c) !! id = Some task' →
     is_Some (error task')) ∧
  (∀ sched id task self self',
     tasks self !! id = Some task →
     status task ≠ COMPLETED → status task ≠ FAILED →
     execute_task sched id self = (true, self') →
     ∃ task' new,
       tasks self' !! id = Some task' ∧
       status task' = COMPLETED ∧
       trace self' = trace self ++ new ∧
       (∀ msg, last (failure_messages id new) = Some msg →
               error task' = Some msg) ∧
       (failure_messages id new = [] → error task' = error task)).
Proof.
  split.
  - intros c id task task' self Ht He Hnew Ht'.
    assert (has_error id self) as Hhas by (by exists task).
    assert (∀ self1, has_error id self1 → tasks self1 !! id = Some task' →
                     is_Some (error task')) as Hconcl.
    { intros self1 (t & Hl & Hs) Hl'. congruence. }
    destruct c as [name steps description priority|sched id'|sched id'|id'
                  |days_old|K|]; cbn in Ht', Hnew.
    + unfold create_task in Ht'. cbn in Ht'.
      rewrite tasks_save_task in Ht'. cbn in Ht'.
      rewrite lookup_insert_ne in Ht' by done. congruence.
    + eapply Hconcl; [|done]. by apply has_error_execute_task.
    + eapply Hconcl; [|done]. by apply has_error_resume_task.
    + eapply Hconcl; [|done]. by apply has_error_suspend_task.
    + unfold cleanup_completed_tasks in Ht'.
      destruct (cutoff_date days_old self) as [cutoff|]; cbn in Ht'.
      * destruct (lookup_foldr_remove_task (to_remove cutoff (tick self)) id
                    (tick self)) as (Hl & _ & _).
        rewrite Hl in Ht'. case_decide; [done|]. cbn in Ht'. congruence.
      * congruence.
    + congruence.
    + by rewrite lookup_empty in Ht'.
  - intros sched id task self self' Ht Hc Hf Hrun.
    destruct (execute_task_true _ _ _ _ _ Ht Hc Hf Hrun)
      as (task' & new & Ht' & Hst & Htr & _ & Herr).
    exists task', new. split_and!; try done.
    + intros msg Hlast. by rewrite Herr, Hlast.
    + intros Hnil. by rewrite Herr, Hnil.
Qed.

Lemma error_is_never_cleared_witness :
  (tasks mixed_done !! "uuid-0" = Some (the_task "uuid-0" mixed_done) ∧
   is_Some (error (the_task "uuid-0" mixed_done)) ∧
   ¬ creates (SuspendTask "uuid-0") mixed_done "uuid-0" ∧
   tasks (run_call mixed_done (SuspendTask "uuid-0")) !! "uuid-0"
     = Some (the_task "uuid-0" (run_call mixed_done (SuspendTask "uuid-0"))) ∧
   is_Some
     (error (the_task "uuid-0" (run_call mixed_done (SuspendTask "uuid-0"))))) ∧
  (tasks mixed_engine !! "uuid-0" = Some (the_task "uuid-0" mixed_engine) ∧
   status (the_task "uuid-0" mixed_engine) ≠ COMPLETED ∧
   status (the_task "uuid-0" mixed_engine) ≠ FAILED ∧
   execute_task [] "uuid-0" mixed_engine = (true, mixed_done) ∧
   ∃ task' new,
     tasks mixed_done !! "uuid-0" = Some task' ∧
     status task' = COMPLETED ∧
     trace mixed_done = trace mixed_engine ++ new ∧
     (∀ msg, last (failure_messages "uuid-0" new) = Some msg →
             error task' = Some msg) ∧
     (failure_messages "uuid-0" new = [] →
      error task' = error (the_task "uuid-0" mixed_engine))).
Proof.
  destruct error_is_never_cleared as [HA HB].
  split.
  - assert (tasks mixed_done !! "uuid-0" = Some (the_task "uuid-0" mixed_done))
      as Ht by (apply the_task_lookup; vm_compute; reflexivity).
    assert (is_Some (error (the_task "uuid-0" mixed_done))) as He
      by (exists "transient failure"; vm_compute; reflexivity).
    assert (¬ creates (SuspendTask "uuid-0") mixed_done "uuid-0") as Hnew
      by (simpl; intros []).
    assert (tasks (run_call mixed_done (SuspendTask "uuid-0")) !! "uuid-0"
            = Some (the_task "uuid-0"
                      (run_call mixed_done (SuspendTask "uuid-0")))) as Ht'
      by (apply the_task_lookup; vm_compute; reflexivity).
    split_and!; [exact Ht|exact He|exact Hnew|exact Ht'|].
    exact (HA _ _ _ _ _ Ht He Hnew Ht').
  - assert (tasks mixed_engine !! "uuid-0"
            = Some (the_task "uuid-0" mixed_engine)) as Ht
      by (apply the_task_lookup; vm_compute; reflexivity).
    assert (status (the_task "uuid-0" mixed_engine) ≠ COMPLETED) as Hc
      by (vm_compute; discriminate).
    assert (status (the_task "uuid-0" mixed_engine) ≠ FAILED) as Hf
      by (vm_compute; discriminate).
    assert (execute_task [] "uuid-0" mixed_engine = (true, mixed_done)) as Hrun
      by (unfold mixed_done; apply run_result; vm_compute; reflexivity).
    split_and!; [exact Ht|exact Hc|exact Hf|exact Hrun|].
    exact (HB _ _ _ _ _ Ht Hc Hf Hrun).
Defined.

(** ** More of the behaviour of the engine *)

(** X1.  A bound on the work of one run.  Whatever the steps do and
    whatever other coroutines suspend meanwhile, [execute_task] on a
    registered task that is not yet completed or failed calls step
    functions at most
    [(len(steps) - current_step) + (max_retries - retry_count) + 1] times,
    a difference that would be negative counting as 0; the first call is at
    [current_step], every later call is at the same index as the one before
    or at the next one, the run leaves [current_step] where this sequence
    ends, and every index called is inside the step list. *)
Theorem execute_task_calls_bounded sched id task self ok self' :
  tasks self !! id = Some task →
  status task ≠ COMPLETED → status task ≠ FAILED →
  execute_task sched id self = (ok, self') →
  ∃ task' new,
    tasks self' !! id = Some task' ∧
    trace self' = trace self ++ new ∧
    (length (invocations id new)
     ≤ (length (steps task) - current_step task)
       + (max_retries task - retry_count task) + 1)%nat ∧
    walk (current_step task) (invocations id new) (current_step task') ∧
    Forall (fun i => (i < length (steps task))%nat) (invocations id new).
Proof.
  intros Ht Hc Hf Hrun. unfold execute_task in Hrun. rewrite Ht in Hrun.
  destruct (execute_registered_enter sched id task self Ht Hc Hf)
    as (self0 & task0 & Ht0 & Hfr & _ & _ & Htr0 & _ & _ & _ & _ & _ & Heq).
  rewrite Heq in Hrun. clear Heq.
  destruct (while_loop _ _ _ _) as [self1 x] eqn:Hloop.
  destruct (while_loop_walk _ _ _ _ _ _ _ Ht0 Hloop)
    as (t1 & new & Ht1 & Htr1 & Hst1 & _ & _ & Hlen & Hwalk & Hall).
  destruct Hfr as (Hst & Hcur & Hrc & Hmr & _).
  assert (length (invocations id new)
          ≤ length (steps task) - current_step task
            + (max_retries task - retry_count task) + 1)%nat as Hbound.
  { unfold loop_bound in Hlen. rewrite Hst, Hcur, Hrc, Hmr in Hlen. lia. }
  rewrite Hcur in Hwalk. rewrite Hst in Hall.
  destruct x; injection Hrun as <- <-.
  - destruct (complete_task_spec id self1 t1 Ht1) as (Ht' & _ & Htr' & _).
    eexists _, new. split; [exact Ht'|]. cbn.
    split_and!; try done. by rewrite Htr', Htr1, Htr0.
  - exists t1, new. split_and!; try done. by rewrite Htr1, Htr0.
  - destruct (on_keyboard_interrupt_spec id self1 t1 Ht1) as (Ht' & _ & Htr' & _).
    eexists _, new. split; [exact Ht'|]. cbn.
    split_and!; try done. by rewrite Htr', Htr1, Htr0.
  - exists t1, new. split_and!; try done. by rewrite Htr1, Htr0.
Qed.

Lemma execute_task_calls_bounded_witness :
  tasks mixed_engine !! "uuid-0" = Some (the_task "uuid-0" mixed_engine) ∧
  status (the_task "uuid-0" mixed_engine) ≠ COMPLETED ∧
  status (the_task "uuid-0" mixed_engine) ≠ FAILED ∧
  execute_task [] "uuid-0" mixed_engine = (true, mixed_done) ∧
  ∃ task' new,
    tasks mixed_done !! "uuid-0" = Some task' ∧
    trace mixed_done = trace mixed_engine ++ new ∧
    (length (invocations "uuid-0" new)
     ≤ (length (steps (the_task "uuid-0" mixed_engine))
        - current_step (the_task "uuid-0" mixed_engine))
       + (max_retries (the_task "uuid-0" mixed_engine)
          - retry_count (the_task "uuid-0" mixed_engine)) + 1)%nat ∧
    walk (current_step (the_task "uuid-0" mixed_engine))
      (invocations "uuid-0" new) (current_step task') ∧
    Forall (fun i =>
              (i < length (steps (the_task "uuid-0" mixed_engine)))%nat)
      (invocations "uuid-0" new).
Proof.
  assert (tasks mixed_engine !! "uuid-0"
          = Some (the_task "uuid-0" mixed_engine)) as Ht
    by (apply the_task_lookup; vm_compute; reflexivity).
  assert (status (the_task "uuid-0" mixed_engine) ≠ COMPLETED) as Hc
    by (vm_compute; discriminate).
  assert (status (the_task "uuid-0" mixed_engine) ≠ FAILED) as Hf
    by (vm_compute; discriminate).
  assert (execute_task [] "uuid-0" mixed_engine = (true, mixed_done)) as Hrun
    by (unfold mixed_done; apply run_result; vm_compute; reflexivity).
  split_and!; [exact Ht|exact Hc|exact Hf|exact Hrun|].
  exact (execute_task_calls_bounded [] "uuid-0" _ mixed_engine true mixed_done
           Ht Hc Hf Hrun).
Defined.

(** X2.  The run in which nothing goes wrong.  If every step from
    [current_step] on returns and the checkpoint interval is not zero,
    [execute_task] calls each remaining step exactly once, in order,
    returns [True] and leaves the task [COMPLETED] with [current_step] at
    the end of the step list, [retry_count] and [error] untouched, a
    completion time, and [result] read from [state_data['final_result']]
    (or the default message). *)
Theorem execute_task_runs_each_step_once sched id task self :
  tasks self !! id = Some task →
  status task ≠ COMPLETED → status task ≠ FAILED →
  checkpoint_interval self ≠ 0%nat →
  (∀ i f, (current_step task ≤ i)%nat → steps task !! i = Some f →
          always_returns f) →
  ∃ self' task' new,
    execute_task sched id self = (true, self') ∧
    trace self' = trace self ++ new ∧
    invocations id new =
      seq (current_step task) (length (steps task) - current_step task) ∧
    tasks self' !! id = Some task' ∧
    status task' = COMPLETED ∧
    current_step task' = (current_step task `max` length (steps task))%nat ∧
    retry_count task' = retry_count task ∧
    error task' = error task ∧
    is_Some (completed_at task') ∧
    result task' =
      default (VStr "Task completed successfully")
        (state_data task' !! "final_result").
Proof.
  intros Ht Hc Hf HK Hall. unfold execute_task. rewrite Ht.
  destruct (execute_registered_enter sched id task self Ht Hc Hf)
    as (self0 & task0 & Ht0 & Hfr & _ & _ & Htr0 & HK0 & _ & _ & _ & _ & ->).
  destruct Hfr as (Hst & Hcur & Hrc & Hmr & _ & Herr).
  destruct (while_loop_all_return (loop_bound task) sched id self0 task0)
    as (self1 & t1 & new & -> & Ht1 & Htr1 & Hinv & _ & Hcur1 & Hst1 & Hrc1
        & Herr1); [done|congruence| | |].
  { intros i f Hi. rewrite Hst. apply Hall. lia. }
  { unfold loop_bound. rewrite Hst, Hcur. lia. }
  destruct (complete_task_spec id self1 t1 Ht1) as (Ht' & _ & Htr' & _).
  eexists _, _, new. split; [done|].
  split; [by rewrite Htr', Htr1, Htr0|].
  split; [by rewrite Hinv, Hst, Hcur|].
  split; [exact Ht'|]. cbn.
  split_and!; try done; try congruence.
Qed.

Lemma execute_task_runs_each_step_once_witness :
  tasks one_step_engine !! "uuid-0"
    = Some (the_task "uuid-0" one_step_engine) ∧
  status (the_task "uuid-0" one_step_engine) ≠ COMPLETED ∧
  status (the_task "uuid-0" one_step_engine) ≠ FAILED ∧
  checkpoint_interval one_step_engine ≠ 0%nat ∧
  (∀ i f, (current_step (the_task "uuid-0" one_step_engine) ≤ i)%nat →
          steps (the_task "uuid-0" one_step_engine) !! i = Some f →
          always_returns f) ∧
  ∃ self' task' new,
    execute_task [] "uuid-0" one_step_engine = (true, self') ∧
    trace self' = trace one_step_engine ++ new ∧
    invocations "uuid-0" new =
      seq (current_step (the_task "uuid-0" one_step_engine))
        (length (steps (the_task "uuid-0" one_step_engine))
         - current_step (the_task "uuid-0" one_step_engine)) ∧
    tasks self' !! "uuid-0" = Some task' ∧
    status task' = COMPLETED ∧
    current_step task' =
      (current_step (the_task "uuid-0" one_step_engine)
         `max` length (steps (the_task "uuid-0" one_step_engine)))%nat ∧
    retry_count task' = retry_count (the_task "uuid-0" one_step_engine) ∧
    error task' = error (the_task "uuid-0" one_step_engine) ∧
    is_Some (completed_at task') ∧
    result task' =
      default (VStr "Task completed successfully")
        (state_data task' !! "final_result").
Proof.
  assert (tasks one_step_engine !! "uuid-0"
          = Some (the_task "uuid-0" one_step_engine)) as Ht
    by (apply the_task_lookup; vm_compute; reflexivity).
  assert (status (the_task "uuid-0" one_step_engine) ≠ COMPLETED) as Hc
    by (vm_compute; discriminate).
  assert (status (the_task "uuid-0" one_step_engine) ≠ FAILED) as Hf
    by (vm_compute; discriminate).
  assert (checkpoint_interval one_step_engine ≠ 0%nat) as HK
    by (vm_compute; discriminate).
  assert (∀ i f, (current_step (the_task "uuid-0" one_step_engine) ≤ i)%nat →
                 steps (the_task "uuid-0" one_step_engine) !! i = Some f →
                 always_returns f) as Hall.
  { intros i f _ Hf'.
    assert (steps (the_task "uuid-0" one_step_engine) = [example_step_1])
      as Hsteps by (vm_compute; reflexivity).
    rewrite Hsteps in Hf'. destruct i as [|i]; [|by destruct i].
    injection Hf' as <-. intros t j h. eexists. reflexivity. }
  split_and!; [exact Ht|exact Hc|exact Hf|exact HK|exact Hall|].
  exact (execute_task_runs_each_step_once [] "uuid-0" _ one_step_engine
           Ht Hc Hf HK Hall).
Defined.

(** *** [suspend_task] *)

(** X3.  What a successful [suspend_task] does.  For a registered task that
    is [IN_PROGRESS] the call returns [True]; the task becomes [SUSPENDED]
    and gets one more checkpoint, which records its [current_step] and a
    copy of its [state_data] at the current time; the checkpoint is written
    to the checkpoint directory as one file named after the task and the
    checkpoint (a file of that name, if there is one, is replaced), the
    task file is rewritten with the new status and checkpoint list, the
    first occurrence of the id is taken out of [active_tasks], no step is
    called and no other task or task file is touched. *)
Theorem suspend_task_checkpoints_and_saves id task self :
  tasks self !! id = Some task →
  status task = IN_PROGRESS →
  let c := {| checkpoint_id := uuid4 self; ckpt_task_id := id;
              step := current_step task; data := state_data task;
              timestamp := datetime_now self |} in
  let task' := set_checkpoints (checkpoints task ++ [c])
                 (set_status SUSPENDED task) in
  let self' := (suspend_task id self).2 in
  (suspend_task id self).1 = true ∧
  tasks self' !! id = Some task' ∧
  Task_Queues self' !! id =
    Some {| json_task := to_dict task'; json_task_objects := objects self |} ∧
  Checkpoints self' =
    write_file
      {| json_file_name := id +:+ "_checkpoint_" +:+ uuid4 self +:+ ".json";
         json_checkpoint := c;
         json_checkpoint_objects := objects self |}
      (Checkpoints self) ∧
  active_tasks self' = remove_first id (active_tasks self) ∧
  same_elsewhere id self self' ∧
  trace self' = trace self ∧ objects self' = objects self.
Proof.
  intros Ht Hst c task' self'. subst self'. unfold suspend_task.
  rewrite Ht, decide_True by done. cbn.
  set (self1 := modify_task id (set_status SUSPENDED) self).
  assert (tasks self1 !! id = Some (set_status SUSPENDED task)) as Ht1
    by (subst self1; by rewrite lookup_modify_task, Ht).
  pose proof (lookup_save_checkpoint id self1 _ Ht1) as Ht2. cbn in Ht2.
  destruct (save_checkpoint_fields id self1) as (Ho & _ & Htr & Ha & Hq & _).
  destruct (save_task_fields id (_save_checkpoint id self1))
    as (Ho' & _ & Htr' & Ha' & Hc' & _).
  split; [done|].
  split; [rewrite tasks_save_task; exact Ht2|].
  split; [erewrite save_task_file by exact Ht2; by rewrite Ho', Ho|].
  split; [rewrite Hc'; unfold _save_checkpoint; by rewrite Ht1|].
  split; [by rewrite Ha', Ha|].
  split; [|split; [by rewrite Htr', Htr|by rewrite Ho', Ho]].
  intros id' Hne. cbn. rewrite tasks_save_task.
  rewrite lookup_save_checkpoint_ne by done.
  unfold _save_task. rewrite Ht2. cbn. rewrite lookup_insert_ne by done.
  rewrite Hq. subst self1. cbn. by rewrite lookup_alter_ne.
Qed.

Lemma suspend_task_checkpoints_and_saves_witness :
  tasks example_in_progress !! "uuid-0"
    = Some (the_task "uuid-0" example_in_progress) ∧
  status (the_task "uuid-0" example_in_progress) = IN_PROGRESS ∧
  (suspend_task "uuid-0" example_in_progress).1 = true ∧
  active_tasks (suspend_task "uuid-0" example_in_progress).2
    = remove_first "uuid-0" (active_tasks example_in_progress).
Proof.
  assert (tasks example_in_progress !! "uuid-0"
          = Some (the_task "uuid-0" example_in_progress)) as Ht
    by (apply the_task_lookup; vm_compute; reflexivity).
  assert (status (the_task "uuid-0" example_in_progress) = IN_PROGRESS) as Hst
    by (vm_compute; reflexivity).
  pose proof (suspend_task_checkpoints_and_saves "uuid-0" _ example_in_progress
                Ht Hst) as (H1 & _ & _ & _ & H5 & _).
  split_and!; [exact Ht|exact Hst|exact H1|exact H5].
Defined.

(** X4.  [suspend_task] succeeds exactly on a registered task that is
    [IN_PROGRESS].  In every other case, also for a task that exists only
    as a file, it returns [False] and changes nothing. *)
Theorem suspend_task_only_in_progress id self :
  ((suspend_task id self).1 = true ↔
   ∃ task, tasks self !! id = Some task ∧ status task = IN_PROGRESS) ∧
  ((suspend_task id self).1 = false → (suspend_task id self).2 = self).
Proof.
  unfold suspend_task. destruct (tasks self !! id) as [task|] eqn:Ht.
  - destruct (decide (status task = IN_PROGRESS)) as [Hs|Hs]; cbn.
    + split; [|done]. split; [eauto|done].
    + split; [|done]. split; [done|]. intros (t & [= <-] & ?). done.
  - cbn. split; [|done]. split; [done|]. by intros (t & ? & _).
Qed.

Lemma suspend_task_only_in_progress_witness :
  (suspend_task "uuid-0" reopened_engine).1 = false ∧
  (suspend_task "uuid-0" reopened_engine).2 = reopened_engine.
Proof.
  assert ((suspend_task "uuid-0" reopened_engine).1 = false) as H
    by (vm_compute; reflexivity).
  split; [exact H|].
  exact (proj2 (suspend_task_only_in_progress "uuid-0" reopened_engine) H).
Defined.

(** *** Ids the engine does not know *)

(** X5.  An id that is neither registered nor stored as a task file is
    rejected by every operation that takes an id: [execute_task],
    [resume_task] and [suspend_task] return [False], [get_task_status]
    returns [None], and none of them changes the engine or calls a step. *)
Theorem unknown_task_is_rejected sched id self :
  tasks self !! id = None →
  Task_Queues self !! id = None →
  execute_task sched id self = (false, self) ∧
  resume_task sched id self = (false, self) ∧
  suspend_task id self = (false, self) ∧
  get_task_status id self = (None, self).
Proof.
  intros Ht Hq.
  unfold execute_task, resume_task, suspend_task, get_task_status, _load_task.
  by rewrite Ht, Hq.
Qed.

Lemma unknown_task_is_rejected_witness :
  tasks example_created !! "no such task" = None ∧
  Task_Queues example_created !! "no such task" = None ∧
  execute_task [] "no such task" example_created = (false, example_created) ∧
  resume_task [] "no such task" example_created = (false, example_created) ∧
  suspend_task "no such task" example_created = (false, example_created) ∧
  get_task_status "no such task" example_created = (None, example_created).
Proof.
  assert (tasks example_created !! "no such task" = None) as Ht
    by (vm_compute; reflexivity).
  assert (Task_Queues example_created !! "no such task" = None) as Hq
    by (vm_compute; reflexivity).
  split; [exact Ht|]. split; [exact Hq|].
  exact (unknown_task_is_rejected [] "no such task" example_created Ht Hq).
Defined.

(** X6.  No call of the engine removes a checkpoint file.  Whatever
    sequence of calls is made (creating, executing, resuming and suspending
    tasks, cleaning up completed tasks, changing the checkpoint interval,
    starting a new process on the same directories), every file that was in
    the checkpoint directory before is still there, at its place and under
    its name.  Its content is the same too, unless one of the calls saved a
    checkpoint under that very name: then the file holds that checkpoint,
    whose id is a uuid drawn during the calls. *)
Theorem checkpoint_files_are_never_removed self calls i f :
  Checkpoints self !! i = Some f →
  ∃ f', Checkpoints (run_calls self calls) !! i = Some f' ∧
        json_file_name f' = json_file_name f ∧
        (f' = f ∨
         ∃ k, (uuid_draws self ≤ k < uuid_draws (run_calls self calls))%nat ∧
              checkpoint_id (json_checkpoint f') = uuid_source self k).
Proof.
  intros Hi.
  destruct (kept_since_run_calls _ _ _ self calls (kept_since_start self))
    as (Hu & _ & Hk).
  destruct (Hk i f Hi) as (f' & Hf' & Hn & Hc).
  exists f'. split; [done|]. split; [done|]. by rewrite <- Hu.
Qed.

Lemma checkpoint_files_are_never_removed_witness :
  ∃ f, Checkpoints interrupted_in_second_step !! 0%nat = Some f ∧
  ∃ f', Checkpoints
          (run_calls interrupted_in_second_step [ResumeTask [] "uuid-0"])
          !! 0%nat = Some f' ∧
        json_file_name f' = json_file_name f ∧
        (f' = f ∨
         ∃ k, (uuid_draws interrupted_in_second_step ≤ k
               < uuid_draws
                   (run_calls interrupted_in_second_step
                      [ResumeTask [] "uuid-0"]))%nat ∧
              checkpoint_id (json_checkpoint f')
                = uuid_source interrupted_in_second_step k).
Proof.
  destruct (Checkpoints interrupted_in_second_step !! 0%nat) as [f|] eqn:Hf.
  2:{ exfalso. revert Hf. vm_compute. discriminate. }
  exists f. split; [reflexivity|].
  exact (checkpoint_files_are_never_removed interrupted_in_second_step
           [ResumeTask [] "uuid-0"] 0 f Hf).
Defined.

(** X7.  What no call changes in a task.  Whatever task an [execute_task],
    [resume_task] or [suspend_task] call is made for, and whatever other
    coroutines do meanwhile, a registered task stays registered with the
    same id, name, description, priority, creation time, step list and
    retry limit; its [retry_count] does not decrease and stays within
    [max_retries] if it was; once it has left [PENDING] it does not come
    back to it and keeps its start time; and its list of checkpoints only
    grows at the end. *)
Theorem calls_keep_task_identity sched id' id task self :
  tasks self !! id = Some task →
  later_state id task (execute_task sched id' self).2 ∧
  later_state id task (resume_task sched id' self).2 ∧
  later_state id task (suspend_task id' self).2.
Proof.
  intros Ht.
  assert (later_state id task self) as HI
    by (exists task; auto using evolves_refl).
  auto using later_state_execute_task, later_state_resume_task,
    later_state_suspend_task.
Qed.

Lemma calls_keep_task_identity_witness :
  tasks mixed_engine !! "uuid-0" = Some (the_task "uuid-0" mixed_engine) ∧
  later_state "uuid-0" (the_task "uuid-0" mixed_engine)
    (execute_task [] "uuid-0" mixed_engine).2.
Proof.
  assert (tasks mixed_engine !! "uuid-0"
          = Some (the_task "uuid-0" mixed_engine)) as Ht
    by (apply the_task_lookup; vm_compute; reflexivity).
  split; [exact Ht|].
  exact (proj1 (calls_keep_task_identity [] "uuid-0" "uuid-0" _ mixed_engine
                  Ht)).
Defined.

(** X8.  A call works on its own task only.  If no task object registered
    under [id] is [IN_PROGRESS], then [suspend_task] for any task, [id]
    itself included, and [execute_task] and [resume_task] for any other
    task leave the task object and the task file of [id] exactly as they
    were, whatever other coroutines suspend in the meantime. *)
Theorem calls_leave_other_tasks_untouched sched id' id self :
  quiet id self →
  untouched id self (suspend_task id' self).2 ∧
  (id' ≠ id →
   untouched id self (execute_task sched id' self).2 ∧
   untouched id self (resume_task sched id' self).2).
Proof.
  intros Hq. split; [by apply untouched_suspend_task|].
  intros Hne. auto using untouched_execute_task, untouched_resume_task.
Qed.

Lemma calls_leave_other_tasks_untouched_witness :
  tasks two_pending !! "uuid-1" = Some (the_task "uuid-1" two_pending) ∧
  Task_Queues two_pending !! "uuid-1" ≠ None ∧
  quiet "uuid-1" two_pending ∧
  "uuid-0" ≠ "uuid-1" ∧
  untouched "uuid-1" two_pending (suspend_task "uuid-1" two_pending).2 ∧
  untouched "uuid-1" two_pending (suspend_task "uuid-0" two_pending).2 ∧
  untouched "uuid-1" two_pending (execute_task [] "uuid-0" two_pending).2 ∧
  untouched "uuid-1" two_pending (resume_task [] "uuid-0" two_pending).2.
Proof.
  assert (tasks two_pending !! "uuid-1" = Some (the_task "uuid-1" two_pending))
    as Ht by (apply the_task_lookup; vm_compute; reflexivity).
  assert (Task_Queues two_pending !! "uuid-1" ≠ None) as Hfile
    by (vm_compute; discriminate).
  assert (quiet "uuid-1" two_pending) as Hq.
  { intros t Ht'. rewrite Ht in Ht'. injection Ht' as <-.
    vm_compute. discriminate. }
  assert ("uuid-0" ≠ "uuid-1") as Hne by discriminate.
  destruct (calls_leave_other_tasks_untouched [] "uuid-1" "uuid-1" two_pending
              Hq) as [Hown _].
  destruct (calls_leave_other_tasks_untouched [] "uuid-0" "uuid-1" two_pending
              Hq) as [Hsusp Hrun].
  destruct (Hrun Hne) as [Hexec Hres].
  split_and!; [exact Ht|exact Hfile|exact Hq|exact Hne|exact Hown|exact Hsusp|
               exact Hexec|exact Hres].
Defined.

(** X9.  [COMPLETED] and [FAILED] are final.  Once a registered task has one
    of these statuses, no [execute_task], [resume_task] or [suspend_task]
    call, for this task or for any other, changes the task object or its
    file: a failed task is never retried and a completed one never runs
    again. *)
Theorem terminal_task_is_frozen sched id' id task self :
  tasks self !! id = Some task →
  status task = COMPLETED ∨ status task = FAILED →
  (tasks (execute_task sched id' self).2 !! id = Some task ∧
   Task_Queues (execute_task sched id' self).2 !! id
     = Task_Queues self !! id) ∧
  (tasks (resume_task sched id' self).2 !! id = Some task ∧
   Task_Queues (resume_task sched id' self).2 !! id
     = Task_Queues self !! id) ∧
  (tasks (suspend_task id' self).2 !! id = Some task ∧
   Task_Queues (suspend_task id' self).2 !! id = Task_Queues self !! id).
Proof.
  intros Ht Hst.
  assert (quiet id self) as Hq.
  { intros t Ht'. rewrite Ht in Ht'. injection Ht' as <-.
    destruct Hst; congruence. }
  destruct (decide (id' = id)) as [->|Hne].
  - unfold execute_task, resume_task, suspend_task. rewrite Ht.
    unfold execute_registered, resume_registered.
    rewrite (decide_True (P := status task = COMPLETED ∨ status task = FAILED))
      by done.
    rewrite (decide_False
               (P := status task = INTERRUPTED ∨ status task = SUSPENDED))
      by (destruct Hst; intros [?|?]; congruence).
    rewrite (decide_False (P := status task = IN_PROGRESS))
      by (destruct Hst; congruence).
    done.
  - destruct (untouched_execute_task id sched id' self Hne Hq) as [-> ->].
    destruct (untouched_resume_task id sched id' self Hne Hq) as [-> ->].
    destruct (untouched_suspend_task id id' self Hq) as [-> ->].
    done.
Qed.

Lemma terminal_task_is_frozen_witness :
  tasks (example_run 2).2 !! "uuid-0"
    = Some (the_task "uuid-0" (example_run 2).2) ∧
  (status (the_task "uuid-0" (example_run 2).2) = COMPLETED ∨
   status (the_task "uuid-0" (example_run 2).2) = FAILED) ∧
  tasks (resume_task [] "uuid-0" (example_run 2).2).2 !! "uuid-0"
    = Some (the_task "uuid-0" (example_run 2).2).
Proof.
  assert (tasks (example_run 2).2 !! "uuid-0"
          = Some (the_task "uuid-0" (example_run 2).2)) as Ht
    by (apply the_task_lookup; vm_compute; reflexivity).
  assert (status (the_task "uuid-0" (example_run 2).2) = COMPLETED ∨
          status (the_task "uuid-0" (example_run 2).2) = FAILED) as Hst
    by (left; vm_compute; reflexivity).
  split; [exact Ht|]. split; [exact Hst|].
  pose proof (terminal_task_is_frozen [] "uuid-0" "uuid-0" _ _ Ht Hst)
    as (_ & (H & _) & _).
  exact H.
Defined.

(** X10.  Between calls every task is at rest.  In an engine driven from a
    fresh start by any sequence of calls (each [execute_task] and
    [resume_task] with any interleaving of [suspend_task] calls from other
    coroutines), every registered task is [PENDING], [COMPLETED], [FAILED]
    or [INTERRUPTED] when a call has returned: [IN_PROGRESS], [SUSPENDED]
    and [CHECKPOINTED] are never left behind.  An [INTERRUPTED] task has a
    checkpoint, and the last one in its list records exactly its
    [current_step] and [state_data]. *)
Theorem tasks_are_at_rest_between_calls clock uuids calls id task :
  tasks (run_calls (new_engine clock uuids) calls) !! id = Some task →
  at_rest (status task) ∧
  (status task = INTERRUPTED →
   ∃ c, last (checkpoints task) = Some c ∧
        step c = current_step task ∧ data c = state_data task).
Proof.
  intros Ht.
  destruct (engine_settled_run_calls (new_engine clock uuids) calls
              (engine_settled_new clock uuids)) as [Hreg _].
  exact (Hreg id task Ht).
Qed.

Lemma tasks_are_at_rest_between_calls_witness :
  tasks interrupted_once !! "uuid-0"
    = Some (the_task "uuid-0" interrupted_once) ∧
  at_rest (status (the_task "uuid-0" interrupted_once)) ∧
  (status (the_task "uuid-0" interrupted_once) = INTERRUPTED →
   ∃ c, last (checkpoints (the_task "uuid-0" interrupted_once)) = Some c ∧
        step c = current_step (the_task "uuid-0" interrupted_once) ∧
        data c = state_data (the_task "uuid-0" interrupted_once)).
Proof.
  assert (tasks interrupted_once !! "uuid-0"
          = Some (the_task "uuid-0" interrupted_once)) as Ht
    by (apply the_task_lookup; vm_compute; reflexivity).
  split; [exact Ht|].
  exact (tasks_are_at_rest_between_calls steady_clock numbered_uuid
           interrupted_calls "uuid-0" _ Ht).
Defined.

(** X11.  The same for what is on disk.  After any sequence of calls from a
    fresh start, the task stored in every task file is [PENDING],
    [COMPLETED], [FAILED] or [INTERRUPTED]; a file written by a
    [suspend_task] call during a run has been overwritten by the time the
    run returns. *)
Theorem task_files_are_at_rest_between_calls clock uuids calls id file :
  Task_Queues (run_calls (new_engine clock uuids) calls) !! id = Some file →
  at_rest (status (json_task file)).
Proof.
  intros Hf.
  destruct (engine_settled_run_calls (new_engine clock uuids) calls
              (engine_settled_new clock uuids)) as [_ Hfile].
  exact (proj1 (Hfile id file Hf)).
Qed.

Lemma task_files_are_at_rest_between_calls_witness :
  (∃ file, Task_Queues interrupted_once !! "uuid-0" = Some file ∧
           at_rest (status (json_task file))).
Proof.
  destruct (Task_Queues interrupted_once !! "uuid-0") as [file|] eqn:Hf.
  - exists file. split; [reflexivity|].
    exact (task_files_are_at_rest_between_calls steady_clock numbered_uuid
             interrupted_calls "uuid-0" file Hf).
  - exfalso. revert Hf. vm_compute. discriminate.
Defined.

(** X12.  [suspend_task] can only succeed from inside a run.  Called after
    any sequence of calls has returned, it returns [False] and changes
    nothing, whatever the task: the only call of it that succeeds is one
    made by another coroutine while a step of the task is awaited. *)
Theorem suspend_task_fails_between_calls clock uuids calls id :
  suspend_task id (run_calls (new_engine clock uuids) calls)
    = (false, run_calls (new_engine clock uuids) calls).
Proof.
  apply suspend_task_at_rest, engine_settled_run_calls, engine_settled_new.
Qed.

(** X13.  Resuming an interrupted task continues it where it stopped.  In an
    engine driven from a fresh start under a wall clock whose readings
    grow, [resume_task] on a registered [INTERRUPTED] task does exactly
    what [execute_task] does once the status is set to [IN_PROGRESS]: the
    checkpoint it restores is the one written by the interrupt, which holds
    the [current_step] and [state_data] the task already has, and the
    branch that restarts from step 0 for want of a checkpoint is never
    taken. *)
Theorem resume_after_interrupt_continues clock uuids calls sched id task :
  clock_advances clock →
  tasks (run_calls (new_engine clock uuids) calls) !! id = Some task →
  status task = INTERRUPTED →
  resume_task sched id (run_calls (new_engine clock uuids) calls)
  = execute_task sched id
      (modify_task id (set_status IN_PROGRESS)
         (run_calls (new_engine clock uuids) calls)).
Proof.
  intros Hclk Ht Hst.
  set (self := run_calls (new_engine clock uuids) calls) in *.
  assert (engine_ok self) as (_ & Hok & _)
    by (by apply engine_ok_run_calls, engine_ok_new).
  assert (engine_settled self) as [Hreg _]
    by apply engine_settled_run_calls, engine_settled_new.
  destruct (Hok id task Ht) as [Hsorted _].
  destruct (Hreg id task Ht) as [_ Hint].
  destruct (Hint Hst) as (c & Hlast & Hstep & Hdata).
  unfold resume_task. rewrite Ht. unfold resume_registered.
  rewrite decide_True by (by left).
  unfold _restore_from_checkpoint.
  rewrite Ht, latest_checkpoint_sorted, Hlast by done.
  by rewrite (restore_own_checkpoint id task c self Ht Hstep Hdata).
Qed.

Lemma resume_after_interrupt_continues_witness :
  clock_advances steady_clock ∧
  tasks interrupted_once !! "uuid-0"
    = Some (the_task "uuid-0" interrupted_once) ∧
  status (the_task "uuid-0" interrupted_once) = INTERRUPTED ∧
  resume_task [] "uuid-0" interrupted_once
  = execute_task [] "uuid-0"
      (modify_task "uuid-0" (set_status IN_PROGRESS) interrupted_once).
Proof.
  assert (tasks interrupted_once !! "uuid-0"
          = Some (the_task "uuid-0" interrupted_once)) as Ht
    by (apply the_task_lookup; vm_compute; reflexivity).
  assert (status (the_task "uuid-0" interrupted_once) = INTERRUPTED) as Hst
    by (vm_compute; reflexivity).
  split; [exact steady_clock_advances|]. split; [exact Ht|].
  split; [exact Hst|].
  exact (resume_after_interrupt_continues steady_clock numbered_uuid
           interrupted_calls [] "uuid-0" _ steady_clock_advances Ht Hst).
Defined.

(** X14.  A task that is known only from its file has lost its steps.
    [execute_task] on an id that is not registered but has a task file
    whose status is neither [COMPLETED] nor [FAILED] loads the task with an
    empty step list, calls no step at all, marks the task [COMPLETED] and
    returns [True], wherever the stored [current_step] stood. *)
Theorem reloaded_task_completes_without_steps sched id file self :
  tasks self !! id = None →
  Task_Queues self !! id = Some file →
  status (json_task file) ≠ COMPLETED → status (json_task file) ≠ FAILED →
  ∃ self' task',
    execute_task sched id self = (true, self') ∧
    trace self' = trace self ∧
    tasks self' !! id = Some task' ∧
    status task' = COMPLETED ∧ steps task' = [] ∧
    current_step task' = current_step (json_task file).
Proof.
  intros Ht Hq Hc Hf. unfold execute_task. rewrite Ht.
  destruct (load_task_Some id self file Hq) as (task & h & -> & Hld).
  destruct Hld as (_&_&_&Hnil&Hs&_&_&_&_&Hcur&_).
  set (s1 := with_tasks _ _).
  destruct (execute_registered_no_steps sched id task s1)
    as (self' & task' & -> & Htr & Ht' & Hst & Hnil' & Hcur' & _);
    [subst s1; cbn; by rewrite lookup_insert_eq|done|by rewrite Hs..|].
  exists self', task'. split_and!; try done. congruence.
Qed.

Lemma reloaded_task_completes_without_steps_witness :
  tasks reopened_engine !! "uuid-0" = None ∧
  (∃ file,
     Task_Queues reopened_engine !! "uuid-0" = Some file ∧
     status (json_task file) ≠ COMPLETED ∧ status (json_task file) ≠ FAILED ∧
     ∃ self' task',
       execute_task [] "uuid-0" reopened_engine = (true, self') ∧
       trace self' = trace reopened_engine ∧
       tasks self' !! "uuid-0" = Some task' ∧
       status task' = COMPLETED ∧ steps task' = [] ∧
       current_step task' = current_step (json_task file)).
Proof.
  assert (tasks reopened_engine !! "uuid-0" = None) as Ht
    by (vm_compute; reflexivity).
  split; [exact Ht|].
  destruct (Task_Queues reopened_engine !! "uuid-0") as [file|] eqn:Hq.
  2:{ exfalso. revert Hq. vm_compute. discriminate. }
  assert (status (json_task file) = PENDING) as Hst.
  { revert Hq. vm_compute. intros [= <-]. reflexivity. }
  assert (status (json_task file) ≠ COMPLETED) as Hc
    by (rewrite Hst; discriminate).
  assert (status (json_task file) ≠ FAILED) as Hf
    by (rewrite Hst; discriminate).
  exists file. split; [reflexivity|]. split; [exact Hc|]. split; [exact Hf|].
  exact (reloaded_task_completes_without_steps [] "uuid-0" file
           reopened_engine Ht Hq Hc Hf).
Defined.

(** X15.  The same on resuming.  [resume_task] on an id that is not
    registered but has a task file saying [INTERRUPTED] or [SUSPENDED]
    returns [True] without calling any step, and leaves the task
    [COMPLETED] with an empty step list. *)
Theorem resumed_reloaded_task_runs_no_step sched id file self :
  tasks self !! id = None →
  Task_Queues self !! id = Some file →
  status (json_task file) = INTERRUPTED ∨ status (json_task file) = SUSPENDED →
  ∃ self' task',
    resume_task sched id self = (true, self') ∧
    trace self' = trace self ∧
    tasks self' !! id = Some task' ∧
    status task' = COMPLETED ∧ steps task' = [].
Proof.
  intros Ht Hq Hst. unfold resume_task. rewrite Ht.
  destruct (load_task_Some id self file Hq) as (task & h & -> & Hld).
  destruct Hld as (_&_&_&Hsteps&Hs&_).
  set (s1 := with_tasks _ _).
  assert (tasks s1 !! id = Some task) as Ht1
    by (subst s1; cbn; by rewrite lookup_insert_eq).
  unfold resume_registered. rewrite decide_True by (by rewrite Hs).
  unfold _restore_from_checkpoint. rewrite Ht1.
  destruct (latest_checkpoint (checkpoints task)) as [latest|];
    unfold execute_task; rewrite !lookup_modify_task, Ht1; cbn.
  - edestruct (execute_registered_no_steps sched id)
      as (self' & task' & -> & Htr & Ht' & Hst' & Hnil & _);
      [by rewrite !lookup_modify_task, Ht1|done..|].
    exists self', task'. split_and!; done.
  - edestruct (execute_registered_no_steps sched id)
      as (self' & task' & -> & Htr & Ht' & Hst' & Hnil & _);
      [by rewrite !lookup_modify_task, Ht1|done..|].
    exists self', task'. split_and!; done.
Qed.

Lemma resumed_reloaded_task_runs_no_step_witness :
  tasks (reopen interrupted_once) !! "uuid-0" = None ∧
  (∃ file,
     Task_Queues (reopen interrupted_once) !! "uuid-0" = Some file ∧
     (status (json_task file) = INTERRUPTED ∨
      status (json_task file) = SUSPENDED) ∧
     ∃ self' task',
       resume_task [] "uuid-0" (reopen interrupted_once) = (true, self') ∧
       trace self' = trace (reopen interrupted_once) ∧
       tasks self' !! "uuid-0" = Some task' ∧
       status task' = COMPLETED ∧ steps task' = []).
Proof.
  assert (tasks (reopen interrupted_once) !! "uuid-0" = None) as Ht
    by (vm_compute; reflexivity).
  split; [exact Ht|].
  destruct (Task_Queues (reopen interrupted_once) !! "uuid-0")
    as [file|] eqn:Hq.
  2:{ exfalso. revert Hq. vm_compute. discriminate. }
  assert (status (json_task file) = INTERRUPTED ∨
          status (json_task file) = SUSPENDED) as Hst.
  { left. revert Hq. vm_compute. intros [= <-]. reflexivity. }
  exists file. split; [reflexivity|]. split; [exact Hst|].
  exact (resumed_reloaded_task_runs_no_step [] "uuid-0" file
           (reopen interrupted_once) Ht Hq Hst).
Defined.



(** *** Status reports *)

(** X17.  What [get_task_status] says about a task that was just created,
    in the process that created it and in a new one.  Right after
    [create_task] the report is [pending], progress [0/n] for [n] steps,
    with the name, priority and creation time given, no start or
    completion time and no error, and asking does not change the engine.
    A new process on the same directories reports the same task with
    [total_steps] 0 and progress [0/0], because the steps are not stored. *)
Theorem status_of_created_task name steps description priority self :
  let id := (create_task name steps description priority self).1 in
  let self1 := (create_task name steps description priority self).2 in
  let view :=
    {| view_task_id := uuid4 self;
       view_name := name;
       view_status := "pending";
       view_progress := "0/" +:+ pretty (length steps);
       view_priority := priority_value priority;
       view_created_at := datetime_now self;
       view_started_at := None;
       view_completed_at := None;
       view_current_step := 0;
       view_total_steps := length steps;
       view_error := None |} in
  id = uuid4 self ∧
  get_task_status id self1 = (Some view, self1) ∧
  (get_task_status id (reopen self1)).1
    = Some {| view_task_id := uuid4 self;
              view_name := name;
              view_status := "pending";
              view_progress := "0/0";
              view_priority := priority_value priority;
              view_created_at := datetime_now self;
              view_started_at := None;
              view_completed_at := None;
              view_current_step := 0;
              view_total_steps := 0;
              view_error := None |}.
Proof.
  cbv zeta. unfold create_task. cbn [fst snd].
  set (task := set_priority _ _).
  set (s0 := with_tasks _ _).
  assert (tasks s0 !! uuid4 self = Some task) as Ht
    by (subst s0; cbn; by rewrite lookup_insert_eq).
  split; [done|]. split.
  - unfold get_task_status. rewrite tasks_save_task, Ht. done.
  - unfold get_task_status, _load_task. cbn.
    unfold _save_task. rewrite Ht. cbn. rewrite lookup_insert_eq. done.
Qed.

(** X18.  With [checkpoint_interval] set to 0 no step can succeed.  The test
    [(current_step + 1) % checkpoint_interval] then raises
    [ZeroDivisionError] inside the [try], after the step has returned, and
    the handler treats it as a failure of the step.  So a step that returns
    every time is called again and again, [max_retries - retry_count + 1]
    times in all, none of these calls raises, and the task ends [FAILED] at
    the same [current_step] with the division error as its [error];
    [execute_task] returns [False]. *)
Theorem zero_interval_fails_every_step sched id task f self :
  checkpoint_interval self = 0%nat →
  tasks self !! id = Some task →
  status task ≠ COMPLETED → status task ≠ FAILED →
  steps task !! current_step task = Some f →
  always_returns f →
  ∃ self' task' new,
    execute_task sched id self = (false, self') ∧
    trace self' = trace self ++ new ∧
    invocations id new =
      replicate (max_retries task - retry_count task + 1) (current_step task) ∧
    failure_messages id new = [] ∧
    tasks self' !! id = Some task' ∧
    status task' = FAILED ∧
    current_step task' = current_step task ∧
    error task' = Some zero_division_message.
Proof.
  intros HK Ht Hc Hf Hstep Hret. unfold execute_task. rewrite Ht.
  destruct (execute_registered_enter sched id task self Ht Hc Hf)
    as (self0 & task0 & Ht0 & Hfr & _ & _ & Htr0 & HK0 & _ & _ & _ & _ & ->).
  destruct Hfr as (Hst & Hcur & Hrc0 & Hmr & _).
  destruct (while_loop_interval_zero_fails (loop_bound task) sched id self0
              task0 f)
    as (self' & task' & new & -> & Ht' & Htr & Hinv & Hfm & Hfailed & Hcur'
        & Herr);
    [congruence|done|by rewrite Hst, Hcur|done| |].
  { unfold loop_bound. lia. }
  exists self', task', new. split_and!; try done; try congruence.
  rewrite Hinv, Hmr, Hrc0, Hcur. f_equal. lia.
Qed.

Lemma zero_interval_fails_every_step_witness :
  checkpoint_interval zero_interval_engine = 0%nat ∧
  tasks zero_interval_engine !! "uuid-0"
    = Some (the_task "uuid-0" zero_interval_engine) ∧
  status (the_task "uuid-0" zero_interval_engine) ≠ COMPLETED ∧
  status (the_task "uuid-0" zero_interval_engine) ≠ FAILED ∧
  steps (the_task "uuid-0" zero_interval_engine)
    !! current_step (the_task "uuid-0" zero_interval_engine)
    = Some example_step_1 ∧
  always_returns example_step_1 ∧
  ∃ self' task' new,
    execute_task [] "uuid-0" zero_interval_engine = (false, self') ∧
    trace self' = trace zero_interval_engine ++ new ∧
    invocations "uuid-0" new =
      replicate
        (max_retries (the_task "uuid-0" zero_interval_engine)
         - retry_count (the_task "uuid-0" zero_interval_engine) + 1)
        (current_step (the_task "uuid-0" zero_interval_engine)) ∧
    failure_messages "uuid-0" new = [] ∧
    tasks self' !! "uuid-0" = Some task' ∧
    status task' = FAILED ∧
    current_step task' = current_step (the_task "uuid-0" zero_interval_engine) ∧
    error task' = Some zero_division_message.
Proof.
  assert (checkpoint_interval zero_interval_engine = 0%nat) as HK
    by (vm_compute; reflexivity).
  assert (tasks zero_interval_engine !! "uuid-0"
          = Some (the_task "uuid-0" zero_interval_engine)) as Ht
    by (apply the_task_lookup; vm_compute; reflexivity).
  assert (status (the_task "uuid-0" zero_interval_engine) ≠ COMPLETED) as Hc
    by (vm_compute; discriminate).
  assert (status (the_task "uuid-0" zero_interval_engine) ≠ FAILED) as Hf
    by (vm_compute; discriminate).
  assert (steps (the_task "uuid-0" zero_interval_engine)
            !! current_step (the_task "uuid-0" zero_interval_engine)
          = Some example_step_1) as Hstep by (vm_compute; reflexivity).
  assert (always_returns example_step_1) as Hret
    by (intros t j h; eexists; reflexivity).
  split_and!; [exact HK|exact Ht|exact Hc|exact Hf|exact Hstep|exact Hret|].
  exact (zero_interval_fails_every_step [] "uuid-0" _ example_step_1
           zero_interval_engine HK Ht Hc Hf Hstep Hret).
Defined.

(** X19.  A task that did not finish stays in the active list.  A first run
    of a pending task, not disturbed by other coroutines, puts its id at
    the end of [active_tasks].  If the run completes the task, the first
    occurrence of the id is taken out again.  If the run ends with the task
    [FAILED] or [INTERRUPTED], nothing removes the id: the list is the old
    one with the id appended, and [list_active_tasks] reports the failed or
    interrupted task among the active ones. *)
Theorem active_tasks_after_first_run id task self ok self' :
  tasks self !! id = Some task →
  status task = PENDING →
  execute_task [] id self = (ok, self') →
  ∃ task',
    tasks self' !! id = Some task' ∧
    if ok then
      status task' = COMPLETED ∧
      active_tasks self' = remove_first id (active_tasks self ++ [id])
    else
      (status task' = FAILED ∨ status task' = INTERRUPTED) ∧
      active_tasks self' = active_tasks self ++ [id] ∧
      status_view task' ∈ list_active_tasks self'.
Proof.
  intros Ht Hp. unfold execute_task. rewrite Ht.
  destruct (execute_registered_enter [] id task self Ht)
    as (self0 & task0 & Ht0 & Hfr & _ & _ & _ & _ & _ & Ha0 & _ & _ & ->);
    [congruence..|].
  rewrite decide_True in Ha0 by done.
  destruct Hfr as (Hst & Hcur & Hrc & Hmr & _ & _).
  pose proof (while_loop_fuel (loop_bound task) [] id self0 task0 Ht0)
    as Hfuel.
  pose proof (active_while_loop_alone (loop_bound task) id self0) as Ha1.
  assert (later_state id task0 (while_loop (loop_bound task) [] id self0).1)
    as (t1 & Ht1 & _).
  { apply later_state_while_loop. exists task0. auto using evolves_refl. }
  destruct (while_loop _ _ _ _) as [self1 x] eqn:Hloop.
  cbn [fst snd] in *.
  assert (∀ s t, tasks s !! id = Some t → id ∈ active_tasks s →
                 status_view t ∈ list_active_tasks s) as Hlisted.
  { intros s t Hl Hin. unfold list_active_tasks.
    apply list_elem_of_omap. exists id. split; [done|].
    unfold get_task_status. by rewrite Hl. }
  destruct x; intros [= <- <-].
  - destruct (complete_task_spec id self1 t1 Ht1)
      as (Ht' & _ & _ & _ & Ha' & _).
    eexists. split; [exact Ht'|]. split; [done|].
    by rewrite Ha', Ha1, Ha0.
  - destruct (while_loop_return_false _ _ _ _ _ _ Ht0 Hloop)
      as (t' & Ht' & Hst' & _).
    exists t'. split; [done|]. split; [by left|].
    split; [by rewrite Ha1, Ha0|].
    apply Hlisted; [done|]. rewrite Ha1, Ha0.
    apply elem_of_app. right. by apply list_elem_of_singleton.
  - destruct (on_keyboard_interrupt_spec id self1 t1 Ht1)
      as (Ht' & _ & _ & Ha' & _).
    eexists. split; [exact Ht'|]. split; [by right|].
    split; [by rewrite Ha', Ha1, Ha0|].
    apply Hlisted; [done|]. rewrite Ha', Ha1, Ha0.
    apply elem_of_app. right. by apply list_elem_of_singleton.
  - exfalso. apply Hfuel; [|done]. unfold loop_bound.
    rewrite Hst, Hcur, Hrc, Hmr. lia.
Qed.

Lemma active_tasks_after_first_run_witness :
  tasks two_step_failing_engine !! "uuid-0"
    = Some (the_task "uuid-0" two_step_failing_engine) ∧
  status (the_task "uuid-0" two_step_failing_engine) = PENDING ∧
  (execute_task [] "uuid-0" two_step_failing_engine).1 = false ∧
  ∃ task',
    tasks (execute_task [] "uuid-0" two_step_failing_engine).2 !! "uuid-0"
      = Some task' ∧
    (status task' = FAILED ∨ status task' = INTERRUPTED) ∧
    active_tasks (execute_task [] "uuid-0" two_step_failing_engine).2
      = active_tasks two_step_failing_engine ++ ["uuid-0"] ∧
    status_view task'
      ∈ list_active_tasks (execute_task [] "uuid-0" two_step_failing_engine).2.
Proof.
  assert (tasks two_step_failing_engine !! "uuid-0"
          = Some (the_task "uuid-0" two_step_failing_engine)) as Ht
    by (apply the_task_lookup; vm_compute; reflexivity).
  assert (status (the_task "uuid-0" two_step_failing_engine) = PENDING) as Hp
    by (vm_compute; reflexivity).
  assert ((execute_task [] "uuid-0" two_step_failing_engine).1 = false) as Hok
    by (vm_compute; reflexivity).
  split; [exact Ht|]. split; [exact Hp|]. split; [exact Hok|].
  exact (active_tasks_after_first_run "uuid-0" _ two_step_failing_engine false
           (execute_task [] "uuid-0" two_step_failing_engine).2 Ht Hp
           (run_result _ _ Hok)).
Defined.

(** X20.  [run_pending_tasks] leaves no task pending.  Every registered task
    among those it goes over is afterwards still registered, with the same
    identity and step list, and is not [PENDING]: it was run, or it had
    left [PENDING] before; this holds whatever other coroutines suspend
    during the runs, and also when runs fail or are interrupted, since
    [execute_task] reports those as [False] and the loop goes on. *)
Theorem run_pending_tasks_leaves_none_pending items scheds id task self :
  tasks self !! id = Some task →
  id ∈ items →
  ∃ task',
    tasks (run_pending_tasks items scheds self) !! id = Some task' ∧
    status task' ≠ PENDING ∧ evolves task task'.
Proof.
  intros Ht Hin. unfold run_pending_tasks.
  assert (later_state id task self) as HI
    by (exists task; auto using evolves_refl).
  destruct (decide (status task = PENDING)) as [Hp|Hp].
  - apply run_all_not_pending; [|done].
    apply list_elem_of_filter. split; [|done].
    unfold is_pending. rewrite Ht. by apply bool_decide_eq_true.
  - destruct (later_state_run_all id task scheds (pending_tasks items self)
                self HI) as (t' & Ht' & Hev).
    exists t'. split; [done|]. split; [|done].
    destruct Hev as (_&_&_&_&_&_&_&_&_&Hkeep&_). auto.
Qed.

Lemma run_pending_tasks_leaves_none_pending_witness :
  tasks two_pending !! "uuid-1" = Some (the_task "uuid-1" two_pending) ∧
  "uuid-1" ∈ ["uuid-0"; "uuid-1"] ∧
  ∃ task',
    tasks (run_pending_tasks ["uuid-0"; "uuid-1"] (fun _ => []) two_pending)
      !! "uuid-1" = Some task' ∧
    status task' ≠ PENDING ∧ evolves (the_task "uuid-1" two_pending) task'.
Proof.
  assert (tasks two_pending !! "uuid-1" = Some (the_task "uuid-1" two_pending))
    as Ht by (apply the_task_lookup; vm_compute; reflexivity).
  assert ("uuid-1" ∈ ["uuid-0"; "uuid-1"]) as Hin
    by (apply (bool_decide_unpack _); vm_compute; exact I).
  split; [exact Ht|]. split; [exact Hin|].
  exact (run_pending_tasks_leaves_none_pending ["uuid-0"; "uuid-1"]
           (fun _ => []) "uuid-1" _ two_pending Ht Hin).
Defined.

(** *** A step cut short by Ctrl-C *)

(** X21.  What [KeyboardInterrupt] during a step leaves behind.  If the step
    at the current index is cut short, [execute_task] has called it once,
    returns [False] and leaves the task [INTERRUPTED] at the same
    [current_step], with [retry_count] and [error] as they were: the
    interruption is not counted as a failure.  A checkpoint has been added
    at the end of the task's list that records this [current_step] and the
    state as the interrupted step left it, and the task file has been
    rewritten. *)
Theorem interrupted_step_is_checkpointed sched id task f self :
  tasks self !! id = Some task →
  status task ≠ COMPLETED → status task ≠ FAILED →
  steps task !! current_step task = Some f →
  always_interrupted f →
  ∃ self' task' new c,
    execute_task sched id self = (false, self') ∧
    trace self' = trace self ++ new ∧
    invocations id new = [current_step task] ∧
    tasks self' !! id = Some task' ∧
    status task' = INTERRUPTED ∧
    current_step task' = current_step task ∧
    retry_count task' = retry_count task ∧
    error task' = error task ∧
    last (checkpoints task') = Some c ∧
    step c = current_step task ∧ data c = state_data task' ∧
    Task_Queues self' !! id =
      Some {| json_task := to_dict task'; json_task_objects := objects self' |}.
Proof.
  intros Ht Hc Hf Hstep Hint. unfold execute_task. rewrite Ht.
  destruct (execute_registered_enter sched id task self Ht Hc Hf)
    as (self0 & task0 & Ht0 & Hfr & _ & _ & Htr0 & _ & _ & _ & _ & _ & ->).
  destruct Hfr as (Hst & Hcur & Hrc & Hmr & _ & Herr).
  unfold loop_bound.
  erewrite while_loop_unfold; [|done|by rewrite Hst, Hcur].
  destruct (iteration _ _ _ _ _) as [self1 x] eqn:Hit.
  destruct (iteration_spec _ _ _ _ _ _ _ Ht0 Hit)
    as (t1 & susp & Ht1 & _ & _ & Htr & Hsusp & _ & Hcase).
  rewrite Hint in Hcase, Htr. destruct Hcase as (-> & Hcur1 & Hrc1 & Herr1).
  destruct (on_keyboard_interrupt_spec id self1 t1 Ht1)
    as (Ht' & Hq' & Htr' & _).
  eexists _, _, _, _. split; [done|].
  split; [by rewrite Htr', Htr, Htr0|].
  split; [rewrite invocations_call by done; by rewrite Hcur|].
  split; [exact Ht'|]. cbn.
  split; [done|]. split; [congruence|]. split; [congruence|].
  split; [congruence|]. split; [by rewrite last_snoc|]. cbn.
  split; [congruence|]. split; [done|]. exact Hq'.
Qed.

Lemma interrupted_step_is_checkpointed_witness :
  tasks interrupted_created !! "uuid-0"
    = Some (the_task "uuid-0" interrupted_created) ∧
  status (the_task "uuid-0" interrupted_created) ≠ COMPLETED ∧
  status (the_task "uuid-0" interrupted_created) ≠ FAILED ∧
  steps (the_task "uuid-0" interrupted_created)
    !! current_step (the_task "uuid-0" interrupted_created)
    = Some interrupted_step ∧
  always_interrupted interrupted_step ∧
  ∃ self' task' new c,
    execute_task [] "uuid-0" interrupted_created = (false, self') ∧
    trace self' = trace interrupted_created ++ new ∧
    invocations "uuid-0" new
      = [current_step (the_task "uuid-0" interrupted_created)] ∧
    tasks self' !! "uuid-0" = Some task' ∧
    status task' = INTERRUPTED ∧
    current_step task'
      = current_step (the_task "uuid-0" interrupted_created) ∧
    retry_count task' = retry_count (the_task "uuid-0" interrupted_created) ∧
    error task' = error (the_task "uuid-0" interrupted_created) ∧
    last (checkpoints task') = Some c ∧
    step c = current_step (the_task "uuid-0" interrupted_created) ∧
    data c = state_data task' ∧
    Task_Queues self' !! "uuid-0" =
      Some {| json_task := to_dict task'; json_task_objects := objects self' |}.
Proof.
  assert (tasks interrupted_created !! "uuid-0"
          = Some (the_task "uuid-0" interrupted_created)) as Ht
    by (apply the_task_lookup; vm_compute; reflexivity).
  assert (status (the_task "uuid-0" interrupted_created) ≠ COMPLETED) as Hc
    by (vm_compute; discriminate).
  assert (status (the_task "uuid-0" interrupted_created) ≠ FAILED) as Hf
    by (vm_compute; discriminate).
  assert (steps (the_task "uuid-0" interrupted_created)
            !! current_step (the_task "uuid-0" interrupted_created)
          = Some interrupted_step) as Hstep by (vm_compute; reflexivity).
  assert (always_interrupted interrupted_step) as Hint
    by (intros t j h; reflexivity).
  split_and!; [exact Ht|exact Hc|exact Hf|exact Hstep|exact Hint|].
  exact (interrupted_step_is_checkpointed [] "uuid-0" _ interrupted_step
           interrupted_created Ht Hc Hf Hstep Hint).
Defined.

(** X22.  The checkpoints a run writes on its own.  In a run that no other
    coroutine disturbs and in which every remaining step returns, with a
    checkpoint interval [K] other than 0, [execute_task] appends to the
    task's checkpoints exactly one checkpoint for every step index [i] it
    passes with [(i + 1) mod K = 0], in order.  Each of them records [i],
    the index of the step that has just returned, not that of the step to
    run next, and its snapshot already holds, under [step_<i>_result], the
    value that the call of step [i] returned in this run. *)
Theorem periodic_checkpoints_record_finished_step id task self :
  tasks self !! id = Some task →
  status task ≠ COMPLETED → status task ≠ FAILED →
  checkpoint_interval self ≠ 0%nat →
  (∀ i f, (current_step task ≤ i)%nat → steps task !! i = Some f →
          always_returns f) →
  ∃ task' written new,
    tasks (execute_task [] id self).2 !! id = Some task' ∧
    trace (execute_task [] id self).2 = trace self ++ new ∧
    checkpoints task' = checkpoints task ++ written ∧
    step <$> written =
      filter (checkpoint_due (checkpoint_interval self))
        (seq (current_step task) (length (steps task) - current_step task)) ∧
    Forall (fun c => ∃ st r,
                       Invoke id (step c) st (Returned r) ∈ new ∧
                       data c !! step_key (step c) = Some r) written.
Proof.
  intros Ht Hc Hf HK Hall. unfold execute_task. rewrite Ht.
  destruct (execute_registered_enter [] id task self Ht Hc Hf)
    as (self0 & task0 & Ht0 & Hfr & _ & Hck0 & Htr0 & HK0 & _ & _ & _ & _ & ->).
  destruct Hfr as (Hst & Hcur & _).
  destruct (while_loop_periodic (loop_bound task) id self0 task0)
    as (self1 & t1 & written & new & -> & Ht1 & Htr1 & Hw & Hs & Hd);
    [done|congruence| | |].
  { intros i f Hi. rewrite Hst. apply Hall. lia. }
  { unfold loop_bound. rewrite Hst, Hcur. lia. }
  destruct (complete_task_spec id self1 t1 Ht1) as (Ht' & _ & Htr' & _).
  eexists _, written, new. split; [exact Ht'|]. cbn.
  split; [by rewrite Htr', Htr1, Htr0|].
  split; [by rewrite Hw, Hck0|]. split; [|done].
  by rewrite Hs, HK0, Hst, Hcur.
Qed.

Lemma periodic_checkpoints_record_finished_step_witness :
  tasks (with_checkpoint_interval 1 one_step_engine) !! "uuid-0"
    = Some (the_task "uuid-0" one_step_engine) ∧
  status (the_task "uuid-0" one_step_engine) ≠ COMPLETED ∧
  status (the_task "uuid-0" one_step_engine) ≠ FAILED ∧
  checkpoint_interval (with_checkpoint_interval 1 one_step_engine) ≠ 0%nat ∧
  (∀ i f, (current_step (the_task "uuid-0" one_step_engine) ≤ i)%nat →
          steps (the_task "uuid-0" one_step_engine) !! i = Some f →
          always_returns f) ∧
  ∃ task' written new,
    tasks (execute_task [] "uuid-0"
             (with_checkpoint_interval 1 one_step_engine)).2 !! "uuid-0"
      = Some task' ∧
    trace (execute_task [] "uuid-0"
             (with_checkpoint_interval 1 one_step_engine)).2
      = trace (with_checkpoint_interval 1 one_step_engine) ++ new ∧
    checkpoints task'
      = checkpoints (the_task "uuid-0" one_step_engine) ++ written ∧
    step <$> written =
      filter (checkpoint_due
                (checkpoint_interval
                   (with_checkpoint_interval 1 one_step_engine)))
        (seq (current_step (the_task "uuid-0" one_step_engine))
           (length (steps (the_task "uuid-0" one_step_engine))
            - current_step (the_task "uuid-0" one_step_engine))) ∧
    Forall (fun c => ∃ st r,
                       Invoke "uuid-0" (step c) st (Returned r) ∈ new ∧
                       data c !! step_key (step c) = Some r) written.
Proof.
  assert (tasks (with_checkpoint_interval 1 one_step_engine) !! "uuid-0"
          = Some (the_task "uuid-0" one_step_engine)) as Ht
    by (apply (the_task_lookup "uuid-0" one_step_engine);
        vm_compute; reflexivity).
  assert (status (the_task "uuid-0" one_step_engine) ≠ COMPLETED) as Hc
    by (vm_compute; discriminate).
  assert (status (the_task "uuid-0" one_step_engine) ≠ FAILED) as Hf
    by (vm_compute; discriminate).
  assert (checkpoint_interval (with_checkpoint_interval 1 one_step_engine)
          ≠ 0%nat) as HK by (vm_compute; discriminate).
  assert (∀ i f, (current_step (the_task "uuid-0" one_step_engine) ≤ i)%nat →
                 steps (the_task "uuid-0" one_step_engine) !! i = Some f →
                 always_returns f) as Hall.
  { intros i f _ Hf'.
    assert (steps (the_task "uuid-0" one_step_engine) = [example_step_1])
      as Hsteps by (vm_compute; reflexivity).
    rewrite Hsteps in Hf'. destruct i as [|i]; [|by destruct i].
    injection Hf' as <-. intros t j h. eexists. reflexivity. }
  split_and!; [exact Ht|exact Hc|exact Hf|exact HK|exact Hall|].
  exact (periodic_checkpoints_record_finished_step "uuid-0" _
           (with_checkpoint_interval 1 one_step_engine) Ht Hc Hf HK Hall).
Defined.

(** X23.  The engine never reads the checkpoint directory.  Put any files
    whatever in place of the ones in the directory, or empty it: every
    call then returns the same value and calls the same steps with the
    same outcomes as before, and after any sequence of calls the registry,
    the task objects with their checkpoint lists, the task files and the
    list of active tasks are the same.  The checkpoint files are written
    and never used; what [resume_task] restores comes from the checkpoint
    list inside the task object or the task file. *)
Theorem checkpoint_files_are_never_read files self :
  (∀ sched id,
     (execute_task sched id (with_Checkpoints files self)).1
       = (execute_task sched id self).1 ∧
     (resume_task sched id (with_Checkpoints files self)).1
       = (resume_task sched id self).1 ∧
     (suspend_task id (with_Checkpoints files self)).1
       = (suspend_task id self).1) ∧
  (∀ calls,
     same_but_checkpoint_files
       (run_calls (with_Checkpoints files self) calls)
       (run_calls self calls)).
Proof.
  pose proof (same_with_files files self) as H. split.
  - intros sched id. split_and!.
    + by apply same_execute_task.
    + by apply same_resume_task.
    + by apply same_suspend_task.
  - intros calls. by apply same_run_calls.
Qed.
